(** * loltoml: a shallow embedding of the streaming TOML parser

    The development follows [include/loltoml/detail/parser.hpp]:
    the character classifiers, the byte cursor, the recursive-descent
    functions of [parser_t] and the events they deliver to the handler.

    - The parser is written in a small state-and-exception monad over the
      parser object (the input stream and the handler).  The handler is
      the list of the calls made on it; it never throws.
    - Every [while] loop of the source is a fixpoint on a fuel counter.
      The fuel is adequate: [parse_runs] shows that fuel in proportion to
      the input's length suffices, [parse_stable] that more fuel changes
      no outcome.
    - [std::size_t] and [uint32_t] values are integers reduced modulo
      [2^64] and [2^32].
    - [std::regex_match] is a matcher by derivatives, proved to decide the
      language of the pattern ([regex_match_spec]).
    - [std::stod] and the type of its results are parameters, as are the
      end-of-input sentinel and message of the byte cursor.
    - Of the examples, [escape_string], the printing of a [TOMLValue] and
      of a map of them, and the handler [TOMLHandler] with [parseConfig]
      are embedded too; how a stream formats a number is a parameter. *)

From Stdlib Require Import ZArith List String Ascii Bool Lia.
Import ListNotations.

Local Open Scope string_scope.
Local Open Scope list_scope.
Local Open Scope Z_scope.

(** ** Characters *)

(** The control and punctuation characters the source writes as escapes. *)
Definition BS  : ascii := "008"%char.   (* '\b' *)
Definition TAB : ascii := "009"%char.   (* '\t' *)
Definition LF  : ascii := "010"%char.   (* '\n' *)
Definition FF  : ascii := "012"%char.   (* '\f' *)
Definition CR  : ascii := "013"%char.   (* '\r' *)
Definition DQUOTE : ascii := "034"%char.
Definition SQUOTE : ascii := "039"%char.
Definition BACKSLASH : ascii := "092"%char.

(** [static_cast<unsigned char>(ch)] as a number. *)
Definition uchar (ch : ascii) : Z := Z.of_N (N_of_ascii ch).

(** [static_cast<unsigned char>(n)] pushed on a [std::string]: the low
    eight bits of [n]. *)
Definition to_char (n : Z) : ascii := ascii_of_N (Z.to_N (n mod 256)).

(** [lo <= ch && ch <= hi] for character literals [lo], [hi] below 128,
    where the comparison does not depend on the signedness of [char]. *)
Definition between (lo hi ch : ascii) : bool :=
  ((lo <=? ch) && (ch <=? hi))%char.

(** [std::string::push_back]. *)
Definition push_back (s : string) (ch : ascii) : string :=
  (s ++ String ch EmptyString)%string.

(** The bytes of a string literal, for writing inputs. *)
Definition bytes (s : string) : list ascii := list_ascii_of_string s.

(** [std::isprint] and [std::isspace] in the "C" locale. *)
Definition isprint (ch : ascii) : bool := between " "%char "~"%char ch.

Definition isspace (ch : ascii) : bool :=
  ((ch =? " ") || between TAB CR ch)%char.

Definition hex_digits : list ascii := bytes "0123456789abcdef".

Definition escape_char (ch : ascii) : string :=
  if (ch =? BACKSLASH)%char then String BACKSLASH (String BACKSLASH "")
  else if (ch =? SQUOTE)%char then String BACKSLASH (String SQUOTE "")
  else if (ch =? DQUOTE)%char then String BACKSLASH (String DQUOTE "")
  else if (ch =? BS)%char then String BACKSLASH "b"
  else if (ch =? TAB)%char then String BACKSLASH "t"
  else if (ch =? CR)%char then String BACKSLASH "r"
  else if (ch =? LF)%char then String BACKSLASH "n"
  else if isprint ch then String ch ""
  else
    String BACKSLASH
      (String "x"
         (String (nth (Z.to_nat (uchar ch / 16)) hex_digits "Y"%char)
            (String (nth (Z.to_nat (uchar ch mod 16)) hex_digits "Y"%char) ""))).

Definition iscontrol (ch : ascii) : bool := uchar ch <? 32.

Definition is_word_character (ch : ascii) : bool :=
  between "a" "z" ch ||
  between "A" "Z" ch ||
  between "0" "9" ch ||
  (ch =? "+")%char ||
  (ch =? "-")%char ||
  (ch =? "_")%char ||
  (ch =? ".")%char.

Definition is_key_character (ch : ascii) : bool :=
  between "a" "z" ch ||
  between "A" "Z" ch ||
  between "0" "9" ch ||
  (ch =? "-")%char ||
  (ch =? "_")%char.

(** ** Regular expressions

    [std::regex_match] decides whether the whole string belongs to the
    language of the pattern, so the three patterns of
    [parse_bool_or_number_or_symbol] are given as syntax trees and matched
    with Brzozowski derivatives. *)
Module Regex.

Inductive t : Type :=
| empty_set
| epsilon
| char_class (p : ascii -> bool)
| seq (a b : t)
| alt (a b : t)
| star (a : t).

(** [a+] and [a?]. *)
Definition plus (a : t) : t := seq a (star a).
Definition opt (a : t) : t := alt a epsilon.

(** The atoms the patterns use.  [\d] is a decimal digit; an unescaped
    [.] is any character but a line terminator. *)
Definition digit : t := char_class (between "0" "9").
Definition any_char : t :=
  char_class (fun ch => negb ((ch =? LF) || (ch =? CR))%char).
Definition one_of (l : list ascii) : t :=
  char_class (fun ch => existsb (Ascii.eqb ch) l).

Fixpoint nullable (r : t) : bool :=
  match r with
  | empty_set => false
  | epsilon => true
  | char_class _ => false
  | seq a b => nullable a && nullable b
  | alt a b => nullable a || nullable b
  | star _ => true
  end.

Fixpoint derive (ch : ascii) (r : t) : t :=
  match r with
  | empty_set => empty_set
  | epsilon => empty_set
  | char_class p => if p ch then epsilon else empty_set
  | seq a b =>
      if nullable a
      then alt (seq (derive ch a) b) (derive ch b)
      else seq (derive ch a) b
  | alt a b => alt (derive ch a) (derive ch b)
  | star a => seq (derive ch a) (star a)
  end.

Fixpoint regex_match (s : string) (r : t) : bool :=
  match s with
  | EmptyString => nullable r
  | String ch s' => regex_match s' (derive ch r)
  end.

(** The language of a pattern, against which [regex_match] is checked. *)
Inductive matches : t -> string -> Prop :=
| m_epsilon : matches epsilon ""
| m_class p ch : p ch = true -> matches (char_class p) (String ch "")
| m_seq a b s1 s2 : matches a s1 -> matches b s2 -> matches (seq a b) (s1 ++ s2)%string
| m_alt_l a b s : matches a s -> matches (alt a b) s
| m_alt_r a b s : matches b s -> matches (alt a b) s
| m_star_nil a : matches (star a) ""
| m_star_cons a s1 s2 :
    matches a s1 -> matches (star a) s2 -> matches (star a) (s1 ++ s2)%string.

End Regex.

(** The pattern [^ \d+ $]. *)
Definition integer_regex : Regex.t := Regex.plus Regex.digit.

(** The pattern [^ [-+]? ( (\d* . \d+) | (\d+ . \d* ) | \d+ ) ( [eE] [-+]? \d+ )? $]
    (written here with blanks between its parts); the dot is not escaped
    in the source, so it stands for any character. *)
Definition float_regex : Regex.t :=
  Regex.seq (Regex.opt (Regex.one_of (bytes "-+")))
    (Regex.seq
       (Regex.alt
          (Regex.alt
             (Regex.seq (Regex.star Regex.digit)
                (Regex.seq Regex.any_char (Regex.plus Regex.digit)))
             (Regex.seq (Regex.plus Regex.digit)
                (Regex.seq Regex.any_char (Regex.star Regex.digit))))
          (Regex.plus Regex.digit))
       (Regex.opt
          (Regex.seq (Regex.one_of (bytes "eE"))
             (Regex.seq (Regex.opt (Regex.one_of (bytes "-+")))
                (Regex.plus Regex.digit))))).

(** The pattern [^ [a-zA-Z_] [a-zA-Z0-9_]* $]. *)
Definition symbol_regex : Regex.t :=
  Regex.seq
    (Regex.char_class
       (fun ch => between "a" "z" ch || between "A" "Z" ch || (ch =? "_")%char))
    (Regex.star
       (Regex.char_class
          (fun ch =>
             between "a" "z" ch || between "A" "Z" ch || between "0" "9" ch ||
             (ch =? "_")%char))).

(** ** Types of the parser *)

(** [enum class toml_type_t] of [parser_t]. *)
Module toml_type_t.

Inductive t : Set :=
| string
| integer
| floating_point
| boolean
| datetime
| array
| table
| symbol.

Definition eq_dec (a b : t) : {a = b} + {a <> b}.
Proof. decide equality. Defined.

(** [a != b] *)
Definition neqb (a b : t) : bool := if eq_dec a b then false else true.

End toml_type_t.

(** The calls the parser makes on its [Handler], recorded as events.
    [double] is the type of the values [std::stod] returns. *)
Module Handler.

Inductive event (double : Type) : Type :=
| start_document
| finish_document
| comment (text : String.string)
| key (name : String.string)
| string (value : String.string)
| integer (value : Z)
| floating_point (value : double)
| boolean (value : bool)
| symbol (name : String.string)
| start_array
| finish_array (size : Z)
| start_inline_table
| finish_inline_table (size : Z)
| table (path : list String.string)
| array_table (path : list String.string).

Arguments start_document {double}.
Arguments finish_document {double}.
Arguments comment {double} text.
Arguments key {double} name.
Arguments string {double} value.
Arguments integer {double} value.
Arguments floating_point {double} value.
Arguments boolean {double} value.
Arguments symbol {double} name.
Arguments start_array {double}.
Arguments finish_array {double} size.
Arguments start_inline_table {double}.
Arguments finish_inline_table {double} size.
Arguments table {double} path.
Arguments array_table {double} path.

End Handler.

(** The exceptions that leave [parse]: the parser's own [parser_error_t]
    (message and byte offset) and the two the numeric conversions of the
    standard library throw. *)
Inductive std_exception : Set :=
| invalid_argument
| out_of_range.

Inductive exception : Set :=
| parser_error_t (message : string) (offset : Z)
| std_error (e : std_exception).

(** [std::size_t] and [uint32_t] arithmetic wraps around. *)
Definition size_t (n : Z) : Z := n mod 2 ^ 64.
Definition uint32_t (n : Z) : Z := n mod 2 ^ 32.

(** ** The byte cursor *)

(** Modelled from the spec: [input_stream_t] of
    [loltoml/detail/input_stream.hpp], which the parser includes and which
    is not among the sources.  The cursor holds the unread bytes and the
    number of bytes consumed; [peek] gives the next unread byte or an
    end-of-input sentinel, [get] consumes one byte and fails at the end of
    the input with the number of bytes consumed as offset. *)
Module input_stream_t.

Record t : Type := make { backend : list ascii; processed_bytes : Z }.

Definition eof (i : t) : bool :=
  match backend i with [] => true | _ :: _ => false end.

Definition peek (sentinel : ascii) (i : t) : ascii :=
  match backend i with [] => sentinel | ch :: _ => ch end.

Definition get (message : string) (i : t) : exception + ascii * t :=
  match backend i with
  | [] => inl (parser_error_t message (processed_bytes i))
  | ch :: rest => inr (ch, make rest (size_t (processed_bytes i + 1)))
  end.

Definition processed (i : t) : Z := processed_bytes i.

End input_stream_t.

(** ** [std::stoll]

    Leading white space, an optional sign and the longest run of decimal
    digits; [invalid_argument] without a digit, [out_of_range] outside
    [long long]. *)
Fixpoint skip_isspace (s : string) : string :=
  match s with
  | String ch s' => if isspace ch then skip_isspace s' else s
  | EmptyString => s
  end.

Fixpoint decimal_prefix (acc : option Z) (s : string) : option Z :=
  match s with
  | String ch s' =>
      if between "0" "9" ch
      then decimal_prefix
             (Some (10 * match acc with Some a => a | None => 0 end
                    + (uchar ch - uchar "0")))
             s'
      else acc
  | EmptyString => acc
  end.

Definition stoll (s : string) : std_exception + Z :=
  let s := skip_isspace s in
  let (negative, digits) :=
    match s with
    | String ch s' =>
        if (ch =? "-")%char then (true, s')
        else if (ch =? "+")%char then (false, s')
        else (false, s)
    | EmptyString => (false, s)
    end in
  match decimal_prefix None digits with
  | None => inl invalid_argument
  | Some n =>
      let v := if negative then - n else n in
      if (v <? - 2 ^ 63) || (2 ^ 63 - 1 <? v) then inl out_of_range else inr v
  end.

(** ** Writing a string

    [escape_string] of [examples/toml_value.h], with which the examples
    print a string value between double quotes; [escape_string_step] is
    the body of its loop over the characters of the text. *)
Definition escape_string_step (result : string) (ch : ascii) : string :=
  if (ch =? BACKSLASH)%char then
    (result ++ String BACKSLASH (String BACKSLASH ""))%string
  else if (ch =? DQUOTE)%char then
    (result ++ String BACKSLASH (String DQUOTE ""))%string
  else if (ch =? BS)%char then (result ++ String BACKSLASH "b")%string
  else if (ch =? TAB)%char then (result ++ String BACKSLASH "t")%string
  else if (ch =? CR)%char then (result ++ String BACKSLASH "r")%string
  else if (ch =? LF)%char then (result ++ String BACKSLASH "n")%string
  else if uchar ch <? 32 then
    push_back
      (push_back
         (push_back (push_back (push_back (push_back result BACKSLASH) "u") "0") "0")
         (nth (Z.to_nat (uchar ch / 16)) hex_digits "000"%char))
      (nth (Z.to_nat (uchar ch mod 16)) hex_digits "000"%char)
  else push_back result ch.

Definition escape_string (text : string) : string :=
  fold_left escape_string_step (list_ascii_of_string text) "".

(** ** A handler for the examples

    The values the parser is run with on concrete inputs: a handler that
    keeps no value for a floating-point number, a [std::stod] that accepts
    every token, and the NUL byte as the cursor's end-of-input sentinel. *)
Definition sample_stod (token : string) : std_exception + unit := inr tt.
Definition sample_sentinel : ascii := "000"%char.
Definition sample_message : string := "Unexpected end of input".

(** ** The parser *)

Section Parser.

(** [std::stod] is the C library's conversion and [double] the type of
    its results; the sentinel [peek] gives at the end of the input and
    the message of the end-of-input error are those of the byte cursor. *)
Variable double : Type.
Variable stod : string -> std_exception + double.
Variable eof_sentinel : ascii.
Variable eof_message : string.

Abbreviation event := (Handler.event double).

(** [parser_t]: the input stream and the handler, the latter as the list
    of the calls made on it so far. *)
Record parser_t : Type :=
  { input : input_stream_t.t; handler : list event }.

(** A member function of [parser_t] returns a value, throws, or (in the
    model only) exhausts the fuel of a loop. *)
Inductive outcome (A : Type) : Type :=
| Done (a : A) (p : parser_t)
| Throw (e : exception) (p : parser_t)
| OutOfFuel.

Arguments Done {A} a p.
Arguments Throw {A} e p.
Arguments OutOfFuel {A}.

Definition M (A : Type) : Type := parser_t -> outcome A.

Definition ret {A : Type} (a : A) : M A := fun p => Done a p.

Definition bind {A B : Type} (m : M A) (k : A -> M B) : M B :=
  fun p =>
    match m p with
    | Done a p' => k a p'
    | Throw e p' => Throw e p'
    | OutOfFuel => OutOfFuel
    end.

Definition throw {A : Type} (e : exception) : M A := fun p => Throw e p.

Definition out_of_fuel {A : Type} : M A := fun _ => OutOfFuel.

Notation "x <- m ;; k" := (bind m (fun x => k))
  (at level 61, m at next level, right associativity).
Notation "m ;;; k" := (bind m (fun _ => k))
  (at level 61, right associativity).

(** The calls on [input] and [handler]. *)
Definition input_eof : M bool :=
  fun p => Done (input_stream_t.eof (input p)) p.

Definition input_peek : M ascii :=
  fun p => Done (input_stream_t.peek eof_sentinel (input p)) p.

Definition input_get : M ascii :=
  fun p =>
    match input_stream_t.get eof_message (input p) with
    | inl e => Throw e p
    | inr (ch, i) => Done ch {| input := i; handler := handler p |}
    end.

Definition input_processed : M Z :=
  fun p => Done (input_stream_t.processed (input p)) p.

Definition emit (e : event) : M unit :=
  fun p => Done tt {| input := input p; handler := handler p ++ [e] |}.

Definition last_char_offset : M Z :=
  processed <- input_processed ;;
  ret (if processed =? 0 then 0 else size_t (processed - 1)).

Definition parser_error {A : Type} (message : string) : M A :=
  offset <- last_char_offset ;;
  throw (parser_error_t message offset).

(** [parse_chars(expected)], [expected] without its final NUL. *)
Definition parse_chars (expected : list ascii) : M ascii :=
  result <- input_get ;;
  if existsb (Ascii.eqb result) expected then ret result
  else
    let quoted ch := (String SQUOTE (escape_char ch) ++ String SQUOTE "")%string in
    let list :=
      fold_left (fun list ch => (list ++ ", " ++ quoted ch)%string)
        (tl expected) (quoted (hd "000"%char expected)) in
    parser_error ("Expected one of the following symbols: " ++ list)%string.

(** A function named [f_loop] below is the [while] loop of the member
    function [f], with the variables the loop updates as arguments. *)
Fixpoint skip_spaces (fuel : nat) : M unit :=
  match fuel with
  | O => out_of_fuel
  | S fuel =>
      at_end <- input_eof ;;
      if at_end then ret tt
      else
        ch <- input_peek ;;
        if ((ch =? " ") || (ch =? TAB))%char
        then input_get ;;; skip_spaces fuel
        else ret tt
  end.

Fixpoint parse_comment_loop (fuel : nat) (comment : string) : M string :=
  match fuel with
  | O => out_of_fuel
  | S fuel =>
      ch <- input_peek ;;
      if (ch =? TAB)%char || negb (iscontrol ch)
      then ch <- input_get ;; parse_comment_loop fuel (push_back comment ch)
      else ret comment
  end.

(** The source asserts [input.peek() == '#'] on entry. *)
Definition parse_comment (fuel : nat) : M unit :=
  input_get ;;;
  comment <- parse_comment_loop fuel "" ;;
  emit (Handler.comment comment).

Definition parse_new_line : M unit :=
  ch <- input_get ;;
  ch <- (if (ch =? CR)%char then input_get else ret ch) ;;
  if negb (ch =? LF)%char then parser_error "Expected new-line"
  else ret tt.

Fixpoint skip_spaces_and_empty_lines (fuel : nat) : M unit :=
  match fuel with
  | O => out_of_fuel
  | S fuel =>
      at_end <- input_eof ;;
      if at_end then ret tt
      else
        skip_spaces fuel ;;;
        ch <- input_peek ;;
        if (ch =? "#")%char then
          parse_comment fuel ;;;
          parse_new_line ;;;
          skip_spaces_and_empty_lines fuel
        else if ((ch =? CR) || (ch =? LF))%char then
          parse_new_line ;;;
          skip_spaces_and_empty_lines fuel
        else ret tt
  end.

Definition parse_hex_digit : M Z :=
  ch <- input_get ;;
  if between "0" "9" ch then ret (uchar ch - uchar "0")
  else if between "A" "F" ch then ret (uchar ch - uchar "A" + 10)
  else if between "a" "f" ch then ret (uchar ch - uchar "a" + 10)
  else parser_error "Expected hex-digit".

(** [codepoint = (codepoint << 4) + parse_hex_digit();] on a [uint32_t]. *)
Definition next_hex_digit (codepoint : Z) : M Z :=
  digit <- parse_hex_digit ;;
  ret (uint32_t (Z.shiftl codepoint 4 + digit)).

Definition parse_4_digit_codepoint : M Z :=
  codepoint <- parse_hex_digit ;;
  codepoint <- next_hex_digit codepoint ;;
  codepoint <- next_hex_digit codepoint ;;
  codepoint <- next_hex_digit codepoint ;;
  ret codepoint.

Definition parse_8_digit_codepoint : M Z :=
  codepoint <- parse_hex_digit ;;
  codepoint <- next_hex_digit codepoint ;;
  codepoint <- next_hex_digit codepoint ;;
  codepoint <- next_hex_digit codepoint ;;
  codepoint <- next_hex_digit codepoint ;;
  codepoint <- next_hex_digit codepoint ;;
  codepoint <- next_hex_digit codepoint ;;
  codepoint <- next_hex_digit codepoint ;;
  ret codepoint.

(** The UTF-8 bytes [process_codepoint] pushes for a valid code point. *)
Definition utf8_bytes (codepoint : Z) : list ascii :=
  if codepoint <=? 0x7F then
    [to_char codepoint]
  else if codepoint <=? 0x7FF then
    [to_char (Z.lor 0xC0 (Z.shiftr codepoint 6));
     to_char (Z.lor 0x80 (Z.land codepoint 0x3F))]
  else if codepoint <=? 0xFFFF then
    [to_char (Z.lor 0xE0 (Z.shiftr codepoint 12));
     to_char (Z.lor 0x80 (Z.land (Z.shiftr codepoint 6) 0x3F));
     to_char (Z.lor 0x80 (Z.land codepoint 0x3F))]
  else
    [to_char (Z.lor 0xF0 (Z.shiftr codepoint 18));
     to_char (Z.lor 0x80 (Z.land (Z.shiftr codepoint 12) 0x3F));
     to_char (Z.lor 0x80 (Z.land (Z.shiftr codepoint 6) 0x3F));
     to_char (Z.lor 0x80 (Z.land codepoint 0x3F))].

(** [process_codepoint]; the string it extends in place is returned. *)
Definition process_codepoint (codepoint escape_sequence_offset : Z)
    (output : string) : M string :=
  if (0xD800 <=? codepoint) && (codepoint <=? 0xDFFF) then
    throw (parser_error_t "Surrogate pairs are not allowed" escape_sequence_offset)
  else if 0x10FFFF <? codepoint then
    throw (parser_error_t "Codepoint must be less or equal than 0x10FFFF"
             escape_sequence_offset)
  else ret (fold_left push_back (utf8_bytes codepoint) output).

(** The escape sequences of the basic strings, after the backslash: the
    chain of comparisons that the source writes out in both
    [parse_basic_string] and [parse_multiline_string]. *)
Definition parse_escape_sequence (escape_sequence_offset : Z)
    (result : string) : M string :=
  ch <- input_get ;;
  if (ch =? "b")%char then ret (push_back result BS)
  else if (ch =? "t")%char then ret (push_back result TAB)
  else if (ch =? "n")%char then ret (push_back result LF)
  else if (ch =? "f")%char then ret (push_back result FF)
  else if (ch =? "r")%char then ret (push_back result CR)
  else if (ch =? DQUOTE)%char then ret (push_back result DQUOTE)
  else if (ch =? BACKSLASH)%char then ret (push_back result BACKSLASH)
  else if (ch =? "u")%char then
    codepoint <- parse_4_digit_codepoint ;;
    process_codepoint codepoint escape_sequence_offset result
  else if (ch =? "U")%char then
    codepoint <- parse_8_digit_codepoint ;;
    process_codepoint codepoint escape_sequence_offset result
  else throw (parser_error_t "Invalid escape-sequence" escape_sequence_offset).

Fixpoint parse_basic_string_loop (fuel : nat) (result : string) : M string :=
  match fuel with
  | O => out_of_fuel
  | S fuel =>
      ch <- input_get ;;
      if iscontrol ch then parser_error "Control characters must be escaped"
      else if (ch =? DQUOTE)%char then ret result
      else if (ch =? BACKSLASH)%char then
        escape_sequence_offset <- last_char_offset ;;
        result <- parse_escape_sequence escape_sequence_offset result ;;
        parse_basic_string_loop fuel result
      else parse_basic_string_loop fuel (push_back result ch)
  end.

Definition parse_basic_string (fuel : nat) : M string :=
  parse_basic_string_loop fuel "".

(** [while (std::isspace(input.peek())) input.get();] *)
Fixpoint skip_isspace_loop (fuel : nat) : M unit :=
  match fuel with
  | O => out_of_fuel
  | S fuel =>
      ch <- input_peek ;;
      if isspace ch then input_get ;;; skip_isspace_loop fuel else ret tt
  end.

Fixpoint parse_multiline_string_loop (fuel : nat) (result : string) : M string :=
  match fuel with
  | O => out_of_fuel
  | S fuel =>
      ch <- input_peek ;;
      if ((ch =? CR) || (ch =? LF))%char then
        parse_new_line ;;;
        parse_multiline_string_loop fuel (push_back result LF)
      else
        ch <- input_get ;;
        if iscontrol ch then parser_error "Control characters must be escaped"
        else if (ch =? DQUOTE)%char then
          ch2 <- input_peek ;;
          if (ch2 =? DQUOTE)%char then
            input_get ;;;
            ch3 <- input_peek ;;
            if (ch3 =? DQUOTE)%char then input_get ;;; ret result
            else
              parse_multiline_string_loop fuel
                (push_back (push_back result DQUOTE) DQUOTE)
          else parse_multiline_string_loop fuel (push_back result DQUOTE)
        else if (ch =? BACKSLASH)%char then
          ch2 <- input_peek ;;
          if ((ch2 =? CR) || (ch2 =? LF))%char then
            parse_new_line ;;;
            skip_isspace_loop fuel ;;;
            parse_multiline_string_loop fuel result
          else
            escape_sequence_offset <- last_char_offset ;;
            result <- parse_escape_sequence escape_sequence_offset result ;;
            parse_multiline_string_loop fuel result
        else parse_multiline_string_loop fuel (push_back result ch)
  end.

Definition parse_multiline_string (fuel : nat) : M string :=
  (* Ignore first new-line after open quotes. *)
  ch <- input_peek ;;
  (if ((ch =? CR) || (ch =? LF))%char then parse_new_line else ret tt) ;;;
  parse_multiline_string_loop fuel "".

(** The source asserts on entry that [input.peek()] is the double quote. *)
Definition parse_string (fuel : nat) : M unit :=
  input_get ;;;
  ch <- input_peek ;;
  if (ch =? DQUOTE)%char then
    input_get ;;;
    ch <- input_peek ;;
    if (ch =? DQUOTE)%char then
      input_get ;;;
      value <- parse_multiline_string fuel ;;
      emit (Handler.string value)
    else emit (Handler.string "")
  else
    value <- parse_basic_string fuel ;;
    emit (Handler.string value).

Fixpoint parse_multiline_literal_string_loop (fuel : nat) (string : String.string)
    : M unit :=
  match fuel with
  | O => out_of_fuel
  | S fuel =>
      ch <- input_peek ;;
      if ((ch =? CR) || (ch =? LF))%char then
        parse_new_line ;;;
        parse_multiline_literal_string_loop fuel (push_back string LF)
      else
        ch <- input_get ;;
        if (ch =? SQUOTE)%char then
          ch2 <- input_peek ;;
          if (ch2 =? SQUOTE)%char then
            input_get ;;;
            ch3 <- input_peek ;;
            if (ch3 =? SQUOTE)%char then
              input_get ;;;
              emit (Handler.string string)
            else
              parse_multiline_literal_string_loop fuel
                (push_back (push_back string SQUOTE) SQUOTE)
          else parse_multiline_literal_string_loop fuel (push_back string SQUOTE)
        else if iscontrol ch && negb (ch =? TAB)%char then
          parser_error "Control characters are not allowed"
        else parse_multiline_literal_string_loop fuel (push_back string ch)
  end.

Fixpoint parse_literal_string_loop (fuel : nat) (string : String.string)
    : M String.string :=
  match fuel with
  | O => out_of_fuel
  | S fuel =>
      ch <- input_get ;;
      if iscontrol ch && negb (ch =? TAB)%char then
        parser_error "Control characters are not allowed"
      else if (ch =? SQUOTE)%char then ret string
      else parse_literal_string_loop fuel (push_back string ch)
  end.

(** The source asserts on entry that [input.peek()] is the single quote. *)
Definition parse_literal_string (fuel : nat) : M unit :=
  input_get ;;;
  ch <- input_peek ;;
  if (ch =? SQUOTE)%char then
    input_get ;;;
    ch <- input_peek ;;
    if (ch =? SQUOTE)%char then
      input_get ;;;
      (* Ignore first new-line after open quotes. *)
      ch <- input_peek ;;
      (if ((ch =? CR) || (ch =? LF))%char then parse_new_line else ret tt) ;;;
      parse_multiline_literal_string_loop fuel ""
    else emit (Handler.string "")
  else
    string <- parse_literal_string_loop fuel "" ;;
    emit (Handler.string string).

Fixpoint parse_key_loop (fuel : nat) (key : string) : M string :=
  match fuel with
  | O => out_of_fuel
  | S fuel =>
      ch <- input_peek ;;
      if is_key_character ch
      then ch <- input_get ;; parse_key_loop fuel (push_back key ch)
      else ret key
  end.

Definition parse_key (fuel : nat) : M string :=
  ch <- input_peek ;;
  if (ch =? DQUOTE)%char then
    input_get ;;;
    key <- parse_basic_string fuel ;;
    if (key =? "")%string then parser_error "Expected a non-empty key"
    else ret key
  else
    (* It must be at least one char. *)
    ch <- input_get ;;
    if negb (is_key_character ch) then parser_error "Expected a non-empty key"
    else parse_key_loop fuel (push_back "" ch).

(** [while (is_word_character(input.peek())) result.push_back(input.get());] *)
Fixpoint parse_word_loop (fuel : nat) (result : string) : M string :=
  match fuel with
  | O => out_of_fuel
  | S fuel =>
      ch <- input_peek ;;
      if is_word_character ch
      then ch <- input_get ;; parse_word_loop fuel (push_back result ch)
      else ret result
  end.

(** A standard-library conversion that either returns or throws. *)
Definition convert {A : Type} (r : std_exception + A) : M A :=
  match r with
  | inl e => throw (std_error e)
  | inr a => ret a
  end.

Definition parse_bool_or_number_or_symbol (fuel : nat) : M toml_type_t.t :=
  ch <- input_get ;;
  if negb (is_word_character ch) then parser_error "Expected a non-empty symbol"
  else
    result <- parse_word_loop fuel (push_back "" ch) ;;
    if (result =? "true")%string then
      emit (Handler.boolean true) ;;;
      ret toml_type_t.boolean
    else if (result =? "false")%string then
      emit (Handler.boolean false) ;;;
      ret toml_type_t.boolean
    else if Regex.regex_match result integer_regex then
      value <- convert (stoll result) ;;
      emit (Handler.integer value) ;;;
      ret toml_type_t.integer
    else if Regex.regex_match result float_regex then
      value <- convert (stod result) ;;
      emit (Handler.floating_point value) ;;;
      ret toml_type_t.floating_point
    else if Regex.regex_match result symbol_regex then
      emit (Handler.symbol result) ;;;
      ret toml_type_t.symbol
    else throw (parser_error_t "Invalid value" 0).

(** [current_item_type != array_type]; [array_type] is not initialised
    before the first element ([None]), when the source does not read it. *)
Definition differs (current_item_type : toml_type_t.t)
    (array_type : option toml_type_t.t) : bool :=
  match array_type with
  | Some t => toml_type_t.neqb current_item_type t
  | None => false
  end.

(** [parse_value], [parse_array] and [parse_inline_table] call each
    other; the loops of the last two are [parse_array_loop] and
    [parse_inline_table_loop]. *)
Fixpoint parse_value (fuel : nat) : M toml_type_t.t :=
  match fuel with
  | O => out_of_fuel
  | S fuel =>
      ch <- input_peek ;;
      if (ch =? "{")%char then
        parse_inline_table fuel ;;;
        ret toml_type_t.table
      else if (ch =? "[")%char then
        parse_array fuel ;;;
        ret toml_type_t.array
      else if (ch =? DQUOTE)%char then
        parse_string fuel ;;;
        ret toml_type_t.string
      else if (ch =? SQUOTE)%char then
        parse_literal_string fuel ;;;
        ret toml_type_t.string
      else parse_bool_or_number_or_symbol fuel
  end

with parse_array (fuel : nat) : M unit :=
  match fuel with
  | O => out_of_fuel
  | S fuel =>
      input_get ;;;
      emit Handler.start_array ;;;
      skip_spaces_and_empty_lines fuel ;;;
      parse_array_loop fuel None 0
  end

with parse_array_loop (fuel : nat) (array_type : option toml_type_t.t)
    (size : Z) : M unit :=
  match fuel with
  | O => out_of_fuel
  | S fuel =>
      ch <- input_peek ;;
      if (ch =? "]")%char then
        input_get ;;;
        emit (Handler.finish_array size)
      else
        item_offset <- input_processed ;;
        current_item_type <- parse_value fuel ;;
        if (0 <? size) && differs current_item_type array_type then
          throw (parser_error_t "All array elements must be of the same type"
                   item_offset)
        else
          let size := size_t (size + 1) in
          let array_type := Some current_item_type in
          skip_spaces_and_empty_lines fuel ;;;
          ch <- input_get ;;
          if (ch =? "]")%char then emit (Handler.finish_array size)
          else if (ch =? ",")%char then
            skip_spaces_and_empty_lines fuel ;;;
            parse_array_loop fuel array_type size
          else parser_error "Expected ',' or ']' after an array element"
  end

with parse_inline_table (fuel : nat) : M unit :=
  match fuel with
  | O => out_of_fuel
  | S fuel =>
      input_get ;;;
      emit Handler.start_inline_table ;;;
      let size := 0 in
      skip_spaces fuel ;;;
      ch <- input_peek ;;
      if (ch =? "}")%char then
        input_get ;;;
        emit (Handler.finish_inline_table size)
      else parse_inline_table_loop fuel size
  end

with parse_inline_table_loop (fuel : nat) (size : Z) : M unit :=
  match fuel with
  | O => out_of_fuel
  | S fuel =>
      key <- parse_key fuel ;;
      emit (Handler.key key) ;;;
      skip_spaces fuel ;;;
      parse_chars (bytes "=") ;;;
      skip_spaces fuel ;;;
      parse_value fuel ;;;
      skip_spaces fuel ;;;
      let size := size_t (size + 1) in
      ch <- input_get ;;
      if (ch =? "}")%char then emit (Handler.finish_inline_table size)
      else if (ch =? ",")%char then
        skip_spaces fuel ;;;
        parse_inline_table_loop fuel size
      else parser_error "Expected ',' or '}' after an inline table element"
  end.

Fixpoint parse_table_header_loop (fuel : nat) (array_item : bool)
    (path : list string) : M (list string) :=
  match fuel with
  | O => out_of_fuel
  | S fuel =>
      skip_spaces fuel ;;;
      key <- parse_key fuel ;;
      let path := path ++ [key] in
      skip_spaces fuel ;;;
      ch <- input_peek ;;
      if (ch =? "]")%char then
        input_get ;;;
        (if array_item then parse_chars (bytes "]") ;;; ret tt else ret tt) ;;;
        ret path
      else
        parse_chars (bytes ".") ;;;
        parse_table_header_loop fuel array_item path
  end.

(** The source asserts [input.peek() == '['] on entry. *)
Definition parse_table_header (fuel : nat) : M unit :=
  input_get ;;;
  ch <- input_peek ;;
  array_item <- (if (ch =? "[")%char then input_get ;;; ret true else ret false) ;;
  path <- parse_table_header_loop fuel array_item [] ;;
  if array_item then emit (Handler.array_table path)
  else emit (Handler.table path).

Definition parse_kv_pair (fuel : nat) : M unit :=
  key <- parse_key fuel ;;
  emit (Handler.key key) ;;;
  skip_spaces fuel ;;;
  parse_chars (bytes "=") ;;;
  skip_spaces fuel ;;;
  parse_value fuel ;;;
  ret tt.

(** [if (!input.eof() && input.peek() == '#') parse_comment();] *)
Definition parse_trailing_comment (fuel : nat) : M unit :=
  at_end <- input_eof ;;
  if at_end then ret tt
  else
    ch <- input_peek ;;
    if (ch =? "#")%char then parse_comment fuel else ret tt.

Definition parse_expression (fuel : nat) : M unit :=
  skip_spaces fuel ;;;
  at_end <- input_eof ;;
  if at_end then ret tt
  else
    ch <- input_peek ;;
    if ((ch =? CR) || (ch =? LF))%char then ret tt
    else if (ch =? "#")%char then parse_comment fuel
    else if (ch =? "[")%char then
      parse_table_header fuel ;;;
      skip_spaces fuel ;;;
      parse_trailing_comment fuel
    else
      parse_kv_pair fuel ;;;
      skip_spaces fuel ;;;
      parse_trailing_comment fuel.

Fixpoint parse_loop (fuel : nat) : M unit :=
  match fuel with
  | O => out_of_fuel
  | S fuel =>
      at_end <- input_eof ;;
      if at_end then ret tt
      else
        parse_new_line ;;;
        parse_expression fuel ;;;
        parse_loop fuel
  end.

Definition parse (fuel : nat) : M unit :=
  emit Handler.start_document ;;;
  parse_expression fuel ;;;
  parse_loop fuel ;;;
  emit Handler.finish_document.

(** [loltoml::parse(input, handler)] on a stream holding [text] and a
    handler that has seen no call. *)
Definition parser_of (text : list ascii) : parser_t :=
  {| input := input_stream_t.make text 0; handler := [] |}.

Definition loltoml_parse (fuel : nat) (text : list ascii) : outcome unit :=
  parse fuel (parser_of text).

(** A parser whose stream has consumed [offset] bytes, has [text] left
    to read, and whose handler has seen [events]. *)
Definition parser_at (text : list ascii) (offset : Z) (events : list event)
    : parser_t :=
  {| input := input_stream_t.make text offset; handler := events |}.

Definition unread (p : parser_t) : list ascii :=
  input_stream_t.backend (input p).

Definition consumed (p : parser_t) : Z :=
  input_stream_t.processed (input p).

Definition remaining (p : parser_t) : nat := List.length (unread p).

(** ** The shape of the event sequence *)

(** The events of one value, with the type tag [parse_value] returns for
    it.  An array is [start_array], its items and [finish_array n], where
    the items are comments and [n] values that all carry one tag; an
    inline table is [start_inline_table], [n] pairs of a key and a value
    and [finish_inline_table n]. *)
Inductive value_trace : toml_type_t.t -> list event -> Prop :=
| vt_string value :
    value_trace toml_type_t.string [Handler.string value]
| vt_integer value :
    value_trace toml_type_t.integer [Handler.integer value]
| vt_floating_point value :
    value_trace toml_type_t.floating_point [Handler.floating_point value]
| vt_boolean value :
    value_trace toml_type_t.boolean [Handler.boolean value]
| vt_symbol name :
    value_trace toml_type_t.symbol [Handler.symbol name]
| vt_array array_type n items :
    array_items array_type n items ->
    value_trace toml_type_t.array
      (Handler.start_array :: items ++ [Handler.finish_array (Z.of_nat n)])
| vt_table n items :
    table_items n items ->
    value_trace toml_type_t.table
      (Handler.start_inline_table :: items ++
         [Handler.finish_inline_table (Z.of_nat n)])

with array_items : option toml_type_t.t -> nat -> list event -> Prop :=
| ai_nil : array_items None 0 []
| ai_comment array_type n items text :
    array_items array_type n items ->
    array_items array_type n (items ++ [Handler.comment text])
| ai_first t items v :
    array_items None 0 items ->
    value_trace t v ->
    array_items (Some t) 1 (items ++ v)
| ai_next t n items v :
    array_items (Some t) n items ->
    value_trace t v ->
    array_items (Some t) (S n) (items ++ v)

with table_items : nat -> list event -> Prop :=
| ti_nil : table_items 0 []
| ti_pair n items name t v :
    table_items n items ->
    value_trace t v ->
    table_items (S n) (items ++ Handler.key name :: v).

Scheme value_trace_mut := Minimality for value_trace Sort Prop
  with array_items_mut := Minimality for array_items Sort Prop
  with table_items_mut := Minimality for table_items Sort Prop.

Combined Scheme value_trace_mutind
  from value_trace_mut, array_items_mut, table_items_mut.

(** The events between [start_document] and [finish_document]: comments,
    table headers, and keys each followed by the events of one value. *)
Inductive document_body : list event -> Prop :=
| db_nil : document_body []
| db_comment body text :
    document_body body -> document_body (body ++ [Handler.comment text])
| db_table body path :
    document_body body -> document_body (body ++ [Handler.table path])
| db_array_table body path :
    document_body body -> document_body (body ++ [Handler.array_table path])
| db_pair body name t v :
    document_body body ->
    value_trace t v ->
    document_body (body ++ Handler.key name :: v).

Definition is_document_event (e : event) : bool :=
  match e with
  | Handler.start_document | Handler.finish_document => true
  | _ => false
  end.

(** ** Nesting, checked with a stack

    An executable reading of "properly nested, with the right counts": a
    stack of the arrays and inline tables that are open, each with the
    number of elements or pairs seen directly inside it. *)
Inductive frame : Set :=
| in_array (count : nat)
| in_table (count : nat).

(** A complete value directly inside an array is one more element. *)
Definition count_value (stack : list frame) : list frame :=
  match stack with
  | in_array n :: rest => in_array (S n) :: rest
  | _ => stack
  end.

Fixpoint nesting (stack : list frame) (evs : list event) : option (list frame) :=
  match evs with
  | [] => Some stack
  | e :: evs' =>
      match e with
      | Handler.start_array => nesting (in_array 0 :: stack) evs'
      | Handler.finish_array size =>
          match stack with
          | in_array n :: rest =>
              if size =? Z.of_nat n then nesting (count_value rest) evs' else None
          | _ => None
          end
      | Handler.start_inline_table => nesting (in_table 0 :: stack) evs'
      | Handler.finish_inline_table size =>
          match stack with
          | in_table n :: rest =>
              if size =? Z.of_nat n then nesting (count_value rest) evs' else None
          | _ => None
          end
      | Handler.key _ =>
          match stack with
          | in_table n :: rest => nesting (in_table (S n) :: rest) evs'
          | [] => nesting [] evs'
          | in_array _ :: _ => None
          end
      | Handler.string _ | Handler.integer _ | Handler.floating_point _
      | Handler.boolean _ | Handler.symbol _ =>
          nesting (count_value stack) evs'
      | Handler.comment _ => nesting stack evs'
      | Handler.table _ | Handler.array_table _ =>
          match stack with
          | [] => nesting [] evs'
          | _ :: _ => None
          end
      | Handler.start_document | Handler.finish_document => None
      end
  end.

(** ** Vocabulary of the proofs *)

(** A function is quiet when it makes no call on the handler and never
    gives bytes back to the stream; it advances when it consumes at
    least one byte. *)
Definition quiet {A : Type} (m : M A) : Prop :=
  forall p a p', m p = Done a p' ->
    handler p' = handler p /\ (remaining p' <= remaining p)%nat.

Definition advances {A : Type} (m : M A) : Prop :=
  forall p a p', m p = Done a p' ->
    handler p' = handler p /\ (remaining p' < remaining p)%nat.

(** What the five functions of the [parse_value] family do, with fuel
    [fuel], to the handler and to the unread input: the statements proved
    together by induction on the fuel. *)
Definition value_ok (fuel : nat) : Prop :=
  forall p t p',
    parse_value fuel p = Done t p' ->
    Z.of_nat (remaining p) < 2 ^ 64 ->
    (remaining p' < remaining p)%nat /\
    exists evs, handler p' = handler p ++ evs /\ value_trace t evs.

Definition array_ok (fuel : nat) : Prop :=
  forall p a p',
    parse_array fuel p = Done a p' ->
    Z.of_nat (remaining p) < 2 ^ 64 ->
    (remaining p' < remaining p)%nat /\
    exists array_type n items,
      handler p' =
        handler p ++ Handler.start_array :: items ++ [Handler.finish_array (Z.of_nat n)] /\
      array_items array_type n items.

Definition array_loop_ok (fuel : nat) : Prop :=
  forall array_type n items p a p',
    parse_array_loop fuel array_type (Z.of_nat n) p = Done a p' ->
    Z.of_nat n + Z.of_nat (remaining p) < 2 ^ 64 ->
    array_items array_type n items ->
    (remaining p' <= remaining p)%nat /\
    exists evs array_type' n',
      handler p' = handler p ++ evs ++ [Handler.finish_array (Z.of_nat n')] /\
      array_items array_type' n' (items ++ evs).

Definition inline_table_ok (fuel : nat) : Prop :=
  forall p a p',
    parse_inline_table fuel p = Done a p' ->
    Z.of_nat (remaining p) < 2 ^ 64 ->
    (remaining p' < remaining p)%nat /\
    exists n items,
      handler p' =
        handler p ++ Handler.start_inline_table :: items ++
          [Handler.finish_inline_table (Z.of_nat n)] /\
      table_items n items.

Definition inline_table_loop_ok (fuel : nat) : Prop :=
  forall n items p a p',
    parse_inline_table_loop fuel (Z.of_nat n) p = Done a p' ->
    Z.of_nat n + Z.of_nat (remaining p) < 2 ^ 64 ->
    table_items n items ->
    (remaining p' <= remaining p)%nat /\
    exists evs n',
      handler p' = handler p ++ evs ++ [Handler.finish_inline_table (Z.of_nat n')] /\
      table_items n' (items ++ evs).

(** The stream offset after [n] more bytes have been consumed. *)
Definition advance (offset : Z) (n : nat) : Z :=
  Nat.iter n (fun o => size_t (o + 1)) offset.

(** The value of a hexadecimal digit, as [parse_hex_digit] reads it. *)
Definition hex_value (ch : ascii) : option Z :=
  if between "0" "9" ch then Some (uchar ch - uchar "0")
  else if between "A" "F" ch then Some (uchar ch - uchar "A" + 10)
  else if between "a" "f" ch then Some (uchar ch - uchar "a" + 10)
  else None.

(** The code point a run of hexadecimal digit values stands for. *)
Definition codepoint_of (values : list Z) : Z :=
  fold_left (fun acc value => 16 * acc + value) values 0.

(** The reference the encoder is compared with: the code point a UTF-8
    sequence of one to four bytes decodes to (Unicode Standard, table 3-6),
    a lead byte followed by continuation bytes [10xxxxxx]. *)
Definition utf8_continuation (b : Z) : option Z :=
  if (0x80 <=? b) && (b <=? 0xBF) then Some (b - 0x80) else None.

Definition utf8_decode_reference (l : list Z) : option Z :=
  match l with
  | [b0] => if (0 <=? b0) && (b0 <=? 0x7F) then Some b0 else None
  | [b0; b1] =>
      if (0xC0 <=? b0) && (b0 <=? 0xDF) then
        match utf8_continuation b1 with
        | Some c1 => Some ((b0 - 0xC0) * 64 + c1)
        | None => None
        end
      else None
  | [b0; b1; b2] =>
      if (0xE0 <=? b0) && (b0 <=? 0xEF) then
        match utf8_continuation b1, utf8_continuation b2 with
        | Some c1, Some c2 => Some ((b0 - 0xE0) * 4096 + c1 * 64 + c2)
        | _, _ => None
        end
      else None
  | [b0; b1; b2; b3] =>
      if (0xF0 <=? b0) && (b0 <=? 0xF7) then
        match utf8_continuation b1, utf8_continuation b2, utf8_continuation b3 with
        | Some c1, Some c2, Some c3 =>
            Some ((b0 - 0xF0) * 262144 + c1 * 4096 + c2 * 64 + c3)
        | _, _, _ => None
        end
      else None
  | _ => None
  end.

(** What either loop does with the outcome of [process_codepoint]. *)
Definition after_escape (loop : string -> M string) (codepoint offset : Z)
    (result : string) (p' : parser_t) : outcome string :=
  if (0xD800 <=? codepoint) && (codepoint <=? 0xDFFF) then
    Throw (parser_error_t "Surrogate pairs are not allowed" offset) p'
  else if 0x10FFFF <? codepoint then
    Throw (parser_error_t "Codepoint must be less or equal than 0x10FFFF" offset) p'
  else loop (result ++ string_of_list_ascii (utf8_bytes codepoint))%string p'.

(** More fuel never changes an outcome that was reached ([refines]), and
    [runs] says that a call did not stop for want of fuel. *)
Definition refines {A : Type} (m m' : M A) : Prop :=
  forall p, m p = OutOfFuel \/ m p = m' p.

Definition runs {A : Type} (m : M A) (p : parser_t) : Prop :=
  m p <> OutOfFuel.

(** ** Positions and names

    An event is well named when the name the parser delivers in it has
    passed the parser's check: a key is not empty, a table path has at
    least one segment and none of its segments is empty. *)
Definition well_named (e : event) : Prop :=
  match e with
  | Handler.key name => name <> ""
  | Handler.table path | Handler.array_table path =>
      path <> [] /\ Forall (fun name => name <> "") path
  | _ => True
  end.

(** A parser at work on an input of [total] bytes: the bytes consumed and
    the bytes unread add up to [total], and the handler has seen well
    named events only. *)
Definition in_step (total : Z) (p : parser_t) : Prop :=
  0 <= consumed p /\
  consumed p + Z.of_nat (remaining p) = total /\
  Forall well_named (handler p).

(** What a member function keeps of it: when it returns the parser is
    still in step and [post] holds of the value returned; when it throws,
    the events delivered are well named and the offset of a
    [parser_error_t] lies within the input. *)
Definition within (total : Z) {A : Type} (m : M A) (post : A -> Prop) : Prop :=
  forall p, in_step total p ->
    match m p with
    | Done a p' => in_step total p' /\ post a
    | Throw e p' =>
        Forall well_named (handler p') /\
        match e with
        | parser_error_t _ offset => 0 <= offset <= total
        | std_error _ => True
        end
    | OutOfFuel => True
    end.

(** ** Documents written line by line

    The documents of the round trip: comments, table headers with a
    dotted path of bare keys, pairs of a bare key and a string value
    written with [escape_string] between double quotes, and pairs of a
    bare key and a name, each line ended by a line feed. *)
Definition bare_key (name : string) : bool :=
  negb (name =? "")%string && forallb is_key_character (bytes name).

Fixpoint dotted (path : list string) : list ascii :=
  match path with
  | [] => []
  | name :: rest =>
      match rest with
      | [] => bytes name
      | _ :: _ => bytes name ++ "."%char :: dotted rest
      end
  end.

(** The brackets of a table header: one on each side, or two for an array
    of tables. *)
Definition opening (array_item : bool) : list ascii :=
  if array_item then bytes "[[" else bytes "[".

Definition closing (array_item : bool) : list ascii :=
  if array_item then bytes "]]" else bytes "]".

(** The characters of a name without digits, the letters and the
    underscore, and the names made of them that are no booleans. *)
Definition letter (ch : ascii) : bool :=
  between "a" "z" ch || between "A" "Z" ch || (ch =? "_")%char.

Definition plain_name (name : string) : bool :=
  negb (name =? "")%string && forallb letter (bytes name) &&
  negb (name =? "true")%string && negb (name =? "false")%string.

Inductive line : Type :=
| comment_line (text : string)
| table_line (path : list string)
| array_table_line (path : list string)
| pair_line (key value : string)
| symbol_line (key name : string).

Definition print_line (l : line) : list ascii :=
  match l with
  | comment_line text => "#"%char :: bytes text
  | table_line path => opening false ++ dotted path ++ closing false
  | array_table_line path => opening true ++ dotted path ++ closing true
  | pair_line key value =>
      bytes key ++ bytes " = " ++
        DQUOTE :: bytes (escape_string value) ++ [DQUOTE]
  | symbol_line key name => bytes key ++ bytes " = " ++ bytes name
  end.

(** What a line must be made of: a comment holds no control character
    but the tab, a path has a segment, keys and segments are bare, and a
    name is made of letters and underscores and is no boolean. *)
Definition printable (l : line) : bool :=
  match l with
  | comment_line text =>
      forallb (fun ch => (ch =? TAB)%char || negb (iscontrol ch)) (bytes text)
  | table_line path | array_table_line path =>
      match path with [] => false | _ :: _ => forallb bare_key path end
  | pair_line key _ => bare_key key
  | symbol_line key name => bare_key key && plain_name name
  end.

Definition line_events (l : line) : list event :=
  match l with
  | comment_line text => [Handler.comment text]
  | table_line path => [Handler.table path]
  | array_table_line path => [Handler.array_table path]
  | pair_line key value => [Handler.key key; Handler.string value]
  | symbol_line key name => [Handler.key key; Handler.symbol name]
  end.

Definition print_document (lines : list line) : list ascii :=
  flat_map (fun l => print_line l ++ [LF]) lines.

(** The characters a literal string holds as they are: everything but the
    single quote and the control characters other than the tab. *)
Definition literal_character (ch : ascii) : bool :=
  negb (ch =? SQUOTE)%char && negb (iscontrol ch && negb (ch =? TAB)%char).

(** The characters a multiline literal string holds as they are, the line
    feed among them. *)
Definition multiline_literal_character (ch : ascii) : bool :=
  negb (ch =? SQUOTE)%char &&
  ((ch =? TAB)%char || (ch =? LF)%char || negb (iscontrol ch)).

(** ** The values of the examples

    [TOMLValue] of [examples/toml_value.h]: the type tag together with the
    member of the union it selects.  How a stream formats a 64-bit integer
    and a [double] is left to the C++ library: two parameters. *)
Variable print_integer : Z -> string.
Variable print_double : double -> string.

Inductive TOMLValue : Type :=
| TOMLValue_empty
| TOMLValue_boolean (as_bool : bool)
| TOMLValue_string (as_string : string)
| TOMLValue_integer (as_integer : Z)
| TOMLValue_floating_point (as_floating_point : double).

(** [operator<<] for a [TOMLValue], as the text it appends to the stream;
    [boolalpha] is the flag of the stream, which [main] sets before it
    prints. *)
Definition print_TOMLValue (boolalpha : bool) (value : TOMLValue) : string :=
  match value with
  | TOMLValue_empty => "void"
  | TOMLValue_boolean as_bool =>
      if boolalpha then (if as_bool then "true" else "false")
      else (if as_bool then "1" else "0")
  | TOMLValue_string as_string =>
      String DQUOTE (escape_string as_string ++ String DQUOTE "")
  | TOMLValue_integer as_integer => print_integer as_integer
  | TOMLValue_floating_point as_floating_point => print_double as_floating_point
  end.

(** [operator<<] for a [std::map] from strings to [TOMLValue]s, given as
    the list of its entries in the order of iteration; [print_map_step] is
    the body of its loop, on the text of the stream and the variable
    [first]. *)
Definition print_map_step (boolalpha : bool) (state : string * bool)
    (i : string * TOMLValue) : string * bool :=
  let (stream, first) := state in
  let x := fst i in
  let y := snd i in
  let stream := if negb first then (stream ++ ", ")%string else stream in
  ((stream ++ x ++ " = " ++ print_TOMLValue boolalpha y)%string, false).

Definition print_map (boolalpha : bool) (map : list (string * TOMLValue))
    : string :=
  (fst (fold_left (print_map_step boolalpha) map ("{ ", true)) ++ " }")%string.

(** What the loop of [print_map] appends for the entries, and the entries
    the parser reads back as they were: a bare key with a boolean or a
    string. *)
Definition entry_text (i : string * TOMLValue) : string :=
  (fst i ++ " = " ++ print_TOMLValue true (snd i))%string.

Fixpoint entries_text (first : bool) (map : list (string * TOMLValue))
    : string :=
  match map with
  | [] => ""
  | i :: rest =>
      ((if first then "" else ", ") ++ entry_text i ++ entries_text false rest)%string
  end.

Definition value_events (value : TOMLValue) : list event :=
  match value with
  | TOMLValue_boolean as_bool => [Handler.boolean as_bool]
  | TOMLValue_string as_string => [Handler.string as_string]
  | _ => []
  end.

Definition entry_events (i : string * TOMLValue) : list event :=
  Handler.key (fst i) :: value_events (snd i).

Definition read_back (i : string * TOMLValue) : bool :=
  bare_key (fst i) &&
  match snd i with
  | TOMLValue_boolean _ | TOMLValue_string _ => true
  | _ => false
  end.

(** ** The handler of the examples

    [TOMLHandler] of the configuration reader ([ConfigHandler] of
    [examples/dnt_parser.cpp] has the same members).  Its [configs_] is a
    [std::map] from strings to [TOMLValue]s, here an association list
    with one entry for a key, read with [find], written through
    [operator[]] and extended with [emplace], which leaves a key that is
    present as it is.  The list's order is not the order of the map. *)
Inductive handler_exception : Type :=
| UnsupportedTOMLExpressionError (what : string)
| runtime_error (what : string).

Fixpoint map_find {V : Type} (key : string) (map : list (string * V))
    : option V :=
  match map with
  | [] => None
  | (k, v) :: rest => if (k =? key)%string then Some v else map_find key rest
  end.

Fixpoint map_assign {V : Type} (key : string) (value : V)
    (map : list (string * V)) : list (string * V) :=
  match map with
  | [] => [(key, value)]
  | (k, v) :: rest =>
      if (k =? key)%string then (k, value) :: rest
      else (k, v) :: map_assign key value rest
  end.

Definition map_emplace {V : Type} (key : string) (value : V)
    (map : list (string * V)) : list (string * V) :=
  match map_find key map with
  | Some _ => map
  | None => map ++ [(key, value)]
  end.

Record TOMLHandler : Type :=
  { configs_ : list (string * TOMLValue); curr_key_ : string }.

(** The member function of the handler that an event stands for, called
    on the handler [h]. *)
Definition TOMLHandler_call (h : TOMLHandler) (e : event)
    : handler_exception + TOMLHandler :=
  let assign value :=
    inr {| configs_ := map_assign (curr_key_ h) value (configs_ h);
           curr_key_ := curr_key_ h |} in
  match e with
  | Handler.start_document | Handler.finish_document | Handler.comment _ =>
      inr h
  | Handler.array_table _ => inl (UnsupportedTOMLExpressionError "array table")
  | Handler.table _ => inl (UnsupportedTOMLExpressionError "table")
  | Handler.start_array | Handler.finish_array _ =>
      inl (UnsupportedTOMLExpressionError "array")
  | Handler.start_inline_table | Handler.finish_inline_table _ =>
      inl (UnsupportedTOMLExpressionError "inline table")
  | Handler.key key => inr {| configs_ := configs_ h; curr_key_ := key |}
  | Handler.boolean value => assign (TOMLValue_boolean value)
  | Handler.string value => assign (TOMLValue_string value)
  | Handler.integer value => assign (TOMLValue_integer value)
  | Handler.floating_point value => assign (TOMLValue_floating_point value)
  | Handler.symbol value =>
      match map_find value (configs_ h) with
      | None =>
          inl (runtime_error
                 ("Identifier " ++
                    String DQUOTE
                      (value ++
                         String DQUOTE " on right hand side of =, but undefined.")))
      | Some found =>
          inr {| configs_ := map_emplace (curr_key_ h) found (configs_ h);
                 curr_key_ := curr_key_ h |}
      end
  end.

(** The calls of a run of the parser, in order, up to the first that
    throws. *)
Fixpoint TOMLHandler_calls (h : TOMLHandler) (events : list event)
    : handler_exception + TOMLHandler :=
  match events with
  | [] => inr h
  | e :: rest =>
      match TOMLHandler_call h e with
      | inl thrown => inl thrown
      | inr h' => TOMLHandler_calls h' rest
      end
  end.

(** [parseConfig]: [loltoml::parse] with a fresh [TOMLHandler], then its
    [configs_].  The parser makes its calls on the handler in order, reads
    nothing of the handler and catches nothing: the first exception of
    the handler, if there is one, ends the parse and leaves
    [parseConfig]; otherwise the outcome of the parser stands. *)
Inductive parseConfig_outcome : Type :=
| parseConfig_returns (configs : list (string * TOMLValue))
| parseConfig_handler_throws (e : handler_exception)
| parseConfig_parser_throws (e : exception)
| parseConfig_out_of_fuel.

Definition parseConfig (fuel : nat) (text : list ascii) : parseConfig_outcome :=
  let fresh := {| configs_ := []; curr_key_ := "" |} in
  match loltoml_parse fuel text with
  | Done _ p' =>
      match TOMLHandler_calls fresh (handler p') with
      | inl thrown => parseConfig_handler_throws thrown
      | inr h => parseConfig_returns (configs_ h)
      end
  | Throw e p' =>
      match TOMLHandler_calls fresh (handler p') with
      | inl thrown => parseConfig_handler_throws thrown
      | inr _ => parseConfig_parser_throws e
      end
  | OutOfFuel => parseConfig_out_of_fuel
  end.

(** The number a run of decimal digits stands for. *)
Definition decimal_value (digits : list ascii) : Z :=
  fold_left (fun acc digit => 10 * acc + (uchar digit - uchar "0")) digits 0.

(** ** The offset of the last consumed byte *)

(** C10: for a cursor that has consumed [n] bytes ([n] a [std::size_t]),
    [last_char_offset] returns [n - 1] when [n > 0] and [0] when [n = 0],
    the difference is never taken below zero (the result is the
    mathematical one, within [std::size_t]), and an error raised through
    it carries that offset. *)
Theorem last_char_offset_no_underflow (p : parser_t) (message : string) :
  0 <= consumed p < 2 ^ 64 ->
  let offset := if consumed p =? 0 then 0 else consumed p - 1 in
  last_char_offset p = Done offset p /\
  @parser_error unit message p = Throw (parser_error_t message offset) p /\
  (consumed p = 0 -> offset = 0) /\
  (0 < consumed p -> offset = consumed p - 1) /\
  0 <= offset < 2 ^ 64.
Proof.
  intros Hrange offset.
  assert (Hoff : last_char_offset p = Done offset p).
  { unfold last_char_offset, bind, input_processed, ret, offset, consumed.
    destruct (input_stream_t.processed (input p) =? 0) eqn:E; [reflexivity|].
    apply Z.eqb_neq in E. unfold consumed in Hrange.
    unfold size_t. rewrite Z.mod_small by lia. reflexivity. }
  split; [exact Hoff|].
  split.
  { unfold parser_error, bind. rewrite Hoff. reflexivity. }
  unfold offset.
  destruct (consumed p =? 0) eqn:E.
  - apply Z.eqb_eq in E. repeat split; lia.
  - apply Z.eqb_neq in E. repeat split; lia.
Qed.

(** ** The empty document *)

(** C9: parsing the empty input succeeds and delivers exactly
    [start_document] and [finish_document], consuming nothing. *)
Theorem parse_empty_input (fuel : nat) :
  loltoml_parse (S fuel) [] =
  Done tt (parser_at [] 0 [Handler.start_document; Handler.finish_document]).
Proof. reflexivity. Qed.

(** ** Reasoning about member functions *)

Lemma bind_Done {A B : Type} (m : M A) (k : A -> M B) p b p' :
  bind m k p = Done b p' ->
  exists a p1, m p = Done a p1 /\ k a p1 = Done b p'.
Proof.
  unfold bind. destruct (m p) as [a p1| |]; try discriminate.
  intros H. exists a, p1. split; [reflexivity|exact H].
Qed.

Lemma bind_eq {A B : Type} (m : M A) (k : A -> M B) p a p1 :
  m p = Done a p1 -> bind m k p = k a p1.
Proof. unfold bind. intros ->. reflexivity. Qed.

Lemma advances_quiet {A : Type} (m : M A) : advances m -> quiet m.
Proof. intros H p a p' E. destruct (H p a p' E). split; [assumption|lia]. Qed.

Lemma quiet_ret {A : Type} (a : A) : quiet (ret a).
Proof. intros p b p' E. inversion E; subst. split; [reflexivity|lia]. Qed.

Lemma quiet_throw {A : Type} e : quiet (@throw A e).
Proof. intros p b p' E. discriminate. Qed.

Lemma quiet_out_of_fuel {A : Type} : quiet (@out_of_fuel A).
Proof. intros p b p' E. discriminate. Qed.

Lemma quiet_bind {A B : Type} (m : M A) (k : A -> M B) :
  quiet m -> (forall a, quiet (k a)) -> quiet (bind m k).
Proof.
  intros Hm Hk p b p' E. apply bind_Done in E. destruct E as (a & p1 & E1 & E2).
  destruct (Hm _ _ _ E1) as [H1 L1]. destruct (Hk a _ _ _ E2) as [H2 L2].
  split; [congruence|lia].
Qed.

Lemma advances_bind {A B : Type} (m : M A) (k : A -> M B) :
  advances m -> (forall a, quiet (k a)) -> advances (bind m k).
Proof.
  intros Hm Hk p b p' E. apply bind_Done in E. destruct E as (a & p1 & E1 & E2).
  destruct (Hm _ _ _ E1) as [H1 L1]. destruct (Hk a _ _ _ E2) as [H2 L2].
  split; [congruence|lia].
Qed.

Lemma quiet_input_eof : quiet input_eof.
Proof. intros p b p' E. inversion E; subst. split; [reflexivity|lia]. Qed.

Lemma quiet_input_peek : quiet input_peek.
Proof. intros p b p' E. inversion E; subst. split; [reflexivity|lia]. Qed.

Lemma quiet_input_processed : quiet input_processed.
Proof. intros p b p' E. inversion E; subst. split; [reflexivity|lia]. Qed.

Lemma advances_input_get : advances input_get.
Proof.
  intros p b p' E. unfold input_get, input_stream_t.get in E.
  destruct p as [[text n] evs]. simpl in E.
  destruct text as [|ch rest]; inversion E; subst.
  unfold remaining, unread. simpl. split; [reflexivity|lia].
Qed.

Lemma quiet_input_get : quiet input_get.
Proof. apply advances_quiet, advances_input_get. Qed.

Lemma quiet_convert {A : Type} (r : std_exception + A) : quiet (convert r).
Proof. destruct r; [apply quiet_throw|apply quiet_ret]. Qed.

Create HintDb quiet.
Hint Resolve quiet_input_eof quiet_input_peek quiet_input_processed
  quiet_input_get @quiet_ret @quiet_throw @quiet_out_of_fuel @quiet_convert
  : quiet.

(** Decomposes a goal [quiet m] along the binds and branches of [m]. *)
Ltac quiet_step :=
  match goal with
  | |- quiet (bind _ _) => apply quiet_bind; [|intros ?]
  | |- quiet (if ?c then _ else _) => destruct c
  | |- quiet (match ?c with _ => _ end) => destruct c
  | |- quiet _ => solve [auto with quiet]
  end.

Ltac quiet_tac := repeat quiet_step.

Lemma quiet_last_char_offset : quiet last_char_offset.
Proof. unfold last_char_offset. quiet_tac. Qed.
Hint Resolve quiet_last_char_offset : quiet.

Lemma quiet_parser_error {A : Type} message : quiet (@parser_error A message).
Proof. unfold parser_error. quiet_tac. Qed.
Hint Resolve @quiet_parser_error : quiet.

Lemma advances_parse_chars expected : advances (parse_chars expected).
Proof.
  unfold parse_chars. apply advances_bind; [apply advances_input_get|].
  intros ?. quiet_tac.
Qed.

Lemma quiet_parse_chars expected : quiet (parse_chars expected).
Proof. apply advances_quiet, advances_parse_chars. Qed.
Hint Resolve quiet_parse_chars : quiet.

Lemma quiet_skip_spaces fuel : quiet (skip_spaces fuel).
Proof. induction fuel; simpl; quiet_tac. Qed.
Hint Resolve quiet_skip_spaces : quiet.

Lemma quiet_parse_comment_loop fuel comment :
  quiet (parse_comment_loop fuel comment).
Proof. revert comment. induction fuel; intros; simpl; quiet_tac. Qed.
Hint Resolve quiet_parse_comment_loop : quiet.

Lemma advances_parse_new_line : advances parse_new_line.
Proof.
  unfold parse_new_line. apply advances_bind; [apply advances_input_get|].
  intros ?. quiet_tac.
Qed.

Lemma quiet_parse_new_line : quiet parse_new_line.
Proof. apply advances_quiet, advances_parse_new_line. Qed.
Hint Resolve quiet_parse_new_line : quiet.

Lemma quiet_parse_hex_digit : quiet parse_hex_digit.
Proof. unfold parse_hex_digit. quiet_tac. Qed.
Hint Resolve quiet_parse_hex_digit : quiet.

Lemma quiet_next_hex_digit codepoint : quiet (next_hex_digit codepoint).
Proof. unfold next_hex_digit. quiet_tac. Qed.
Hint Resolve quiet_next_hex_digit : quiet.

Lemma quiet_parse_4_digit_codepoint : quiet parse_4_digit_codepoint.
Proof. unfold parse_4_digit_codepoint. quiet_tac. Qed.

Lemma quiet_parse_8_digit_codepoint : quiet parse_8_digit_codepoint.
Proof. unfold parse_8_digit_codepoint. quiet_tac. Qed.
Hint Resolve quiet_parse_4_digit_codepoint quiet_parse_8_digit_codepoint : quiet.

Lemma quiet_process_codepoint codepoint offset output :
  quiet (process_codepoint codepoint offset output).
Proof. unfold process_codepoint. quiet_tac. Qed.
Hint Resolve quiet_process_codepoint : quiet.

Lemma quiet_parse_escape_sequence offset result :
  quiet (parse_escape_sequence offset result).
Proof. unfold parse_escape_sequence. quiet_tac. Qed.
Hint Resolve quiet_parse_escape_sequence : quiet.

Lemma quiet_parse_basic_string_loop fuel result :
  quiet (parse_basic_string_loop fuel result).
Proof. revert result. induction fuel; intros; simpl; quiet_tac. Qed.
Hint Resolve quiet_parse_basic_string_loop : quiet.

Lemma quiet_parse_basic_string fuel : quiet (parse_basic_string fuel).
Proof. unfold parse_basic_string. quiet_tac. Qed.
Hint Resolve quiet_parse_basic_string : quiet.

Lemma quiet_skip_isspace_loop fuel : quiet (skip_isspace_loop fuel).
Proof. induction fuel; simpl; quiet_tac. Qed.
Hint Resolve quiet_skip_isspace_loop : quiet.

Lemma quiet_parse_multiline_string_loop fuel result :
  quiet (parse_multiline_string_loop fuel result).
Proof. revert result. induction fuel; intros; simpl; quiet_tac. Qed.
Hint Resolve quiet_parse_multiline_string_loop : quiet.

Lemma quiet_parse_multiline_string fuel : quiet (parse_multiline_string fuel).
Proof. unfold parse_multiline_string. quiet_tac. Qed.
Hint Resolve quiet_parse_multiline_string : quiet.

Lemma quiet_parse_literal_string_loop fuel string :
  quiet (parse_literal_string_loop fuel string).
Proof. revert string. induction fuel; intros; simpl; quiet_tac. Qed.
Hint Resolve quiet_parse_literal_string_loop : quiet.

Lemma quiet_parse_key_loop fuel key : quiet (parse_key_loop fuel key).
Proof. revert key. induction fuel; intros; simpl; quiet_tac. Qed.
Hint Resolve quiet_parse_key_loop : quiet.

Lemma quiet_parse_key fuel : quiet (parse_key fuel).
Proof. unfold parse_key. quiet_tac. Qed.
Hint Resolve quiet_parse_key : quiet.

Lemma quiet_parse_word_loop fuel result : quiet (parse_word_loop fuel result).
Proof. revert result. induction fuel; intros; simpl; quiet_tac. Qed.
Hint Resolve quiet_parse_word_loop : quiet.

Lemma quiet_parse_table_header_loop fuel array_item path :
  quiet (parse_table_header_loop fuel array_item path).
Proof. revert path. induction fuel; intros; simpl; quiet_tac. Qed.
Hint Resolve quiet_parse_table_header_loop : quiet.

Lemma emit_Done e p a p' :
  emit e p = Done a p' ->
  handler p' = handler p ++ [e] /\ remaining p' = remaining p.
Proof. intros E. inversion E; subst. split; reflexivity. Qed.

Ltac inv_bind H :=
  let a := fresh "a" in
  let q := fresh "q" in
  let E := fresh "E" in
  apply bind_Done in H; destruct H as (a & q & E & H).

Tactic Notation "bind_in" hyp(H) ident(a) ident(q) ident(E) :=
  apply bind_Done in H; destruct H as (a & q & E & H).

Ltac quiet_in E :=
  match type of E with
  | ?m ?p = Done _ _ =>
      let Q := fresh "Q" in
      assert (Q : quiet m) by (quiet_tac; auto with quiet);
      let Hh := fresh "Hh" in
      let Hl := fresh "Hl" in
      destruct (Q _ _ _ E) as [Hh Hl]; clear Q
  end.

Ltac get_in E :=
  let Hh := fresh "Hh" in
  let Hl := fresh "Hl" in
  destruct (advances_input_get _ _ _ E) as [Hh Hl].

Ltac emit_in E :=
  let Hh := fresh "Hh" in
  let Hl := fresh "Hl" in
  destruct (emit_Done _ _ _ _ E) as [Hh Hl].

Ltac handler_chain :=
  repeat match goal with
         | H : handler _ = _ |- _ => rewrite H; clear H
         end;
  repeat rewrite <- app_assoc; try reflexivity.

Lemma parse_comment_emits fuel p a p' :
  parse_comment fuel p = Done a p' ->
  (remaining p' < remaining p)%nat /\
  exists text, handler p' = handler p ++ [Handler.comment text].
Proof.
  unfold parse_comment. intros H.
  inv_bind H. get_in E. inv_bind H. quiet_in E0. emit_in H.
  split; [lia|]. exists a1. congruence.
Qed.

Lemma skip_spaces_and_empty_lines_emits fuel p a p' :
  skip_spaces_and_empty_lines fuel p = Done a p' ->
  (remaining p' <= remaining p)%nat /\
  exists texts, handler p' = handler p ++ map Handler.comment texts.
Proof.
  revert p a p'. induction fuel; intros p a p' H; simpl in H; [discriminate|].
  inv_bind H. quiet_in E. destruct a0.
  - inversion H; subst. split; [lia|]. exists []. simpl. rewrite app_nil_r. congruence.
  - inv_bind H. quiet_in E0. inv_bind H. quiet_in E1.
    destruct (a1 =? "#")%char.
    + inv_bind H. apply parse_comment_emits in E2. destruct E2 as [L2 [text E2]].
      inv_bind H. quiet_in E3.
      apply IHfuel in H. destruct H as [L [texts H]].
      split; [lia|]. exists (text :: texts). simpl.
      rewrite H, Hh2, E2, Hh1, Hh0, Hh, <- app_assoc. reflexivity.
    + destruct ((a1 =? CR) || (a1 =? LF))%char.
      * inv_bind H. quiet_in E2.
        apply IHfuel in H. destruct H as [L [texts H]].
        split; [lia|]. exists texts. congruence.
      * inversion H; subst. split; [lia|]. exists []. simpl.
        rewrite app_nil_r. congruence.
Qed.

Lemma parser_error_Done {A : Type} message p (a : A) p' :
  parser_error message p = Done a p' -> False.
Proof. unfold parser_error, bind, last_char_offset, input_processed, ret, throw. discriminate. Qed.

Lemma parse_string_emits fuel p a p' :
  parse_string fuel p = Done a p' ->
  (remaining p' < remaining p)%nat /\
  exists value, handler p' = handler p ++ [Handler.string value].
Proof.
  unfold parse_string. intros H.
  inv_bind H. get_in E. inv_bind H. quiet_in E0.
  destruct (a1 =? DQUOTE)%char.
  - inv_bind H. quiet_in E1. inv_bind H. quiet_in E2.
    destruct (a3 =? DQUOTE)%char.
    + inv_bind H. quiet_in E3. inv_bind H. quiet_in E4. emit_in H.
      split; [lia|]. exists a5. congruence.
    + emit_in H. split; [lia|]. exists "". congruence.
  - inv_bind H. quiet_in E1. emit_in H.
    split; [lia|]. exists a2. congruence.
Qed.

Lemma parse_multiline_literal_string_loop_emits fuel string p a p' :
  parse_multiline_literal_string_loop fuel string p = Done a p' ->
  (remaining p' <= remaining p)%nat /\
  exists value, handler p' = handler p ++ [Handler.string value].
Proof.
  revert string p a p'.
  induction fuel; intros string p a p' H; simpl in H; [discriminate|].
  inv_bind H. quiet_in E.
  destruct ((a0 =? CR) || (a0 =? LF))%char.
  - inv_bind H. quiet_in E0. apply IHfuel in H. destruct H as [L [value H]].
    split; [lia|]. exists value. congruence.
  - inv_bind H. quiet_in E0.
    destruct (a1 =? SQUOTE)%char.
    + inv_bind H. quiet_in E1.
      destruct (a2 =? SQUOTE)%char.
      * inv_bind H. quiet_in E2. inv_bind H. quiet_in E3.
        destruct (a4 =? SQUOTE)%char.
        -- inv_bind H. quiet_in E4. emit_in H.
           split; [lia|]. exists string. congruence.
        -- apply IHfuel in H. destruct H as [L [value H]].
           split; [lia|]. exists value. congruence.
      * apply IHfuel in H. destruct H as [L [value H]].
        split; [lia|]. exists value. congruence.
    + destruct (iscontrol a1 && negb (a1 =? TAB)%char).
      * apply parser_error_Done in H. contradiction.
      * apply IHfuel in H. destruct H as [L [value H]].
        split; [lia|]. exists value. congruence.
Qed.

Lemma parse_literal_string_emits fuel p a p' :
  parse_literal_string fuel p = Done a p' ->
  (remaining p' < remaining p)%nat /\
  exists value, handler p' = handler p ++ [Handler.string value].
Proof.
  unfold parse_literal_string. intros H.
  inv_bind H. get_in E. inv_bind H. quiet_in E0.
  destruct (a1 =? SQUOTE)%char.
  - inv_bind H. quiet_in E1. inv_bind H. quiet_in E2.
    destruct (a3 =? SQUOTE)%char.
    + inv_bind H. quiet_in E3. inv_bind H. quiet_in E4. inv_bind H. quiet_in E5.
      apply parse_multiline_literal_string_loop_emits in H.
      destruct H as [L [value H]].
      split; [lia|]. exists value. congruence.
    + emit_in H. split; [lia|]. exists "". congruence.
  - inv_bind H. quiet_in E1. emit_in H.
    split; [lia|]. exists a2. congruence.
Qed.

Lemma parse_bool_or_number_or_symbol_emits fuel p t p' :
  parse_bool_or_number_or_symbol fuel p = Done t p' ->
  (remaining p' < remaining p)%nat /\
  exists e, handler p' = handler p ++ [e] /\ value_trace t [e].
Proof.
  unfold parse_bool_or_number_or_symbol. intros H.
  inv_bind H. get_in E.
  destruct (negb (is_word_character a)).
  { apply parser_error_Done in H. contradiction. }
  inv_bind H. quiet_in E0.
  destruct (a0 =? "true")%string.
  { inv_bind H. emit_in E1. inversion H; subst.
    split; [lia|]. eexists. split; [handler_chain|constructor]. }
  destruct (a0 =? "false")%string.
  { inv_bind H. emit_in E1. inversion H; subst.
    split; [lia|]. eexists. split; [handler_chain|constructor]. }
  destruct (Regex.regex_match a0 integer_regex).
  { inv_bind H. quiet_in E1. inv_bind H. emit_in E2. inversion H; subst.
    split; [lia|]. eexists. split; [handler_chain|constructor]. }
  destruct (Regex.regex_match a0 float_regex).
  { inv_bind H. quiet_in E1. inv_bind H. emit_in E2. inversion H; subst.
    split; [lia|]. eexists. split; [handler_chain|constructor]. }
  destruct (Regex.regex_match a0 symbol_regex).
  { inv_bind H. emit_in E1. inversion H; subst.
    split; [lia|]. eexists. split; [handler_chain|constructor]. }
  discriminate.
Qed.

Lemma array_items_comments array_type n items texts :
  array_items array_type n items ->
  array_items array_type n (items ++ map Handler.comment texts).
Proof.
  revert items. induction texts as [|text texts IH]; intros items H; simpl.
  - rewrite app_nil_r. exact H.
  - change (Handler.comment text :: map Handler.comment texts)
      with ([@Handler.comment double text] ++ map Handler.comment texts).
    rewrite app_assoc. apply IH. constructor. exact H.
Qed.

Lemma array_items_zero array_type n items :
  array_items array_type n items -> n = O -> array_type = None.
Proof. induction 1; intros; auto; discriminate. Qed.

Lemma array_items_none array_type n items :
  array_items array_type n items -> array_type = None -> n = O.
Proof. induction 1; intros; auto; discriminate. Qed.

Lemma neqb_false a b : toml_type_t.neqb a b = false -> a = b.
Proof. unfold toml_type_t.neqb. destruct (toml_type_t.eq_dec a b); [auto|discriminate]. Qed.

Lemma array_items_value array_type n items t v :
  array_items array_type n items ->
  value_trace t v ->
  (0 <? Z.of_nat n) && differs t array_type = false ->
  array_items (Some t) (S n) (items ++ v).
Proof.
  intros Hitems Hv Hcheck.
  destruct n as [|n].
  - rewrite (array_items_zero _ _ _ Hitems eq_refl) in Hitems.
    apply ai_first; assumption.
  - destruct array_type as [t'|].
    + replace (0 <? Z.of_nat (S n)) with true in Hcheck
        by (symmetry; apply Z.ltb_lt; lia).
      simpl in Hcheck. apply neqb_false in Hcheck. subst t'.
      apply ai_next; assumption.
    + discriminate (array_items_none _ _ _ Hitems eq_refl).
Qed.

Lemma size_t_succ n bound :
  Z.of_nat n + bound < 2 ^ 64 -> 0 < bound ->
  size_t (Z.of_nat n + 1) = Z.of_nat (S n).
Proof. intros. unfold size_t. rewrite Z.mod_small by lia. lia. Qed.

Lemma parse_array_loop_step fuel :
  value_ok fuel -> array_loop_ok fuel -> array_loop_ok (S fuel).
Proof.
  intros IHv IHl array_type n items p a p' H Hbound Hitems. simpl in H.
  bind_in H ch q0 Epeek. quiet_in Epeek.
  destruct (ch =? "]")%char.
  - bind_in H ch' q1 Eget. get_in Eget. emit_in H.
    split; [lia|]. exists [], array_type, n. simpl. rewrite app_nil_r.
    split; [handler_chain|assumption].
  - bind_in H item_offset q1 Eoff. quiet_in Eoff.
    bind_in H current_item_type q2 Evalue.
    destruct (IHv _ _ _ Evalue ltac:(lia)) as [Lv [evs [Hv Tv]]].
    destruct ((0 <? Z.of_nat n) && differs current_item_type array_type) eqn:Hcheck;
      [discriminate|].
    pose proof (array_items_value _ _ _ _ _ Hitems Tv Hcheck) as Hitems'.
    rewrite (size_t_succ n (Z.of_nat (remaining p))) in H by lia.
    bind_in H u3 q3 Eskip. apply skip_spaces_and_empty_lines_emits in Eskip.
    destruct Eskip as [L1 [texts1 H1]].
    bind_in H ch4 q4 Eget. get_in Eget.
    destruct (ch4 =? "]")%char.
    + emit_in H. split; [lia|].
      exists (evs ++ map Handler.comment texts1), (Some current_item_type), (S n).
      split; [handler_chain|].
      rewrite app_assoc. apply array_items_comments. assumption.
    + destruct (ch4 =? ",")%char.
      * bind_in H u5 q5 Eskip. apply skip_spaces_and_empty_lines_emits in Eskip.
        destruct Eskip as [L2 [texts2 H2]].
        assert (Hitems2 : array_items (Some current_item_type) (S n)
                            ((items ++ evs ++ map Handler.comment texts1)
                               ++ map Handler.comment texts2)).
        { apply array_items_comments. rewrite app_assoc.
          apply array_items_comments. assumption. }
        destruct (IHl _ _ _ _ _ _ H ltac:(lia) Hitems2)
          as [L [evs' [array_type' [n' [H' Hi]]]]].
        split; [lia|].
        exists (evs ++ map Handler.comment texts1 ++ map Handler.comment texts2 ++ evs'),
          array_type', n'.
        split; [handler_chain|].
        repeat rewrite <- app_assoc in Hi. repeat rewrite <- app_assoc. exact Hi.
      * apply parser_error_Done in H. contradiction.
Qed.

Lemma parse_array_step fuel : array_loop_ok fuel -> array_ok (S fuel).
Proof.
  intros IHl p a p' H Hbound. simpl in H.
  bind_in H ch q0 Eget. get_in Eget.
  bind_in H u1 q1 Estart. emit_in Estart.
  bind_in H u2 q2 Eskip. apply skip_spaces_and_empty_lines_emits in Eskip.
  destruct Eskip as [L1 [texts H1]].
  assert (Hitems : array_items None 0 ([] ++ map Handler.comment texts)).
  { apply array_items_comments. constructor. }
  destruct (IHl None O _ _ _ _ H ltac:(lia) Hitems)
    as [L [evs [array_type [n [H' Hi]]]]].
  split; [lia|].
  exists array_type, n, (map Handler.comment texts ++ evs).
  split; [|exact Hi].
  handler_chain.
Qed.

Lemma parse_inline_table_loop_step fuel :
  value_ok fuel -> inline_table_loop_ok fuel -> inline_table_loop_ok (S fuel).
Proof.
  intros IHv IHl n items p a p' H Hbound Hitems. simpl in H.
  bind_in H key q0 Ekey. quiet_in Ekey.
  bind_in H u1 q1 Eemit. emit_in Eemit.
  bind_in H u2 q2 Eskip. quiet_in Eskip.
  bind_in H ch3 q3 Eeq.
  destruct (advances_parse_chars _ _ _ _ Eeq) as [Hh3 Hl3].
  bind_in H u4 q4 Eskip2. quiet_in Eskip2.
  bind_in H t q5 Evalue.
  destruct (IHv _ _ _ Evalue ltac:(lia)) as [Lv [evs [Hv Tv]]].
  bind_in H u6 q6 Eskip3. quiet_in Eskip3.
  rewrite (size_t_succ n (Z.of_nat (remaining p))) in H by lia.
  bind_in H ch7 q7 Eget. get_in Eget.
  assert (Hitems' : table_items (S n) (items ++ Handler.key key :: evs)).
  { econstructor; eassumption. }
  destruct (ch7 =? "}")%char.
  - emit_in H. split; [lia|].
    exists (Handler.key key :: evs), (S n).
    split; [|assumption]. handler_chain.
  - destruct (ch7 =? ",")%char.
    + bind_in H u8 q8 Eskip4. quiet_in Eskip4.
      destruct (IHl _ _ _ _ _ H ltac:(lia) Hitems') as [L [evs' [n' [H' Hi]]]].
      split; [lia|].
      exists ((Handler.key key :: evs) ++ evs'), n'.
      split; [|rewrite app_assoc; exact Hi].
      handler_chain.
    + apply parser_error_Done in H. contradiction.
Qed.

Lemma parse_inline_table_step fuel :
  inline_table_loop_ok fuel -> inline_table_ok (S fuel).
Proof.
  intros IHl p a p' H Hbound. simpl in H.
  bind_in H ch q0 Eget. get_in Eget.
  bind_in H u1 q1 Estart. emit_in Estart.
  bind_in H u2 q2 Eskip. quiet_in Eskip.
  bind_in H ch3 q3 Epeek. quiet_in Epeek.
  destruct (ch3 =? "}")%char.
  - bind_in H ch4 q4 Eget2. get_in Eget2. emit_in H.
    split; [lia|]. exists O, []. split; [|constructor]. handler_chain.
  - destruct (IHl O [] _ _ _ H ltac:(lia) ti_nil) as [L [evs [n [H' Hi]]]].
    split; [lia|]. exists n, evs. split; [|exact Hi]. handler_chain.
Qed.

Lemma parse_value_step fuel :
  array_ok fuel -> inline_table_ok fuel -> value_ok (S fuel).
Proof.
  intros IHa IHt p t p' H Hbound. simpl in H.
  bind_in H ch q0 Epeek. quiet_in Epeek.
  assert (Hq0 : Z.of_nat (remaining q0) < 2 ^ 64) by lia.
  destruct (ch =? "{")%char.
  { bind_in H u1 q1 Etable. inversion H; subst.
    destruct (IHt _ _ _ Etable Hq0) as [L [n [items [H' Hi]]]].
    split; [lia|]. eexists. split; [handler_chain|]. constructor. exact Hi. }
  destruct (ch =? "[")%char.
  { bind_in H u1 q1 Earray. inversion H; subst.
    destruct (IHa _ _ _ Earray Hq0) as [L [array_type [n [items [H' Hi]]]]].
    split; [lia|]. eexists. split; [handler_chain|]. econstructor. exact Hi. }
  destruct (ch =? DQUOTE)%char.
  { bind_in H u1 q1 Estring. inversion H; subst.
    apply parse_string_emits in Estring. destruct Estring as [L [value H']].
    split; [lia|]. eexists. split; [handler_chain|]. constructor. }
  destruct (ch =? SQUOTE)%char.
  { bind_in H u1 q1 Estring. inversion H; subst.
    apply parse_literal_string_emits in Estring. destruct Estring as [L [value H']].
    split; [lia|]. eexists. split; [handler_chain|]. constructor. }
  apply parse_bool_or_number_or_symbol_emits in H. destruct H as [L [e [H' He]]].
  split; [lia|]. exists [e]. split; [handler_chain|exact He].
Qed.

Lemma parse_value_family fuel :
  value_ok fuel /\ array_ok fuel /\ array_loop_ok fuel /\
  inline_table_ok fuel /\ inline_table_loop_ok fuel.
Proof.
  induction fuel as [|fuel (IHv & IHa & IHal & IHt & IHtl)].
  - split; [|split; [|split; [|split]]];
      unfold value_ok, array_ok, array_loop_ok, inline_table_ok, inline_table_loop_ok;
      intros; discriminate.
  - split; [apply parse_value_step; assumption|].
    split; [apply parse_array_step; assumption|].
    split; [apply parse_array_loop_step; assumption|].
    split; [apply parse_inline_table_step; assumption|].
    apply parse_inline_table_loop_step; assumption.
Qed.

Lemma parse_value_emits fuel p t p' :
  parse_value fuel p = Done t p' ->
  Z.of_nat (remaining p) < 2 ^ 64 ->
  (remaining p' < remaining p)%nat /\
  exists evs, handler p' = handler p ++ evs /\ value_trace t evs.
Proof. apply (proj1 (parse_value_family fuel)). Qed.

Lemma parse_array_emits fuel p a p' :
  parse_array fuel p = Done a p' ->
  Z.of_nat (remaining p) < 2 ^ 64 ->
  (remaining p' < remaining p)%nat /\
  exists array_type n items,
    handler p' =
      handler p ++ Handler.start_array :: items ++ [Handler.finish_array (Z.of_nat n)] /\
    array_items array_type n items.
Proof. apply (proj1 (proj2 (parse_value_family fuel))). Qed.

Lemma parse_table_header_emits fuel p a p' :
  parse_table_header fuel p = Done a p' ->
  (remaining p' <= remaining p)%nat /\
  exists path,
    handler p' = handler p ++ [Handler.table path] \/
    handler p' = handler p ++ [Handler.array_table path].
Proof.
  unfold parse_table_header. intros H.
  bind_in H ch q0 Eget. get_in Eget.
  bind_in H ch1 q1 Epeek. quiet_in Epeek.
  bind_in H array_item q2 Eitem. quiet_in Eitem.
  bind_in H path q3 Eloop. quiet_in Eloop.
  split; [destruct array_item; emit_in H; lia|].
  exists path. destruct array_item; emit_in H; [right|left]; handler_chain.
Qed.

Lemma parse_kv_pair_emits fuel p a p' :
  parse_kv_pair fuel p = Done a p' ->
  Z.of_nat (remaining p) < 2 ^ 64 ->
  (remaining p' <= remaining p)%nat /\
  exists name t v,
    handler p' = handler p ++ Handler.key name :: v /\ value_trace t v.
Proof.
  unfold parse_kv_pair. intros H Hbound.
  bind_in H key q0 Ekey. quiet_in Ekey.
  bind_in H u1 q1 Eemit. emit_in Eemit.
  bind_in H u2 q2 Eskip. quiet_in Eskip.
  bind_in H ch3 q3 Eeq. quiet_in Eeq.
  bind_in H u4 q4 Eskip2. quiet_in Eskip2.
  bind_in H t q5 Evalue.
  destruct (parse_value_emits _ _ _ _ Evalue ltac:(lia)) as [Lv [evs [Hv Tv]]].
  inversion H; subst.
  split; [lia|]. exists key, t, evs. split; [|exact Tv]. handler_chain.
Qed.

Lemma parse_trailing_comment_emits fuel p a p' :
  parse_trailing_comment fuel p = Done a p' ->
  (remaining p' <= remaining p)%nat /\
  (handler p' = handler p \/
   exists text, handler p' = handler p ++ [Handler.comment text]).
Proof.
  unfold parse_trailing_comment. intros H.
  bind_in H at_end q0 Eeof. quiet_in Eeof.
  destruct at_end.
  - inversion H; subst. split; [lia|]. left. congruence.
  - bind_in H ch q1 Epeek. quiet_in Epeek.
    destruct (ch =? "#")%char.
    + apply parse_comment_emits in H. destruct H as [L [text H]].
      split; [lia|]. right. exists text. handler_chain.
    + inversion H; subst. split; [lia|]. left. congruence.
Qed.

Lemma parse_expression_emits fuel p a p' body :
  parse_expression fuel p = Done a p' ->
  Z.of_nat (remaining p) < 2 ^ 64 ->
  document_body body ->
  (remaining p' <= remaining p)%nat /\
  exists evs, handler p' = handler p ++ evs /\ document_body (body ++ evs).
Proof.
  unfold parse_expression. intros H Hbound Hbody.
  bind_in H u0 q0 Eskip. quiet_in Eskip.
  bind_in H at_end q1 Eeof. quiet_in Eeof.
  destruct at_end.
  { inversion H; subst. split; [lia|]. exists [].
    rewrite !app_nil_r. split; [congruence|assumption]. }
  bind_in H ch q2 Epeek. quiet_in Epeek.
  destruct ((ch =? CR) || (ch =? LF))%char.
  { inversion H; subst. split; [lia|]. exists [].
    rewrite !app_nil_r. split; [congruence|assumption]. }
  destruct (ch =? "#")%char.
  { apply parse_comment_emits in H. destruct H as [L [text H]].
    split; [lia|]. exists [Handler.comment text].
    split; [handler_chain|constructor; assumption]. }
  destruct (ch =? "[")%char.
  - bind_in H u3 q3 Eheader. apply parse_table_header_emits in Eheader.
    destruct Eheader as [L3 [path Hheader]].
    bind_in H u4 q4 Eskip2. quiet_in Eskip2.
    apply parse_trailing_comment_emits in H. destruct H as [L5 Htrail].
    split; [lia|].
    destruct Hheader as [Hheader|Hheader], Htrail as [Htrail|[text Htrail]].
    + exists [Handler.table path]. split; [handler_chain|constructor; assumption].
    + exists ([Handler.table path] ++ [Handler.comment text]).
      split; [handler_chain|].
      rewrite app_assoc. constructor. constructor. assumption.
    + exists [Handler.array_table path].
      split; [handler_chain|constructor; assumption].
    + exists ([Handler.array_table path] ++ [Handler.comment text]).
      split; [handler_chain|].
      rewrite app_assoc. constructor. constructor. assumption.
  - bind_in H u3 q3 Epair.
    destruct (parse_kv_pair_emits _ _ _ _ Epair ltac:(lia))
      as [L3 [name [t [v [Hpair Tv]]]]].
    bind_in H u4 q4 Eskip2. quiet_in Eskip2.
    apply parse_trailing_comment_emits in H. destruct H as [L5 Htrail].
    split; [lia|].
    destruct Htrail as [Htrail|[text Htrail]].
    + exists (Handler.key name :: v).
      split; [handler_chain|econstructor; eassumption].
    + exists ((Handler.key name :: v) ++ [Handler.comment text]).
      split; [handler_chain|].
      rewrite app_assoc. constructor. econstructor; eassumption.
Qed.

Lemma parse_loop_emits fuel p a p' body :
  parse_loop fuel p = Done a p' ->
  Z.of_nat (remaining p) < 2 ^ 64 ->
  document_body body ->
  exists evs, handler p' = handler p ++ evs /\ document_body (body ++ evs).
Proof.
  revert p a p' body.
  induction fuel as [|fuel IH]; intros p a p' body H Hbound Hbody; simpl in H;
    [discriminate|].
  bind_in H at_end q0 Eeof. quiet_in Eeof.
  destruct at_end.
  { inversion H; subst. exists [].
    rewrite !app_nil_r. split; [congruence|assumption]. }
  bind_in H u1 q1 Enl. quiet_in Enl.
  bind_in H u2 q2 Eexpr.
  destruct (parse_expression_emits _ _ _ _ body Eexpr ltac:(lia) Hbody)
    as [L2 [evs [Hexpr Hbody2]]].
  destruct (IH _ _ _ _ H ltac:(lia) Hbody2) as [evs' [H' Hbody3]].
  exists (evs ++ evs'). split; [handler_chain|].
  rewrite app_assoc. assumption.
Qed.

Lemma nesting_traces :
  (forall t v, value_trace t v ->
     forall stack rest,
       nesting stack (v ++ rest) = nesting (count_value stack) rest) /\
  (forall array_type n items, array_items array_type n items ->
     forall m stack rest,
       nesting (in_array m :: stack) (items ++ rest) =
       nesting (in_array (m + n) :: stack) rest) /\
  (forall n items, table_items n items ->
     forall m stack rest,
       nesting (in_table m :: stack) (items ++ rest) =
       nesting (in_table (m + n) :: stack) rest).
Proof.
  apply value_trace_mutind; intros; simpl; try reflexivity.
  - (* array *)
    rewrite <- app_assoc. rewrite H0. simpl. rewrite Z.eqb_refl. reflexivity.
  - (* inline table *)
    rewrite <- app_assoc. rewrite H0. simpl. rewrite Z.eqb_refl. reflexivity.
  - rewrite Nat.add_0_r. reflexivity.
  - rewrite <- app_assoc. rewrite H0. reflexivity.
  - rewrite <- app_assoc. rewrite H0, H2. simpl. rewrite Nat.add_0_r.
    replace (m + 1)%nat with (S m) by lia. reflexivity.
  - rewrite <- app_assoc. rewrite H0, H2. simpl.
    replace (m + S n)%nat with (S (m + n)) by lia. reflexivity.
  - rewrite Nat.add_0_r. reflexivity.
  - rewrite <- app_assoc. rewrite H0. simpl. rewrite H2. simpl.
    replace (m + S n)%nat with (S (m + n)) by lia. reflexivity.
Qed.

Lemma nesting_document_body body :
  document_body body ->
  forall rest, nesting [] (body ++ rest) = nesting [] rest.
Proof.
  induction 1; intros rest; simpl; try reflexivity;
    rewrite <- app_assoc, IHdocument_body; simpl; try reflexivity.
  apply (proj1 nesting_traces _ _ H0).
Qed.

Lemma nesting_no_document_event evs :
  forall stack stack', nesting stack evs = Some stack' ->
    Forall (fun e => is_document_event e = false) evs.
Proof.
  induction evs as [|e evs IH]; intros stack stack' H; [constructor|].
  simpl in H.
  destruct e; try discriminate;
    (constructor; [reflexivity|]);
    repeat match type of H with
           | match ?x with _ => _ end = _ => destruct x; try discriminate
           | (if ?c then _ else _) = _ => destruct c; try discriminate
           end;
    eapply IH; eassumption.
Qed.

(** ** The event sequence of a successful parse *)

(** C4: when [loltoml::parse] returns, the handler has seen
    [start_document], then a body, then [finish_document]; the body holds
    no other document event, is a sequence of comments, table headers and
    keys each followed by one complete value, and its arrays and inline
    tables are properly nested with [finish_array n] and
    [finish_inline_table n] closing exactly [n] elements or pairs.  The
    input is shorter than [2^64] bytes, so that the [std::size_t] counters
    do not wrap. *)
Theorem parse_event_sequence fuel text p' :
  Z.of_nat (List.length text) < 2 ^ 64 ->
  loltoml_parse fuel text = Done tt p' ->
  exists body,
    handler p' = Handler.start_document :: body ++ [Handler.finish_document] /\
    document_body body /\
    nesting [] body = Some [] /\
    Forall (fun e => is_document_event e = false) body.
Proof.
  intros Hbound H. unfold loltoml_parse, parse in H.
  bind_in H u0 q0 Estart. emit_in Estart.
  bind_in H u1 q1 Eexpr.
  assert (Hq0 : Z.of_nat (remaining q0) < 2 ^ 64).
  { rewrite Hl. unfold remaining, unread, parser_of. simpl. exact Hbound. }
  destruct (parse_expression_emits _ _ _ _ [] Eexpr Hq0 db_nil)
    as [L1 [evs1 [H1 Hbody1]]].
  bind_in H u2 q2 Eloop.
  destruct (parse_loop_emits _ _ _ _ _ Eloop ltac:(lia) Hbody1)
    as [evs2 [H2 Hbody2]].
  emit_in H. simpl in Hbody2.
  assert (Hnest : nesting [] (evs1 ++ evs2) = Some []).
  { rewrite <- (app_nil_r (evs1 ++ evs2)).
    rewrite (nesting_document_body _ Hbody2). reflexivity. }
  exists (evs1 ++ evs2).
  split; [|split; [assumption|split; [assumption|]]].
  - handler_chain.
  - eapply nesting_no_document_event. exact Hnest.
Qed.

(** ** Array homogeneity *)

Lemma parse_value_not_closing_bracket fuel p t p' :
  parse_value fuel p = Done t p' ->
  (input_stream_t.peek eof_sentinel (input p) =? "]")%char = false.
Proof.
  destruct fuel as [|fuel]; [discriminate|]. simpl.
  unfold bind at 1. unfold input_peek.
  destruct (input_stream_t.peek eof_sentinel (input p) =? "]")%char eqn:Hpeek;
    [|reflexivity].
  apply Ascii.eqb_eq in Hpeek. rewrite Hpeek. simpl.
  unfold parse_bool_or_number_or_symbol, bind at 1, input_get, input_stream_t.get.
  unfold input_stream_t.peek in Hpeek.
  destruct (input_stream_t.backend (input p)) as [|ch rest]; [discriminate|].
  subst ch. simpl. intros H. apply parser_error_Done in H. contradiction.
Qed.

(** One turn of the loop of [parse_array] that finds an element. *)
Lemma parse_array_loop_item fuel array_type size p current_item_type p1 :
  parse_value fuel p = Done current_item_type p1 ->
  parse_array_loop (S fuel) array_type size p =
  if (0 <? size) && differs current_item_type array_type
  then Throw (parser_error_t "All array elements must be of the same type"
                (consumed p)) p1
  else
    (skip_spaces_and_empty_lines fuel ;;;
     ch <- input_get ;;
     if (ch =? "]")%char then emit (Handler.finish_array (size_t (size + 1)))
     else if (ch =? ",")%char then
       skip_spaces_and_empty_lines fuel ;;;
       parse_array_loop fuel (Some current_item_type) (size_t (size + 1))
     else parser_error "Expected ',' or ']' after an array element") p1.
Proof.
  intros Hvalue.
  pose proof (parse_value_not_closing_bracket _ _ _ _ Hvalue) as Hpeek.
  simpl. unfold bind at 1. unfold input_peek. rewrite Hpeek.
  unfold bind at 1. unfold input_processed.
  unfold bind at 1. rewrite Hvalue.
  destruct ((0 <? size) && differs current_item_type array_type); reflexivity.
Qed.

(** C2: an array that parses has elements of one type tag, the tag of its
    first element ([array_items] carries it); and when the loop of
    [parse_array] stands before an element that is not the first
    ([size > 0]) and [parse_value] returns for it a tag other than the one
    of the elements before, the parse fails with the inhomogeneous-array
    error at the offset the stream had before the element, that of the
    element's first byte.  So the array of the integer 1 and the string a
    fails at offset 4, where the string's opening quote stands. *)
Theorem array_elements_same_type fuel :
  (forall p,
      Z.of_nat (remaining p) < 2 ^ 64 ->
      (forall a p',
          parse_array fuel p = Done a p' ->
          exists array_type n items,
            handler p' =
              handler p ++
                Handler.start_array :: items ++ [Handler.finish_array (Z.of_nat n)] /\
            array_items array_type n items) /\
      (forall array_type size current_item_type p1,
          0 < size ->
          parse_value fuel p = Done current_item_type p1 ->
          current_item_type <> array_type ->
          parse_array_loop (S fuel) (Some array_type) size p =
          Throw (parser_error_t "All array elements must be of the same type"
                   (consumed p)) p1)) /\
  parse_value (10 + fuel)
    (parser_at (bytes "[1, " ++ DQUOTE :: bytes "a" ++ DQUOTE :: bytes "]") 0 []) =
  Throw (parser_error_t "All array elements must be of the same type" 4)
    (parser_at (bytes "]") 7
       [Handler.start_array; Handler.integer 1; Handler.string "a"]).
Proof.
  split; [|vm_compute; reflexivity].
  intros p Hbound. split.
  - intros a p' H. apply (parse_array_emits _ _ _ _ H Hbound).
  - intros array_type size current_item_type p1 Hsize Hvalue Hdiff.
    rewrite (parse_array_loop_item _ _ _ _ _ _ Hvalue).
    replace (0 <? size) with true by (symmetry; apply Z.ltb_lt; exact Hsize).
    simpl. unfold toml_type_t.neqb.
    destruct (toml_type_t.eq_dec current_item_type array_type); [contradiction|].
    reflexivity.
Qed.

(** C8: the check of [parse_array] compares only the tags [parse_value]
    returns.  An element for which it returns the tag of the elements
    before passes the check whatever events it delivered, so that arrays
    of arrays and arrays of inline tables parse although their elements'
    own contents differ in type. *)
Theorem nested_arrays_are_homogeneous fuel :
  (forall p p1 array_type size,
      parse_value fuel p = Done array_type p1 ->
      parse_array_loop (S fuel) (Some array_type) size p =
      (skip_spaces_and_empty_lines fuel ;;;
       ch <- input_get ;;
       if (ch =? "]")%char then emit (Handler.finish_array (size_t (size + 1)))
       else if (ch =? ",")%char then
         skip_spaces_and_empty_lines fuel ;;;
         parse_array_loop fuel (Some array_type) (size_t (size + 1))
       else parser_error "Expected ',' or ']' after an array element") p1) /\
  parse_value (20 + fuel)
    (parser_at
       (bytes "[[1, 2], [" ++ DQUOTE :: bytes "a" ++ DQUOTE :: bytes ", " ++
          DQUOTE :: bytes "b" ++ DQUOTE :: bytes ", " ++
          DQUOTE :: bytes "c" ++ DQUOTE :: bytes "]]")
       0 []) =
  Done toml_type_t.array
    (parser_at [] 25
       [Handler.start_array;
        Handler.start_array; Handler.integer 1; Handler.integer 2;
        Handler.finish_array 2;
        Handler.start_array; Handler.string "a"; Handler.string "b";
        Handler.string "c"; Handler.finish_array 3;
        Handler.finish_array 2]) /\
  parse_value (20 + fuel)
    (parser_at
       (bytes "[{a = 1}, {b = " ++ DQUOTE :: bytes "x" ++ DQUOTE ::
          bytes ", c = [true]}]")
       0 []) =
  Done toml_type_t.array
    (parser_at [] 32
       [Handler.start_array;
        Handler.start_inline_table; Handler.key "a"; Handler.integer 1;
        Handler.finish_inline_table 1;
        Handler.start_inline_table; Handler.key "b"; Handler.string "x";
        Handler.key "c"; Handler.start_array; Handler.boolean true;
        Handler.finish_array 1; Handler.finish_inline_table 2;
        Handler.finish_array 2]).
Proof.
  split; [|split].
  - intros p p1 array_type size Hvalue.
    rewrite (parse_array_loop_item _ _ _ _ _ _ Hvalue).
    simpl. unfold toml_type_t.neqb.
    destruct (toml_type_t.eq_dec array_type array_type); [|contradiction].
    rewrite andb_false_r. reflexivity.
  - vm_compute. reflexivity.
  - vm_compute. reflexivity.
Qed.

(** ** Unicode escapes *)

Lemma uchar_range ch : 0 <= uchar ch < 256.
Proof.
  unfold uchar. pose proof (N_ascii_bounded ch). lia.
Qed.

Lemma between_spec lo hi ch :
  between lo hi ch = true <-> uchar lo <= uchar ch <= uchar hi.
Proof.
  unfold between, Ascii.leb, Ascii.compare, uchar.
  rewrite andb_true_iff.
  destruct (N.compare_spec (N_of_ascii lo) (N_of_ascii ch));
    destruct (N.compare_spec (N_of_ascii ch) (N_of_ascii hi));
    split; intros; try lia; try (split; reflexivity);
    try (destruct H1; discriminate).
Qed.

Lemma hex_value_range ch value : hex_value ch = Some value -> 0 <= value < 16.
Proof.
  unfold hex_value.
  destruct (between "0" "9" ch) eqn:E1.
  { apply between_spec in E1. intros H. inversion H; subst.
    change (uchar "0") with 48 in *. change (uchar "9") with 57 in *. lia. }
  destruct (between "A" "F" ch) eqn:E2.
  { apply between_spec in E2. intros H. inversion H; subst.
    change (uchar "A") with 65 in *. change (uchar "F") with 70 in *. lia. }
  destruct (between "a" "f" ch) eqn:E3; [|discriminate].
  apply between_spec in E3. intros H. inversion H; subst.
  change (uchar "a") with 97 in *. change (uchar "f") with 102 in *. lia.
Qed.

Lemma parse_hex_digit_at ch value rest offset evs :
  hex_value ch = Some value ->
  parse_hex_digit (parser_at (ch :: rest) offset evs) =
  Done value (parser_at rest (size_t (offset + 1)) evs).
Proof.
  unfold hex_value, parse_hex_digit, bind, input_get. simpl.
  destruct (between "0" "9" ch); [intros H; inversion H; reflexivity|].
  destruct (between "A" "F" ch); [intros H; inversion H; reflexivity|].
  destruct (between "a" "f" ch); [intros H; inversion H; reflexivity|].
  discriminate.
Qed.

Lemma next_hex_digit_at codepoint ch value rest offset evs :
  hex_value ch = Some value ->
  0 <= codepoint < 2 ^ 28 ->
  next_hex_digit codepoint (parser_at (ch :: rest) offset evs) =
  Done (16 * codepoint + value) (parser_at rest (size_t (offset + 1)) evs).
Proof.
  intros Hch Hcp. unfold next_hex_digit, bind.
  rewrite (parse_hex_digit_at _ _ _ _ _ Hch). unfold ret.
  apply hex_value_range in Hch.
  rewrite Z.shiftl_mul_pow2 by lia. change (2 ^ 4) with 16.
  unfold uint32_t. rewrite Z.mod_small by lia.
  f_equal. lia.
Qed.

Lemma parse_4_digit_codepoint_at d1 d2 d3 d4 v1 v2 v3 v4 rest offset evs :
  map hex_value [d1; d2; d3; d4] = map Some [v1; v2; v3; v4] ->
  parse_4_digit_codepoint (parser_at (d1 :: d2 :: d3 :: d4 :: rest) offset evs) =
  Done (codepoint_of [v1; v2; v3; v4]) (parser_at rest (advance offset 4) evs) /\
  0 <= codepoint_of [v1; v2; v3; v4] < 2 ^ 16.
Proof.
  intros H. inversion H as [[H1 H2 H3 H4]].
  pose proof (hex_value_range _ _ H1). pose proof (hex_value_range _ _ H2).
  pose proof (hex_value_range _ _ H3). pose proof (hex_value_range _ _ H4).
  split; [|unfold codepoint_of; cbn [fold_left]; lia].
  unfold parse_4_digit_codepoint.
  rewrite (bind_eq _ _ _ _ _ (parse_hex_digit_at _ _ _ _ _ H1)).
  do 3 (erewrite bind_eq; [|apply next_hex_digit_at; [eassumption|lia]]).
  unfold ret, codepoint_of, advance. cbn [fold_left Nat.iter]. f_equal; lia.
Qed.

Lemma parse_8_digit_codepoint_at d1 d2 d3 d4 d5 d6 d7 d8 v1 v2 v3 v4 v5 v6 v7 v8
    rest offset evs :
  map hex_value [d1; d2; d3; d4; d5; d6; d7; d8] =
    map Some [v1; v2; v3; v4; v5; v6; v7; v8] ->
  parse_8_digit_codepoint
    (parser_at (d1 :: d2 :: d3 :: d4 :: d5 :: d6 :: d7 :: d8 :: rest) offset evs) =
  Done (codepoint_of [v1; v2; v3; v4; v5; v6; v7; v8])
    (parser_at rest (advance offset 8) evs) /\
  0 <= codepoint_of [v1; v2; v3; v4; v5; v6; v7; v8] < 2 ^ 32.
Proof.
  intros H. inversion H as [[H1 H2 H3 H4 H5 H6 H7 H8]].
  pose proof (hex_value_range _ _ H1). pose proof (hex_value_range _ _ H2).
  pose proof (hex_value_range _ _ H3). pose proof (hex_value_range _ _ H4).
  pose proof (hex_value_range _ _ H5). pose proof (hex_value_range _ _ H6).
  pose proof (hex_value_range _ _ H7). pose proof (hex_value_range _ _ H8).
  split; [|unfold codepoint_of; cbn [fold_left]; lia].
  unfold parse_8_digit_codepoint.
  rewrite (bind_eq _ _ _ _ _ (parse_hex_digit_at _ _ _ _ _ H1)).
  do 7 (erewrite bind_eq; [|apply next_hex_digit_at; [eassumption|lia]]).
  unfold ret, codepoint_of, advance. cbn [fold_left Nat.iter]. f_equal; lia.
Qed.

Lemma push_back_all l s :
  fold_left push_back l s = (s ++ string_of_list_ascii l)%string.
Proof.
  revert s. induction l as [|ch l IH]; intros s; simpl.
  - induction s; simpl; congruence.
  - rewrite IH. unfold push_back.
    induction s; simpl; [reflexivity|congruence].
Qed.

Lemma uchar_to_char n : 0 <= n < 256 -> uchar (to_char n) = n.
Proof.
  intros H. unfold uchar, to_char. rewrite Z.mod_small by lia.
  rewrite N_ascii_embedding by lia. lia.
Qed.

(** [0x80 | y], [0xC0 | y], [0xE0 | y] and [0xF0 | y] add the payload to
    the marker when the payload fits under it. *)
Lemma lor_marker marker width y :
  In (marker, width) [(0x80, 64%nat); (0xC0, 32%nat); (0xE0, 16%nat); (0xF0, 8%nat)] ->
  0 <= y < Z.of_nat width ->
  Z.lor marker y = marker + y.
Proof.
  intros Hin Hy.
  assert (Hall : forall m w, In (m, w)
            [(0x80, 64%nat); (0xC0, 32%nat); (0xE0, 16%nat); (0xF0, 8%nat)] ->
            forallb (fun n => Z.lor m (Z.of_nat n) =? m + Z.of_nat n) (seq 0 w) = true).
  { intros m w H. simpl in H.
    repeat (destruct H as [H|H]; [inversion H; subst; vm_compute; reflexivity|]).
    contradiction. }
  specialize (Hall _ _ Hin). rewrite forallb_forall in Hall.
  specialize (Hall (Z.to_nat y)). rewrite Z2Nat.id in Hall by lia.
  apply Z.eqb_eq, Hall, in_seq. lia.
Qed.

Lemma utf8_bytes_decode codepoint :
  0 <= codepoint <= 0x10FFFF ->
  utf8_decode_reference (map uchar (utf8_bytes codepoint)) = Some codepoint /\
  List.length (utf8_bytes codepoint) =
    (if codepoint <=? 0x7F then 1%nat
     else if codepoint <=? 0x7FF then 2%nat
     else if codepoint <=? 0xFFFF then 3%nat else 4%nat).
Proof.
  intros Hcp. unfold utf8_bytes.
  assert (Hland : forall x, Z.land x 0x3F = x mod 64).
  { intros x. change 0x3F with (Z.ones 6). rewrite Z.land_ones by lia. reflexivity. }
  assert (Hshr : forall x n, 0 <= n -> Z.shiftr x n = x / 2 ^ n).
  { intros. apply Z.shiftr_div_pow2. assumption. }
  assert (Hcont : forall x, utf8_continuation (uchar (to_char (Z.lor 0x80 (x mod 64))))
                            = Some (x mod 64)).
  { intros x. pose proof (Z.mod_pos_bound x 64 ltac:(lia)).
    rewrite (lor_marker 0x80 64) by (simpl; auto || lia).
    rewrite uchar_to_char by lia. unfold utf8_continuation.
    replace ((128 <=? 128 + x mod 64) && (128 + x mod 64 <=? 191)) with true
      by (symmetry; apply andb_true_iff; split; apply Z.leb_le; lia).
    f_equal. lia. }
  destruct (codepoint <=? 0x7F) eqn:E1.
  { apply Z.leb_le in E1. split; [|reflexivity]. simpl.
    rewrite uchar_to_char by lia.
    replace ((0 <=? codepoint) && (codepoint <=? 127)) with true
      by (symmetry; apply andb_true_iff; split; apply Z.leb_le; lia).
    reflexivity. }
  apply Z.leb_gt in E1.
  destruct (codepoint <=? 0x7FF) eqn:E2.
  { apply Z.leb_le in E2. split; [|reflexivity].
    rewrite !Hland, !Hshr by lia. cbn [map utf8_decode_reference].
    rewrite Hcont.
    assert (0 <= codepoint / 2 ^ 6 < 32)
      by (split; [apply Z.div_pos; lia|apply Z.div_lt_upper_bound; lia]).
    rewrite (lor_marker 0xC0 32) by (simpl; auto || lia).
    rewrite uchar_to_char by lia.
    replace ((192 <=? 192 + codepoint / 2 ^ 6) && (192 + codepoint / 2 ^ 6 <=? 223))
      with true by (symmetry; apply andb_true_iff; split; apply Z.leb_le; lia).
    f_equal. change (2 ^ 6) with 64. pose proof (Z.div_mod codepoint 64). lia. }
  apply Z.leb_gt in E2.
  destruct (codepoint <=? 0xFFFF) eqn:E3.
  { apply Z.leb_le in E3. split; [|reflexivity].
    rewrite !Hland, !Hshr by lia. cbn [map utf8_decode_reference].
    rewrite !Hcont.
    assert (0 <= codepoint / 2 ^ 12 < 16)
      by (split; [apply Z.div_pos; lia|apply Z.div_lt_upper_bound; lia]).
    rewrite (lor_marker 0xE0 16) by (simpl; auto || lia).
    rewrite uchar_to_char by lia.
    replace ((224 <=? 224 + codepoint / 2 ^ 12) && (224 + codepoint / 2 ^ 12 <=? 239))
      with true by (symmetry; apply andb_true_iff; split; apply Z.leb_le; lia).
    f_equal. change (2 ^ 6) with 64. change (2 ^ 12) with 4096.
    pose proof (Z.div_mod codepoint 64). pose proof (Z.div_mod (codepoint / 64) 64).
    replace (codepoint / 4096) with (codepoint / 64 / 64)
      by (rewrite Z.div_div by lia; reflexivity).
    lia. }
  apply Z.leb_gt in E3. split; [|reflexivity].
  rewrite !Hland, !Hshr by lia. cbn [map utf8_decode_reference].
  rewrite !Hcont.
  assert (0 <= codepoint / 2 ^ 18 < 8)
    by (split; [apply Z.div_pos; lia|apply Z.div_lt_upper_bound; lia]).
  rewrite (lor_marker 0xF0 8) by (simpl; auto || lia).
  rewrite uchar_to_char by lia.
  replace ((240 <=? 240 + codepoint / 2 ^ 18) && (240 + codepoint / 2 ^ 18 <=? 247))
    with true by (symmetry; apply andb_true_iff; split; apply Z.leb_le; lia).
  f_equal. change (2 ^ 6) with 64. change (2 ^ 12) with 4096.
  change (2 ^ 18) with 262144.
  pose proof (Z.div_mod codepoint 64). pose proof (Z.div_mod (codepoint / 64) 64).
  pose proof (Z.div_mod (codepoint / 64 / 64) 64).
  replace (codepoint / 4096) with (codepoint / 64 / 64)
    by (rewrite Z.div_div by lia; reflexivity).
  replace (codepoint / 262144) with (codepoint / 64 / 64 / 64)
    by (rewrite !Z.div_div by lia; reflexivity).
  lia.
Qed.

Lemma last_char_offset_after_get text offset evs :
  0 <= offset < 2 ^ 64 - 1 ->
  last_char_offset (parser_at text (size_t (offset + 1)) evs) =
  Done offset (parser_at text (size_t (offset + 1)) evs).
Proof.
  intros H. unfold last_char_offset, bind, input_processed, ret, parser_at. simpl.
  unfold size_t. rewrite (Z.mod_small (offset + 1)) by lia.
  destruct (offset + 1 =? 0) eqn:E; [apply Z.eqb_eq in E; lia|].
  rewrite Z.mod_small by lia. do 2 f_equal. lia.
Qed.

Lemma input_peek_at ch text offset evs :
  input_peek (parser_at (ch :: text) offset evs) =
  Done ch (parser_at (ch :: text) offset evs).
Proof. reflexivity. Qed.

Lemma input_get_at ch text offset evs :
  input_get (parser_at (ch :: text) offset evs) =
  Done ch (parser_at text (size_t (offset + 1)) evs).
Proof. reflexivity. Qed.

Lemma parse_basic_string_loop_backslash fuel result text offset evs :
  0 <= offset < 2 ^ 64 - 1 ->
  parse_basic_string_loop (S fuel) result (parser_at (BACKSLASH :: text) offset evs) =
  (result <- parse_escape_sequence offset result ;;
   parse_basic_string_loop fuel result) (parser_at text (size_t (offset + 1)) evs).
Proof.
  intros H. cbn [parse_basic_string_loop].
  erewrite bind_eq by apply input_get_at.
  change (iscontrol BACKSLASH) with false.
  change (BACKSLASH =? DQUOTE)%char with false.
  change (BACKSLASH =? BACKSLASH)%char with true. cbv iota.
  erewrite bind_eq by (apply last_char_offset_after_get; exact H).
  reflexivity.
Qed.

Lemma parse_multiline_string_loop_backslash fuel result ch text offset evs :
  0 <= offset < 2 ^ 64 - 1 ->
  ((ch =? CR) || (ch =? LF))%char = false ->
  parse_multiline_string_loop (S fuel) result
    (parser_at (BACKSLASH :: ch :: text) offset evs) =
  (result <- parse_escape_sequence offset result ;;
   parse_multiline_string_loop fuel result)
    (parser_at (ch :: text) (size_t (offset + 1)) evs).
Proof.
  intros H Hch. cbn [parse_multiline_string_loop].
  erewrite bind_eq by apply input_peek_at.
  change ((BACKSLASH =? CR) || (BACKSLASH =? LF))%char with false. cbv iota.
  erewrite bind_eq by apply input_get_at.
  change (iscontrol BACKSLASH) with false.
  change (BACKSLASH =? DQUOTE)%char with false.
  change (BACKSLASH =? BACKSLASH)%char with true. cbv iota.
  erewrite bind_eq by apply input_peek_at.
  rewrite Hch.
  erewrite bind_eq by (apply last_char_offset_after_get; exact H).
  reflexivity.
Qed.

Lemma process_codepoint_cases codepoint offset output p :
  process_codepoint codepoint offset output p =
  if (0xD800 <=? codepoint) && (codepoint <=? 0xDFFF) then
    Throw (parser_error_t "Surrogate pairs are not allowed" offset) p
  else if 0x10FFFF <? codepoint then
    Throw (parser_error_t "Codepoint must be less or equal than 0x10FFFF" offset) p
  else Done (output ++ string_of_list_ascii (utf8_bytes codepoint))%string p.
Proof.
  unfold process_codepoint.
  destruct ((0xD800 <=? codepoint) && (codepoint <=? 0xDFFF)); [reflexivity|].
  destruct (0x10FFFF <? codepoint); [reflexivity|].
  unfold ret. rewrite push_back_all. reflexivity.
Qed.

Lemma after_escape_eq (loop : string -> M string) codepoint offset result p' :
  (result <- process_codepoint codepoint offset result ;; loop result) p' =
  after_escape loop codepoint offset result p'.
Proof.
  unfold bind, after_escape. rewrite process_codepoint_cases.
  destruct ((0xD800 <=? codepoint) && (codepoint <=? 0xDFFF)); [reflexivity|].
  destruct (0x10FFFF <? codepoint); reflexivity.
Qed.

Lemma bind_congr {A B : Type} (m m' : M A) (k : A -> M B) p p' :
  m p = m' p' -> bind m k p = bind m' k p'.
Proof. unfold bind. intros ->. reflexivity. Qed.

Lemma bind_assoc {A B C : Type} (m : M A) (k : A -> M B) (h : B -> M C) p :
  bind (bind m k) h p = bind m (fun a => bind (k a) h) p.
Proof. unfold bind. destruct (m p); reflexivity. Qed.

Lemma parse_escape_sequence_u offset result text o evs :
  parse_escape_sequence offset result (parser_at ("u"%char :: text) o evs) =
  (codepoint <- parse_4_digit_codepoint ;;
   process_codepoint codepoint offset result) (parser_at text (size_t (o + 1)) evs).
Proof. reflexivity. Qed.

Lemma parse_escape_sequence_U offset result text o evs :
  parse_escape_sequence offset result (parser_at ("U"%char :: text) o evs) =
  (codepoint <- parse_8_digit_codepoint ;;
   process_codepoint codepoint offset result) (parser_at text (size_t (o + 1)) evs).
Proof. reflexivity. Qed.

Lemma unicode_escape_loops fuel result rest offset evs u digits values :
  0 <= offset < 2 ^ 64 - 1 ->
  (u = "u"%char /\ List.length digits = 4%nat) \/
  (u = "U"%char /\ List.length digits = 8%nat) ->
  map hex_value digits = map Some values ->
  let p := parser_at (BACKSLASH :: u :: digits ++ rest) offset evs in
  let p' := parser_at rest (advance offset (2 + List.length digits)) evs in
  parse_basic_string_loop (S fuel) result p =
    after_escape (parse_basic_string_loop fuel) (codepoint_of values) offset result p' /\
  parse_multiline_string_loop (S fuel) result p =
    after_escape (parse_multiline_string_loop fuel) (codepoint_of values) offset
      result p' /\
  0 <= codepoint_of values < 2 ^ 32.
Proof.
  intros Hoff Hu Hdigits p p'. subst p p'.
  destruct Hu as [[-> Hlen]|[-> Hlen]].
  - destruct digits as [|d1 [|d2 [|d3 [|d4 [|]]]]]; try discriminate.
    destruct values as [|v1 [|v2 [|v3 [|v4 [|]]]]]; try discriminate.
    destruct (parse_4_digit_codepoint_at d1 d2 d3 d4 v1 v2 v3 v4 rest
                (advance offset 2) evs Hdigits) as [Hparse Hrange].
    rewrite parse_basic_string_loop_backslash by assumption.
    rewrite parse_multiline_string_loop_backslash by (assumption || reflexivity).
    assert (Hescape : forall loop : string -> M string,
               (result <- parse_escape_sequence offset result ;; loop result)
                 (parser_at ("u"%char :: [d1; d2; d3; d4] ++ rest)
                    (size_t (offset + 1)) evs) =
               after_escape loop (codepoint_of [v1; v2; v3; v4]) offset result
                 (parser_at rest (advance offset 6) evs)).
    { intros loop. rewrite <- after_escape_eq.
      erewrite bind_congr by apply parse_escape_sequence_u.
      rewrite bind_assoc. erewrite bind_eq by apply Hparse. reflexivity. }
    split; [apply Hescape|]. split; [apply Hescape|]. lia.
  - destruct digits as [|d1 [|d2 [|d3 [|d4 [|d5 [|d6 [|d7 [|d8 [|]]]]]]]]];
      try discriminate.
    destruct values as [|v1 [|v2 [|v3 [|v4 [|v5 [|v6 [|v7 [|v8 [|]]]]]]]]];
      try discriminate.
    destruct (parse_8_digit_codepoint_at d1 d2 d3 d4 d5 d6 d7 d8
                v1 v2 v3 v4 v5 v6 v7 v8 rest (advance offset 2) evs Hdigits)
      as [Hparse Hrange].
    rewrite parse_basic_string_loop_backslash by assumption.
    rewrite parse_multiline_string_loop_backslash by (assumption || reflexivity).
    assert (Hescape : forall loop : string -> M string,
               (result <- parse_escape_sequence offset result ;; loop result)
                 (parser_at ("U"%char :: [d1; d2; d3; d4; d5; d6; d7; d8] ++ rest)
                    (size_t (offset + 1)) evs) =
               after_escape loop (codepoint_of [v1; v2; v3; v4; v5; v6; v7; v8])
                 offset result (parser_at rest (advance offset 10) evs)).
    { intros loop. rewrite <- after_escape_eq.
      erewrite bind_congr by apply parse_escape_sequence_U.
      rewrite bind_assoc. erewrite bind_eq by apply Hparse. reflexivity. }
    split; [apply Hescape|]. split; [apply Hescape|]. exact Hrange.
Qed.

(** C3: a backslash at stream offset [offset], followed by [u] and four
    hexadecimal digits or by [U] and eight, inside a basic or a multiline
    basic string.  When the code point the digits stand for is a surrogate
    (0xD800 to 0xDFFF) or lies above 0x10FFFF, both string loops fail with
    an error whose offset is that of the backslash; otherwise both go on
    behind the escape with the UTF-8 encoding of the code point appended
    to the string: one byte up to 0x7F, two up to 0x7FF, three up to
    0xFFFF, four above, which decode back to the code point. *)
Theorem unicode_escape_code_points fuel result rest offset evs u digits values :
  0 <= offset < 2 ^ 64 - 1 ->
  (u = "u"%char /\ List.length digits = 4%nat) \/
  (u = "U"%char /\ List.length digits = 8%nat) ->
  map hex_value digits = map Some values ->
  let codepoint := codepoint_of values in
  let p := parser_at (BACKSLASH :: u :: digits ++ rest) offset evs in
  let p' := parser_at rest (advance offset (2 + List.length digits)) evs in
  if (0xD800 <=? codepoint) && (codepoint <=? 0xDFFF) then
    let e := parser_error_t "Surrogate pairs are not allowed" offset in
    parse_basic_string_loop (S fuel) result p = Throw e p' /\
    parse_multiline_string_loop (S fuel) result p = Throw e p'
  else if 0x10FFFF <? codepoint then
    let e :=
      parser_error_t "Codepoint must be less or equal than 0x10FFFF" offset in
    parse_basic_string_loop (S fuel) result p = Throw e p' /\
    parse_multiline_string_loop (S fuel) result p = Throw e p'
  else
    let encoded := utf8_bytes codepoint in
    let output := (result ++ string_of_list_ascii encoded)%string in
    parse_basic_string_loop (S fuel) result p =
      parse_basic_string_loop fuel output p' /\
    parse_multiline_string_loop (S fuel) result p =
      parse_multiline_string_loop fuel output p' /\
    utf8_decode_reference (map uchar encoded) = Some codepoint /\
    List.length encoded =
      (if codepoint <=? 0x7F then 1%nat
       else if codepoint <=? 0x7FF then 2%nat
       else if codepoint <=? 0xFFFF then 3%nat else 4%nat).
Proof.
  intros Hoff Hu Hdigits codepoint p p'.
  destruct (unicode_escape_loops fuel result rest offset evs u digits values
              Hoff Hu Hdigits) as [Hbasic [Hmulti Hrange]].
  fold codepoint p p' in Hbasic, Hmulti, Hrange.
  unfold after_escape in Hbasic, Hmulti.
  destruct ((0xD800 <=? codepoint) && (codepoint <=? 0xDFFF)).
  { split; assumption. }
  destruct (0x10FFFF <? codepoint) eqn:Hmax.
  { split; assumption. }
  apply Z.ltb_ge in Hmax.
  destruct (utf8_bytes_decode codepoint ltac:(lia)) as [Hdecode Hlength].
  repeat split; assumption.
Qed.

(** ** Multiline basic strings *)

(** C5: after the opening delimiter of a multiline basic string one line
    terminator (LF, or CR LF) is consumed and adds nothing to the string;
    a line terminator met later in the string adds the single byte LF.
    So the string of a line feed and foo between the delimiters is foo,
    and with two line feeds before foo it is a line feed and foo. *)
Theorem multiline_string_newlines fuel result rest offset evs :
  parse_multiline_string fuel (parser_at (LF :: rest) offset evs) =
    parse_multiline_string_loop fuel "" (parser_at rest (advance offset 1) evs) /\
  parse_multiline_string fuel (parser_at (CR :: LF :: rest) offset evs) =
    parse_multiline_string_loop fuel "" (parser_at rest (advance offset 2) evs) /\
  parse_multiline_string_loop (S fuel) result (parser_at (LF :: rest) offset evs) =
    parse_multiline_string_loop fuel (push_back result LF)
      (parser_at rest (advance offset 1) evs) /\
  parse_multiline_string_loop (S fuel) result
      (parser_at (CR :: LF :: rest) offset evs) =
    parse_multiline_string_loop fuel (push_back result LF)
      (parser_at rest (advance offset 2) evs) /\
  parse_string (10 + fuel)
    (parser_at
       ([DQUOTE; DQUOTE; DQUOTE; LF] ++ bytes "foo" ++ [DQUOTE; DQUOTE; DQUOTE])
       0 []) =
    Done tt (parser_at [] 10 [Handler.string "foo"]) /\
  parse_string (10 + fuel)
    (parser_at
       ([DQUOTE; DQUOTE; DQUOTE; LF; LF] ++ bytes "foo" ++ [DQUOTE; DQUOTE; DQUOTE])
       0 []) =
    Done tt (parser_at [] 11 [Handler.string (String LF "foo")]).
Proof.
  repeat split; try reflexivity; vm_compute; reflexivity.
Qed.

Lemma parse_new_line_LF_at text offset evs :
  parse_new_line (parser_at (LF :: text) offset evs) =
  Done tt (parser_at text (size_t (offset + 1)) evs).
Proof. reflexivity. Qed.

Lemma parse_new_line_CR_LF_at text offset evs :
  parse_new_line (parser_at (CR :: LF :: text) offset evs) =
  Done tt (parser_at text (size_t (size_t (offset + 1) + 1)) evs).
Proof. reflexivity. Qed.

Lemma advance_succ_r offset n :
  advance (size_t (offset + 1)) n = advance offset (S n).
Proof.
  unfold advance. induction n as [|n IH]; simpl; [reflexivity|].
  simpl in IH. rewrite IH. reflexivity.
Qed.

Lemma skip_isspace_loop_at fuel spaces ch rest offset evs :
  forallb isspace spaces = true ->
  isspace ch = false ->
  (List.length spaces < fuel)%nat ->
  skip_isspace_loop fuel (parser_at (spaces ++ ch :: rest) offset evs) =
  Done tt (parser_at (ch :: rest) (advance offset (List.length spaces)) evs).
Proof.
  revert fuel offset.
  induction spaces as [|sp spaces IH]; intros fuel offset Hspaces Hch Hfuel.
  - destruct fuel as [|fuel]; [simpl in Hfuel; lia|].
    cbn [skip_isspace_loop app]. erewrite bind_eq by apply input_peek_at.
    rewrite Hch. reflexivity.
  - destruct fuel as [|fuel]; [simpl in Hfuel; lia|].
    simpl in Hspaces. apply andb_true_iff in Hspaces. destruct Hspaces as [Hsp Hspaces].
    cbn [skip_isspace_loop app]. erewrite bind_eq by apply input_peek_at.
    rewrite Hsp. erewrite bind_eq by apply input_get_at.
    rewrite IH by (assumption || (simpl in Hfuel; lia)).
    rewrite advance_succ_r. reflexivity.
Qed.

(** C6: in a multiline basic string a backslash followed by a line
    terminator consumes the terminator and all the white space after it
    and adds nothing to the string: the loop goes on at the first byte
    that is not white space with the string unchanged.  So a, backslash,
    line feed, three blanks and b between the delimiters give ab. *)
Theorem multiline_string_line_splicing fuel :
  (forall result newline spaces ch rest offset evs,
      newline = [LF] \/ newline = [CR; LF] ->
      forallb isspace spaces = true ->
      isspace ch = false ->
      (List.length spaces < fuel)%nat ->
      parse_multiline_string_loop (S fuel) result
        (parser_at (BACKSLASH :: newline ++ spaces ++ ch :: rest) offset evs) =
      parse_multiline_string_loop fuel result
        (parser_at (ch :: rest)
           (advance offset (1 + List.length newline + List.length spaces)) evs)) /\
  parse_string (20 + fuel)
    (parser_at
       ([DQUOTE; DQUOTE; DQUOTE] ++ bytes "a" ++ [BACKSLASH; LF] ++ bytes "   b" ++
          [DQUOTE; DQUOTE; DQUOTE])
       0 []) =
    Done tt (parser_at [] 13 [Handler.string "ab"]).
Proof.
  split; [|vm_compute; reflexivity].
  intros result newline spaces ch rest offset evs Hnl Hspaces Hch Hfuel.
  cbn [parse_multiline_string_loop].
  erewrite bind_eq by apply input_peek_at.
  change ((BACKSLASH =? CR) || (BACKSLASH =? LF))%char with false. cbv iota.
  erewrite bind_eq by apply input_get_at.
  change (iscontrol BACKSLASH) with false.
  change (BACKSLASH =? DQUOTE)%char with false.
  change (BACKSLASH =? BACKSLASH)%char with true. cbv iota.
  destruct Hnl as [-> | ->].
  - cbn [app]. erewrite bind_eq by apply input_peek_at.
    change ((LF =? CR) || (LF =? LF))%char with true. cbv iota.
    erewrite bind_eq by apply parse_new_line_LF_at.
    erewrite bind_eq by (apply skip_isspace_loop_at; assumption).
    rewrite !advance_succ_r. reflexivity.
  - cbn [app]. erewrite bind_eq by apply input_peek_at.
    change ((CR =? CR) || (CR =? LF))%char with true. cbv iota.
    erewrite bind_eq by apply parse_new_line_CR_LF_at.
    erewrite bind_eq by (apply skip_isspace_loop_at; assumption).
    rewrite !advance_succ_r. reflexivity.
Qed.

(** ** Bare tokens *)

(** C1 (the code departs from the claim): the token [1z2] matches the
    float pattern of the source, whose dot is not escaped and stands for
    any character, and not the integer pattern; so value dispatch hands it
    to [std::stod] and delivers it as [floating_point] (or the
    conversion's exception leaves the parser), and no "Invalid value"
    error is raised. *)
Theorem bare_token_1z2_is_floating_point fuel offset evs :
  Regex.regex_match "1z2" integer_regex = false /\
  Regex.regex_match "1z2" float_regex = true /\
  parse_value (10 + fuel) (parser_at (bytes "1z2" ++ [LF]) offset evs) =
  match stod "1z2" with
  | inr value =>
      Done toml_type_t.floating_point
        (parser_at [LF] (advance offset 3) (evs ++ [Handler.floating_point value]))
  | inl e => Throw (std_error e) (parser_at [LF] (advance offset 3) evs)
  end.
Proof.
  split; [vm_compute; reflexivity|]. split; [vm_compute; reflexivity|].
  cbn [parse_value Nat.add bytes list_ascii_of_string app].
  erewrite bind_eq by apply input_peek_at.
  change ("1" =? "{")%char with false. change ("1" =? "[")%char with false.
  change ("1" =? DQUOTE)%char with false. change ("1" =? SQUOTE)%char with false.
  cbv iota. unfold parse_bool_or_number_or_symbol.
  erewrite bind_eq by apply input_get_at.
  change (negb (is_word_character "1")) with false. cbv iota.
  assert (Hword : parse_word_loop (9 + fuel) (push_back "" "1")
                    (parser_at ["z"; "2"; LF]%char (size_t (offset + 1)) evs) =
                  Done "1z2" (parser_at [LF] (advance offset 3) evs)).
  { cbn [parse_word_loop Nat.add].
    erewrite bind_eq by apply input_peek_at.
    change (is_word_character "z") with true. cbv iota.
    erewrite bind_eq by apply input_get_at.
    erewrite bind_eq by apply input_peek_at.
    change (is_word_character "2") with true. cbv iota.
    erewrite bind_eq by apply input_get_at.
    erewrite bind_eq by apply input_peek_at.
    change (is_word_character LF) with false. cbv iota.
    reflexivity. }
  erewrite bind_eq by apply Hword.
  change ("1z2" =? "true")%string with false.
  change ("1z2" =? "false")%string with false.
  replace (Regex.regex_match "1z2" integer_regex) with false
    by (vm_compute; reflexivity).
  replace (Regex.regex_match "1z2" float_regex) with true
    by (vm_compute; reflexivity).
  cbv iota. unfold bind, convert.
  destruct (stod "1z2") as [e|value]; reflexivity.
Qed.

(** The scan of a bare token reads the whole run of word characters. *)
Lemma parse_word_loop_at fuel result token ch rest offset evs :
  forallb is_word_character token = true ->
  is_word_character ch = false ->
  (List.length token < fuel)%nat ->
  parse_word_loop fuel result (parser_at (token ++ ch :: rest) offset evs) =
  Done (fold_left push_back token result)
    (parser_at (ch :: rest) (advance offset (List.length token)) evs).
Proof.
  revert fuel result offset.
  induction token as [|c token IH]; intros fuel result offset Htoken Hch Hfuel.
  - destruct fuel as [|fuel]; [simpl in Hfuel; lia|].
    cbn [parse_word_loop app]. erewrite bind_eq by apply input_peek_at.
    rewrite Hch. reflexivity.
  - destruct fuel as [|fuel]; [simpl in Hfuel; lia|].
    simpl in Htoken. apply andb_true_iff in Htoken. destruct Htoken as [Hc Htoken].
    cbn [parse_word_loop app]. erewrite bind_eq by apply input_peek_at.
    rewrite Hc. erewrite bind_eq by apply input_get_at.
    rewrite IH by (assumption || (simpl in Hfuel; lia)).
    rewrite advance_succ_r. reflexivity.
Qed.

(** A token no pattern accepts: whatever the offset at which it starts,
    the error carries the offset 0. *)
Lemma unclassified_token_error fuel first token ch rest offset evs :
  is_word_character first = true ->
  forallb is_word_character token = true ->
  is_word_character ch = false ->
  (List.length token < fuel)%nat ->
  let result := fold_left push_back token (push_back "" first) in
  (result =? "true")%string = false ->
  (result =? "false")%string = false ->
  Regex.regex_match result integer_regex = false ->
  Regex.regex_match result float_regex = false ->
  Regex.regex_match result symbol_regex = false ->
  parse_bool_or_number_or_symbol fuel
    (parser_at (first :: token ++ ch :: rest) offset evs) =
  Throw (parser_error_t "Invalid value" 0)
    (parser_at (ch :: rest) (advance offset (S (List.length token))) evs).
Proof.
  intros Hfirst Htoken Hch Hfuel result Htrue Hfalse Hint Hfloat Hsym.
  unfold parse_bool_or_number_or_symbol.
  erewrite bind_eq by apply input_get_at.
  rewrite Hfirst. cbn [negb].
  erewrite bind_eq by (apply parse_word_loop_at; eassumption).
  fold result. rewrite Htrue, Hfalse, Hint, Hfloat, Hsym.
  rewrite advance_succ_r. reflexivity.
Qed.

(** C7 (the code departs from the claim): a bare token that matches none
    of the patterns raises "Invalid value" with the offset 0, whatever the
    offset of its first byte.  In the document with the key x and the
    token [1.2.3] the token starts at offset 4 and the error carries 0. *)
Theorem invalid_value_offset_is_zero fuel :
  (forall first token ch rest offset evs,
      is_word_character first = true ->
      forallb is_word_character token = true ->
      is_word_character ch = false ->
      (List.length token < fuel)%nat ->
      let result := fold_left push_back token (push_back "" first) in
      (result =? "true")%string = false ->
      (result =? "false")%string = false ->
      Regex.regex_match result integer_regex = false ->
      Regex.regex_match result float_regex = false ->
      Regex.regex_match result symbol_regex = false ->
      parse_value (S fuel) (parser_at (first :: token ++ ch :: rest) offset evs) =
      Throw (parser_error_t "Invalid value" 0)
        (parser_at (ch :: rest) (advance offset (S (List.length token))) evs)) /\
  nth_error (bytes "x = 1.2.3" ++ [LF]) 4 = Some "1"%char /\
  loltoml_parse (10 + fuel) (bytes "x = 1.2.3" ++ [LF]) =
  Throw (parser_error_t "Invalid value" 0)
    (parser_at [LF] 9 [Handler.start_document; Handler.key "x"]).
Proof.
  split; [|split; vm_compute; reflexivity].
  intros first token ch rest offset evs Hfirst Htoken Hch Hfuel result
    Htrue Hfalse Hint Hfloat Hsym.
  cbn [parse_value]. erewrite bind_eq by apply input_peek_at.
  assert (Hnot : forall c, is_word_character c = false -> (first =? c)%char = false).
  { intros c Hc. destruct (first =? c)%char eqn:E; [|reflexivity].
    apply Ascii.eqb_eq in E. congruence. }
  rewrite !Hnot by reflexivity.
  apply unclassified_token_error; assumption.
Qed.

(** ** Fuel

    The fuel only bounds the unrolling of the loops: more fuel never
    changes an outcome that was reached, and fuel in proportion to the
    length of the input always suffices. *)

Lemma refines_refl {A : Type} (m : M A) : refines m m.
Proof. intros p. right. reflexivity. Qed.

Lemma refines_out_of_fuel {A : Type} (m : M A) : refines out_of_fuel m.
Proof. intros p. left. reflexivity. Qed.

Lemma refines_bind {A B : Type} (m m' : M A) (k k' : A -> M B) :
  refines m m' -> (forall a, refines (k a) (k' a)) ->
  refines (bind m k) (bind m' k').
Proof.
  intros Hm Hk p. unfold bind.
  destruct (Hm p) as [E|E]; rewrite E; [left; reflexivity|].
  destruct (m' p) as [a p1| |]; [apply Hk|right; reflexivity|left; reflexivity].
Qed.

Create HintDb stable.

(** Decomposes a goal [refines m m'] along the common shape of [m] and
    [m']. *)
Ltac refines_step :=
  match goal with
  | |- refines ?m ?m => apply refines_refl
  | |- refines out_of_fuel _ => apply refines_out_of_fuel
  | |- refines (bind _ _) (bind _ _) => apply refines_bind; [|intros ?]
  | |- refines (if ?c then _ else _) (if ?c then _ else _) => destruct c
  | |- refines _ _ => solve [auto with nocore stable]
  end.

Ltac refines_tac := repeat refines_step.

(** A loop on fuel refines itself at any larger fuel. *)
Ltac stable_loop fuel :=
  let IH := fresh "IH" in
  let fuel' := fresh "fuel'" in
  let H := fresh "H" in
  induction fuel as [|fuel IH]; intros fuel' H;
  [intros; apply refines_out_of_fuel|];
  destruct fuel' as [|fuel']; [inversion H|];
  apply le_S_n in H; intros; simpl; refines_tac.

Lemma skip_spaces_stable fuel :
  forall fuel', (fuel <= fuel')%nat -> refines (skip_spaces fuel) (skip_spaces fuel').
Proof. stable_loop fuel. Qed.
Hint Resolve skip_spaces_stable : stable.

Lemma parse_comment_loop_stable fuel :
  forall fuel', (fuel <= fuel')%nat -> forall comment,
    refines (parse_comment_loop fuel comment) (parse_comment_loop fuel' comment).
Proof. stable_loop fuel. Qed.
Hint Resolve parse_comment_loop_stable : stable.

Lemma parse_comment_stable fuel :
  forall fuel', (fuel <= fuel')%nat -> refines (parse_comment fuel) (parse_comment fuel').
Proof. intros fuel' H. unfold parse_comment. refines_tac. Qed.
Hint Resolve parse_comment_stable : stable.

Lemma skip_spaces_and_empty_lines_stable fuel :
  forall fuel', (fuel <= fuel')%nat ->
    refines (skip_spaces_and_empty_lines fuel) (skip_spaces_and_empty_lines fuel').
Proof. stable_loop fuel. Qed.
Hint Resolve skip_spaces_and_empty_lines_stable : stable.

Lemma parse_basic_string_loop_stable fuel :
  forall fuel', (fuel <= fuel')%nat -> forall result,
    refines (parse_basic_string_loop fuel result) (parse_basic_string_loop fuel' result).
Proof. stable_loop fuel. Qed.
Hint Resolve parse_basic_string_loop_stable : stable.

Lemma parse_basic_string_stable fuel :
  forall fuel', (fuel <= fuel')%nat ->
    refines (parse_basic_string fuel) (parse_basic_string fuel').
Proof. intros fuel' H. unfold parse_basic_string. refines_tac. Qed.
Hint Resolve parse_basic_string_stable : stable.

Lemma skip_isspace_loop_stable fuel :
  forall fuel', (fuel <= fuel')%nat ->
    refines (skip_isspace_loop fuel) (skip_isspace_loop fuel').
Proof. stable_loop fuel. Qed.
Hint Resolve skip_isspace_loop_stable : stable.

Lemma parse_multiline_string_loop_stable fuel :
  forall fuel', (fuel <= fuel')%nat -> forall result,
    refines (parse_multiline_string_loop fuel result)
      (parse_multiline_string_loop fuel' result).
Proof. stable_loop fuel. Qed.
Hint Resolve parse_multiline_string_loop_stable : stable.

Lemma parse_multiline_string_stable fuel :
  forall fuel', (fuel <= fuel')%nat ->
    refines (parse_multiline_string fuel) (parse_multiline_string fuel').
Proof. intros fuel' H. unfold parse_multiline_string. refines_tac. Qed.
Hint Resolve parse_multiline_string_stable : stable.

Lemma parse_string_stable fuel :
  forall fuel', (fuel <= fuel')%nat -> refines (parse_string fuel) (parse_string fuel').
Proof. intros fuel' H. unfold parse_string. refines_tac. Qed.
Hint Resolve parse_string_stable : stable.

Lemma parse_multiline_literal_string_loop_stable fuel :
  forall fuel', (fuel <= fuel')%nat -> forall string,
    refines (parse_multiline_literal_string_loop fuel string)
      (parse_multiline_literal_string_loop fuel' string).
Proof. stable_loop fuel. Qed.
Hint Resolve parse_multiline_literal_string_loop_stable : stable.

Lemma parse_literal_string_loop_stable fuel :
  forall fuel', (fuel <= fuel')%nat -> forall string,
    refines (parse_literal_string_loop fuel string)
      (parse_literal_string_loop fuel' string).
Proof. stable_loop fuel. Qed.
Hint Resolve parse_literal_string_loop_stable : stable.

Lemma parse_literal_string_stable fuel :
  forall fuel', (fuel <= fuel')%nat ->
    refines (parse_literal_string fuel) (parse_literal_string fuel').
Proof. intros fuel' H. unfold parse_literal_string. refines_tac. Qed.
Hint Resolve parse_literal_string_stable : stable.

Lemma parse_key_loop_stable fuel :
  forall fuel', (fuel <= fuel')%nat -> forall key,
    refines (parse_key_loop fuel key) (parse_key_loop fuel' key).
Proof. stable_loop fuel. Qed.
Hint Resolve parse_key_loop_stable : stable.

Lemma parse_key_stable fuel :
  forall fuel', (fuel <= fuel')%nat -> refines (parse_key fuel) (parse_key fuel').
Proof. intros fuel' H. unfold parse_key. refines_tac. Qed.
Hint Resolve parse_key_stable : stable.

Lemma parse_word_loop_stable fuel :
  forall fuel', (fuel <= fuel')%nat -> forall result,
    refines (parse_word_loop fuel result) (parse_word_loop fuel' result).
Proof. stable_loop fuel. Qed.
Hint Resolve parse_word_loop_stable : stable.

Lemma parse_bool_or_number_or_symbol_stable fuel :
  forall fuel', (fuel <= fuel')%nat ->
    refines (parse_bool_or_number_or_symbol fuel)
      (parse_bool_or_number_or_symbol fuel').
Proof. intros fuel' H. unfold parse_bool_or_number_or_symbol. refines_tac. Qed.
Hint Resolve parse_bool_or_number_or_symbol_stable : stable.

Lemma parse_value_family_stable fuel :
  forall fuel', (fuel <= fuel')%nat ->
    refines (parse_value fuel) (parse_value fuel') /\
    refines (parse_array fuel) (parse_array fuel') /\
    (forall array_type size,
        refines (parse_array_loop fuel array_type size)
          (parse_array_loop fuel' array_type size)) /\
    refines (parse_inline_table fuel) (parse_inline_table fuel') /\
    (forall size,
        refines (parse_inline_table_loop fuel size)
          (parse_inline_table_loop fuel' size)).
Proof.
  induction fuel as [|fuel IH]; intros fuel' H.
  - repeat split; intros; apply refines_out_of_fuel.
  - destruct fuel' as [|fuel']; [inversion H|]. apply le_S_n in H.
    destruct (IH fuel' H) as (IHv & IHa & IHal & IHt & IHtl).
    repeat split; intros; simpl; refines_tac.
Qed.

Lemma parse_value_stable fuel :
  forall fuel', (fuel <= fuel')%nat -> refines (parse_value fuel) (parse_value fuel').
Proof. intros fuel' H. apply (parse_value_family_stable fuel fuel' H). Qed.
Hint Resolve parse_value_stable : stable.

Lemma parse_table_header_loop_stable fuel :
  forall fuel', (fuel <= fuel')%nat -> forall array_item path,
    refines (parse_table_header_loop fuel array_item path)
      (parse_table_header_loop fuel' array_item path).
Proof. stable_loop fuel. Qed.
Hint Resolve parse_table_header_loop_stable : stable.

Lemma parse_table_header_stable fuel :
  forall fuel', (fuel <= fuel')%nat ->
    refines (parse_table_header fuel) (parse_table_header fuel').
Proof. intros fuel' H. unfold parse_table_header. refines_tac. Qed.
Hint Resolve parse_table_header_stable : stable.

Lemma parse_kv_pair_stable fuel :
  forall fuel', (fuel <= fuel')%nat ->
    refines (parse_kv_pair fuel) (parse_kv_pair fuel').
Proof. intros fuel' H. unfold parse_kv_pair. refines_tac. Qed.
Hint Resolve parse_kv_pair_stable : stable.

Lemma parse_trailing_comment_stable fuel :
  forall fuel', (fuel <= fuel')%nat ->
    refines (parse_trailing_comment fuel) (parse_trailing_comment fuel').
Proof. intros fuel' H. unfold parse_trailing_comment. refines_tac. Qed.
Hint Resolve parse_trailing_comment_stable : stable.

Lemma parse_expression_stable fuel :
  forall fuel', (fuel <= fuel')%nat ->
    refines (parse_expression fuel) (parse_expression fuel').
Proof. intros fuel' H. unfold parse_expression. refines_tac. Qed.
Hint Resolve parse_expression_stable : stable.

Lemma parse_loop_stable fuel :
  forall fuel', (fuel <= fuel')%nat -> refines (parse_loop fuel) (parse_loop fuel').
Proof. stable_loop fuel. Qed.
Hint Resolve parse_loop_stable : stable.

(** An outcome reached with some fuel is the outcome with any more. *)
Lemma parse_stable fuel fuel' :
  (fuel <= fuel')%nat -> refines (parse fuel) (parse fuel').
Proof. intros H. unfold parse. refines_tac. Qed.

Lemma runs_ret {A : Type} (a : A) p : runs (ret a) p.
Proof. discriminate. Qed.

Lemma runs_throw {A : Type} e p : runs (@throw A e) p.
Proof. discriminate. Qed.

Lemma runs_bind {A B : Type} (m : M A) (k : A -> M B) p :
  runs m p -> (forall a q, m p = Done a q -> runs (k a) q) -> runs (bind m k) p.
Proof.
  unfold runs, bind. intros Hm Hk.
  destruct (m p) as [a q| |]; [apply Hk; reflexivity|discriminate|contradiction].
Qed.

Lemma runs_input_eof p : runs input_eof p.
Proof. discriminate. Qed.

Lemma runs_input_peek p : runs input_peek p.
Proof. discriminate. Qed.

Lemma runs_input_processed p : runs input_processed p.
Proof. discriminate. Qed.

Lemma runs_emit e p : runs (emit e) p.
Proof. discriminate. Qed.

Lemma runs_input_get p : runs input_get p.
Proof.
  unfold runs, input_get.
  destruct (input_stream_t.get eof_message (input p)) as [e|[ch i]]; discriminate.
Qed.

Lemma runs_convert {A : Type} (r : std_exception + A) p : runs (convert r) p.
Proof. destruct r; discriminate. Qed.

Create HintDb runs.
Hint Resolve @runs_ret @runs_throw runs_input_eof runs_input_peek
  runs_input_processed runs_emit runs_input_get @runs_convert : runs.

(** What a call that returned did to the unread input. *)
Ltac shrink_in E :=
  match type of E with
  | input_get _ = _ => destruct (advances_input_get _ _ _ E) as [_ ?]
  | parse_chars _ _ = _ => destruct (advances_parse_chars _ _ _ _ E) as [_ ?]
  | parse_new_line _ = _ => destruct (advances_parse_new_line _ _ _ E) as [_ ?]
  | emit _ _ = _ => destruct (emit_Done _ _ _ _ E) as [_ ?]
  | parse_comment _ _ = _ => destruct (parse_comment_emits _ _ _ _ E) as [? _]
  | skip_spaces_and_empty_lines _ _ = _ =>
      destruct (skip_spaces_and_empty_lines_emits _ _ _ _ E) as [? _]
  | parse_value _ _ = _ =>
      destruct (parse_value_emits _ _ _ _ E ltac:(lia)) as [? _]
  | parse_table_header _ _ = _ =>
      destruct (parse_table_header_emits _ _ _ _ E) as [? _]
  | parse_kv_pair _ _ = _ =>
      destruct (parse_kv_pair_emits _ _ _ _ E ltac:(lia)) as [? _]
  | _ => first [quiet_in E|idtac]
  end.

(** Runs a goal [runs m p] along the binds and branches of [m], keeping
    what each call that returned did to the input; [leaf] closes the calls
    of fuelled functions. *)
Ltac runs_with leaf :=
  repeat match goal with
         | |- runs (bind _ _) _ =>
             apply runs_bind;
             [|let a := fresh "a" in
               let q := fresh "q" in
               let E := fresh "E" in
               intros a q E; shrink_in E]
         | |- runs (if ?c then _ else _) _ => destruct c
         | |- runs _ _ => solve [auto with nocore runs]
         | |- runs _ _ => solve [leaf]
         end.

Lemma runs_last_char_offset p : runs last_char_offset p.
Proof. unfold last_char_offset. runs_with fail. Qed.
Hint Resolve runs_last_char_offset : runs.

Lemma runs_parser_error {A : Type} message p : runs (@parser_error A message) p.
Proof. unfold parser_error. runs_with fail. Qed.
Hint Resolve @runs_parser_error : runs.

Lemma runs_parse_chars expected p : runs (parse_chars expected) p.
Proof. unfold parse_chars. runs_with fail. Qed.
Hint Resolve runs_parse_chars : runs.

Lemma runs_parse_new_line p : runs parse_new_line p.
Proof. unfold parse_new_line. runs_with fail. Qed.
Hint Resolve runs_parse_new_line : runs.

Lemma runs_parse_hex_digit p : runs parse_hex_digit p.
Proof. unfold parse_hex_digit. runs_with fail. Qed.
Hint Resolve runs_parse_hex_digit : runs.

Lemma runs_next_hex_digit codepoint p : runs (next_hex_digit codepoint) p.
Proof. unfold next_hex_digit. runs_with fail. Qed.
Hint Resolve runs_next_hex_digit : runs.

Lemma runs_parse_4_digit_codepoint p : runs parse_4_digit_codepoint p.
Proof. unfold parse_4_digit_codepoint. runs_with fail. Qed.

Lemma runs_parse_8_digit_codepoint p : runs parse_8_digit_codepoint p.
Proof. unfold parse_8_digit_codepoint. runs_with fail. Qed.
Hint Resolve runs_parse_4_digit_codepoint runs_parse_8_digit_codepoint : runs.

Lemma runs_process_codepoint codepoint offset output p :
  runs (process_codepoint codepoint offset output) p.
Proof. unfold process_codepoint. runs_with fail. Qed.
Hint Resolve runs_process_codepoint : runs.

Lemma runs_parse_escape_sequence offset result p :
  runs (parse_escape_sequence offset result) p.
Proof. unfold parse_escape_sequence. runs_with fail. Qed.
Hint Resolve runs_parse_escape_sequence : runs.

Lemma skip_spaces_runs fuel p :
  (remaining p < fuel)%nat -> runs (skip_spaces fuel) p.
Proof.
  revert p. induction fuel as [|fuel IH]; intros p H; [lia|].
  simpl. runs_with ltac:(apply IH; lia).
Qed.
Hint Extern 1 (runs (skip_spaces _) _) => apply skip_spaces_runs; lia : runs.

Lemma parse_comment_loop_runs fuel comment p :
  (remaining p < fuel)%nat -> runs (parse_comment_loop fuel comment) p.
Proof.
  revert comment p. induction fuel as [|fuel IH]; intros comment p H; [lia|].
  simpl. runs_with ltac:(apply IH; lia).
Qed.
Hint Extern 1 (runs (parse_comment_loop _ _) _) =>
  apply parse_comment_loop_runs; lia : runs.

Lemma parse_comment_runs fuel p :
  (remaining p < fuel)%nat -> runs (parse_comment fuel) p.
Proof. intros H. unfold parse_comment. runs_with fail. Qed.
Hint Extern 1 (runs (parse_comment _) _) => apply parse_comment_runs; lia : runs.

Lemma skip_spaces_and_empty_lines_runs fuel p :
  (remaining p + 2 <= fuel)%nat -> runs (skip_spaces_and_empty_lines fuel) p.
Proof.
  revert p. induction fuel as [|fuel IH]; intros p H; [lia|].
  simpl. runs_with ltac:(apply IH; lia).
Qed.
Hint Extern 1 (runs (skip_spaces_and_empty_lines _) _) =>
  apply skip_spaces_and_empty_lines_runs; lia : runs.

Lemma parse_basic_string_loop_runs fuel result p :
  (remaining p < fuel)%nat -> runs (parse_basic_string_loop fuel result) p.
Proof.
  revert result p. induction fuel as [|fuel IH]; intros result p H; [lia|].
  simpl. runs_with ltac:(apply IH; lia).
Qed.
Hint Extern 1 (runs (parse_basic_string_loop _ _) _) =>
  apply parse_basic_string_loop_runs; lia : runs.

Lemma parse_basic_string_runs fuel p :
  (remaining p < fuel)%nat -> runs (parse_basic_string fuel) p.
Proof. intros H. unfold parse_basic_string. runs_with fail. Qed.
Hint Extern 1 (runs (parse_basic_string _) _) =>
  apply parse_basic_string_runs; lia : runs.

Lemma skip_isspace_loop_runs fuel p :
  (remaining p < fuel)%nat -> runs (skip_isspace_loop fuel) p.
Proof.
  revert p. induction fuel as [|fuel IH]; intros p H; [lia|].
  simpl. runs_with ltac:(apply IH; lia).
Qed.
Hint Extern 1 (runs (skip_isspace_loop _) _) =>
  apply skip_isspace_loop_runs; lia : runs.

Lemma parse_multiline_string_loop_runs fuel result p :
  (remaining p < fuel)%nat -> runs (parse_multiline_string_loop fuel result) p.
Proof.
  revert result p. induction fuel as [|fuel IH]; intros result p H; [lia|].
  simpl. runs_with ltac:(apply IH; lia).
Qed.
Hint Extern 1 (runs (parse_multiline_string_loop _ _) _) =>
  apply parse_multiline_string_loop_runs; lia : runs.

Lemma parse_multiline_string_runs fuel p :
  (remaining p < fuel)%nat -> runs (parse_multiline_string fuel) p.
Proof. intros H. unfold parse_multiline_string. runs_with fail. Qed.
Hint Extern 1 (runs (parse_multiline_string _) _) =>
  apply parse_multiline_string_runs; lia : runs.

Lemma parse_string_runs fuel p :
  (remaining p < fuel)%nat -> runs (parse_string fuel) p.
Proof. intros H. unfold parse_string. runs_with fail. Qed.
Hint Extern 1 (runs (parse_string _) _) => apply parse_string_runs; lia : runs.

Lemma parse_multiline_literal_string_loop_runs fuel string p :
  (remaining p < fuel)%nat ->
  runs (parse_multiline_literal_string_loop fuel string) p.
Proof.
  revert string p. induction fuel as [|fuel IH]; intros string p H; [lia|].
  simpl. runs_with ltac:(apply IH; lia).
Qed.
Hint Extern 1 (runs (parse_multiline_literal_string_loop _ _) _) =>
  apply parse_multiline_literal_string_loop_runs; lia : runs.

Lemma parse_literal_string_loop_runs fuel string p :
  (remaining p < fuel)%nat -> runs (parse_literal_string_loop fuel string) p.
Proof.
  revert string p. induction fuel as [|fuel IH]; intros string p H; [lia|].
  simpl. runs_with ltac:(apply IH; lia).
Qed.
Hint Extern 1 (runs (parse_literal_string_loop _ _) _) =>
  apply parse_literal_string_loop_runs; lia : runs.

Lemma parse_literal_string_runs fuel p :
  (remaining p < fuel)%nat -> runs (parse_literal_string fuel) p.
Proof. intros H. unfold parse_literal_string. runs_with fail. Qed.
Hint Extern 1 (runs (parse_literal_string _) _) =>
  apply parse_literal_string_runs; lia : runs.

Lemma parse_key_loop_runs fuel key p :
  (remaining p < fuel)%nat -> runs (parse_key_loop fuel key) p.
Proof.
  revert key p. induction fuel as [|fuel IH]; intros key p H; [lia|].
  simpl. runs_with ltac:(apply IH; lia).
Qed.
Hint Extern 1 (runs (parse_key_loop _ _) _) => apply parse_key_loop_runs; lia : runs.

Lemma parse_key_runs fuel p :
  (remaining p < fuel)%nat -> runs (parse_key fuel) p.
Proof. intros H. unfold parse_key. runs_with fail. Qed.
Hint Extern 1 (runs (parse_key _) _) => apply parse_key_runs; lia : runs.

Lemma parse_word_loop_runs fuel result p :
  (remaining p < fuel)%nat -> runs (parse_word_loop fuel result) p.
Proof.
  revert result p. induction fuel as [|fuel IH]; intros result p H; [lia|].
  simpl. runs_with ltac:(apply IH; lia).
Qed.
Hint Extern 1 (runs (parse_word_loop _ _) _) => apply parse_word_loop_runs; lia : runs.

Lemma parse_bool_or_number_or_symbol_runs fuel p :
  (remaining p < fuel)%nat -> runs (parse_bool_or_number_or_symbol fuel) p.
Proof. intros H. unfold parse_bool_or_number_or_symbol. runs_with fail. Qed.
Hint Extern 1 (runs (parse_bool_or_number_or_symbol _) _) =>
  apply parse_bool_or_number_or_symbol_runs; lia : runs.

Lemma parse_value_family_runs fuel :
  (forall p, Z.of_nat (remaining p) < 2 ^ 64 ->
     (3 * remaining p + 3 <= fuel)%nat -> runs (parse_value fuel) p) /\
  (forall p, Z.of_nat (remaining p) < 2 ^ 64 ->
     (3 * remaining p + 2 <= fuel)%nat -> runs (parse_array fuel) p) /\
  (forall array_type size p, Z.of_nat (remaining p) < 2 ^ 64 ->
     (3 * remaining p + 4 <= fuel)%nat ->
     runs (parse_array_loop fuel array_type size) p) /\
  (forall p, Z.of_nat (remaining p) < 2 ^ 64 ->
     (3 * remaining p + 2 <= fuel)%nat -> runs (parse_inline_table fuel) p) /\
  (forall size p, Z.of_nat (remaining p) < 2 ^ 64 ->
     (3 * remaining p + 4 <= fuel)%nat ->
     runs (parse_inline_table_loop fuel size) p).
Proof.
  induction fuel as [|fuel (IHv & IHa & IHal & IHt & IHtl)].
  - repeat split; intros; lia.
  - repeat split; intros; simpl;
      runs_with ltac:(first [apply IHv|apply IHa|apply IHal|apply IHt|apply IHtl]; lia).
Qed.

Lemma parse_value_runs fuel p :
  Z.of_nat (remaining p) < 2 ^ 64 ->
  (3 * remaining p + 3 <= fuel)%nat -> runs (parse_value fuel) p.
Proof. apply (proj1 (parse_value_family_runs fuel)). Qed.
Hint Extern 1 (runs (parse_value _) _) => apply parse_value_runs; lia : runs.

Lemma parse_table_header_loop_runs fuel array_item path p :
  (remaining p + 2 <= fuel)%nat ->
  runs (parse_table_header_loop fuel array_item path) p.
Proof.
  revert path p. induction fuel as [|fuel IH]; intros path p H; [lia|].
  simpl. runs_with ltac:(apply IH; lia).
Qed.
Hint Extern 1 (runs (parse_table_header_loop _ _ _) _) =>
  apply parse_table_header_loop_runs; lia : runs.

Lemma parse_table_header_runs fuel p :
  (remaining p + 2 <= fuel)%nat -> runs (parse_table_header fuel) p.
Proof. intros H. unfold parse_table_header. runs_with fail. Qed.
Hint Extern 1 (runs (parse_table_header _) _) =>
  apply parse_table_header_runs; lia : runs.

Lemma parse_kv_pair_runs fuel p :
  Z.of_nat (remaining p) < 2 ^ 64 ->
  (3 * remaining p + 3 <= fuel)%nat -> runs (parse_kv_pair fuel) p.
Proof. intros Hbound H. unfold parse_kv_pair. runs_with fail. Qed.
Hint Extern 1 (runs (parse_kv_pair _) _) => apply parse_kv_pair_runs; lia : runs.

Lemma parse_trailing_comment_runs fuel p :
  (remaining p < fuel)%nat -> runs (parse_trailing_comment fuel) p.
Proof. intros H. unfold parse_trailing_comment. runs_with fail. Qed.
Hint Extern 1 (runs (parse_trailing_comment _) _) =>
  apply parse_trailing_comment_runs; lia : runs.

Lemma parse_expression_runs fuel p :
  Z.of_nat (remaining p) < 2 ^ 64 ->
  (3 * remaining p + 3 <= fuel)%nat -> runs (parse_expression fuel) p.
Proof. intros Hbound H. unfold parse_expression. runs_with fail. Qed.
Hint Extern 1 (runs (parse_expression _) _) =>
  apply parse_expression_runs; lia : runs.

Lemma parse_expression_shrinks fuel p a p' :
  parse_expression fuel p = Done a p' ->
  Z.of_nat (remaining p) < 2 ^ 64 ->
  (remaining p' <= remaining p)%nat.
Proof.
  intros H Hbound.
  apply (parse_expression_emits _ _ _ _ [] H Hbound db_nil).
Qed.

Lemma parse_loop_runs fuel p :
  Z.of_nat (remaining p) < 2 ^ 64 ->
  (3 * remaining p + 1 <= fuel)%nat -> runs (parse_loop fuel) p.
Proof.
  revert p. induction fuel as [|fuel IH]; intros p Hbound H; [lia|].
  simpl. apply runs_bind; [auto with nocore runs|]. intros at_end q0 E0.
  shrink_in E0. destruct at_end; [auto with nocore runs|].
  apply runs_bind; [auto with nocore runs|]. intros u1 q1 E1. shrink_in E1.
  apply runs_bind; [auto with nocore runs|]. intros u2 q2 E2.
  pose proof (parse_expression_shrinks _ _ _ _ E2 ltac:(lia)).
  apply IH; lia.
Qed.

(** The loops of the parser stop: with fuel [3 * n + 3] for an input of
    [n] bytes, and so with any more, [parse] returns or throws. *)
Lemma parse_runs fuel text :
  Z.of_nat (List.length text) < 2 ^ 64 ->
  (3 * List.length text + 3 <= fuel)%nat ->
  loltoml_parse fuel text <> OutOfFuel.
Proof.
  intros Hbound H. unfold loltoml_parse.
  change (runs (parse fuel) (parser_of text)).
  assert (Hr : remaining (parser_of text) = List.length text) by reflexivity.
  unfold parse.
  apply runs_bind; [auto with nocore runs|]. intros u0 q0 E0. shrink_in E0.
  apply runs_bind; [auto with nocore runs|]. intros u1 q1 E1.
  pose proof (parse_expression_shrinks _ _ _ _ E1 ltac:(lia)).
  apply runs_bind; [apply parse_loop_runs; lia|]. intros u2 q2 E2.
  auto with nocore runs.
Qed.

(** The outcome of [parse] does not depend on the fuel once there is
    enough of it. *)
Lemma parse_fuel_independent fuel fuel' text :
  Z.of_nat (List.length text) < 2 ^ 64 ->
  (3 * List.length text + 3 <= fuel)%nat -> (fuel <= fuel')%nat ->
  loltoml_parse fuel' text = loltoml_parse fuel text.
Proof.
  intros Hbound H Hle. unfold loltoml_parse.
  destruct (parse_stable fuel fuel' Hle (parser_of text)) as [E|E].
  - exfalso. apply (parse_runs fuel text Hbound H). exact E.
  - symmetry. exact E.
Qed.

(** ** The matcher decides the language of a pattern *)

Lemma append_empty s1 s2 : (s1 ++ s2)%string = "" -> s1 = "" /\ s2 = "".
Proof. destruct s1; simpl; intros H; [auto|discriminate]. Qed.

Lemma nullable_matches r : Regex.nullable r = true <-> Regex.matches r "".
Proof.
  induction r; simpl.
  - split; [discriminate|inversion 1].
  - split; [constructor|reflexivity].
  - split; [discriminate|inversion 1].
  - rewrite andb_true_iff, IHr1, IHr2. split.
    + intros [H1 H2]. apply (Regex.m_seq _ _ "" "" H1 H2).
    + intros H. inversion H; subst.
      match goal with
      | E : (_ ++ _)%string = "" |- _ =>
          apply append_empty in E; destruct E; subst
      end.
      split; assumption.
  - rewrite orb_true_iff, IHr1, IHr2. split.
    + intros [H|H]; [apply Regex.m_alt_l|apply Regex.m_alt_r]; assumption.
    + intros H. inversion H; subst; [left|right]; assumption.
  - split; [constructor|reflexivity].
Qed.

Lemma matches_seq_cons ch a b s1 s2 :
  Regex.matches a (String ch s1) -> Regex.matches b s2 ->
  Regex.matches (Regex.seq a b) (String ch (s1 ++ s2)).
Proof. intros H1 H2. apply (Regex.m_seq _ _ (String ch s1) s2 H1 H2). Qed.

Lemma derive_sound ch r s :
  Regex.matches (Regex.derive ch r) s -> Regex.matches r (String ch s).
Proof.
  revert s. induction r; intros s H; simpl in H.
  - inversion H.
  - inversion H.
  - destruct (p ch) eqn:E; inversion H; subst. constructor. exact E.
  - destruct (Regex.nullable r1) eqn:N.
    + inversion H; subst.
      * match goal with
        | Hl : Regex.matches (Regex.seq _ _) _ |- _ => inversion Hl; subst
        end.
        apply matches_seq_cons; [apply IHr1|]; assumption.
      * apply nullable_matches in N.
        apply (Regex.m_seq _ _ "" (String ch s)); [assumption|apply IHr2; assumption].
    + inversion H; subst.
      apply matches_seq_cons; [apply IHr1|]; assumption.
  - inversion H; subst; [apply Regex.m_alt_l, IHr1|apply Regex.m_alt_r, IHr2];
      assumption.
  - inversion H; subst.
    apply (Regex.m_star_cons _ (String ch _) _); [apply IHr|]; assumption.
Qed.

Lemma derive_complete ch r s0 :
  Regex.matches r s0 ->
  forall s, s0 = String ch s -> Regex.matches (Regex.derive ch r) s.
Proof.
  induction 1 as [|p c Hp|a b s1 s2 H1 IH1 H2 IH2|a b s' H1 IH1|a b s' H2 IH2
                  |a|a s1 s2 H1 IH1 H2 IH2];
    intros s E; simpl.
  - discriminate.
  - inversion E; subst. rewrite Hp. constructor.
  - destruct s1 as [|c1 s1]; simpl in E.
    + subst s2. apply nullable_matches in H1. rewrite H1.
      apply Regex.m_alt_r, IH2. reflexivity.
    + inversion E; subst.
      assert (Hd : Regex.matches (Regex.seq (Regex.derive ch a) b) (s1 ++ s2)%string)
        by (constructor; [apply IH1; reflexivity|assumption]).
      destruct (Regex.nullable a); [apply Regex.m_alt_l|]; exact Hd.
  - apply Regex.m_alt_l, IH1, E.
  - apply Regex.m_alt_r, IH2, E.
  - discriminate.
  - destruct s1 as [|c1 s1]; simpl in E.
    + apply IH2 in E. exact E.
    + inversion E; subst. constructor; [apply IH1; reflexivity|assumption].
Qed.

(** [Regex.regex_match] accepts exactly the strings of the pattern's
    language. *)
Lemma regex_match_spec s r :
  Regex.regex_match s r = true <-> Regex.matches r s.
Proof.
  revert r. induction s as [|ch s IH]; intros r; simpl.
  - apply nullable_matches.
  - rewrite IH. split.
    + apply derive_sound.
    + intros H. apply (derive_complete ch r _ H). reflexivity.
Qed.

(** ** Offsets and names

    Every member function keeps the parser in step with its input, so the
    offset of a [parser_error_t] points into the input and a parse that
    returns has read all of it; and every name delivered has passed the
    check of [parse_key]. *)

Section Positions.

Variable total : Z.
Hypothesis total_fits : total < 2 ^ 64.

Lemma within_ret {A : Type} (a : A) (post : A -> Prop) :
  post a -> within total (ret a) post.
Proof. intros H p Hp. simpl. split; assumption. Qed.

Lemma within_throw {A : Type} message offset (post : A -> Prop) :
  (0 <= total -> 0 <= offset <= total) ->
  within total (throw (parser_error_t message offset)) post.
Proof.
  intros H p Hp. simpl. destruct Hp as (H0 & H1 & H2).
  split; [assumption|]. apply H. lia.
Qed.

Lemma within_throw_std {A : Type} e (post : A -> Prop) :
  within total (throw (std_error e)) post.
Proof. intros p Hp. simpl. split; [apply Hp|exact I]. Qed.

Lemma within_out_of_fuel {A : Type} (post : A -> Prop) :
  within total out_of_fuel post.
Proof. intros p Hp. exact I. Qed.

Lemma within_bind {A B : Type} (m : M A) (k : A -> M B)
    (mid : A -> Prop) (post : B -> Prop) :
  within total m mid -> (forall a, mid a -> within total (k a) post) ->
  within total (bind m k) post.
Proof.
  intros Hm Hk p Hp. unfold bind. specialize (Hm p Hp).
  destruct (m p) as [a p1|e p1|]; [|exact Hm|exact I].
  destruct Hm as [Hp1 Ha]. apply (Hk a Ha p1 Hp1).
Qed.

Lemma within_weaken {A : Type} (m : M A) (mid post : A -> Prop) :
  within total m mid -> (forall a, mid a -> post a) -> within total m post.
Proof.
  intros Hm Hw p Hp. specialize (Hm p Hp).
  destruct (m p) as [a p1|e p1|]; [|exact Hm|exact I].
  destruct Hm as [Hp1 Ha]. split; [assumption|apply Hw, Ha].
Qed.

Lemma within_input_eof : within total input_eof (fun _ => True).
Proof. intros p Hp. simpl. split; [assumption|exact I]. Qed.

Lemma within_input_peek : within total input_peek (fun _ => True).
Proof. intros p Hp. simpl. split; [assumption|exact I]. Qed.

Lemma within_input_processed :
  within total input_processed (fun offset => 0 <= offset <= total).
Proof.
  intros p Hp. simpl. split; [assumption|].
  destruct Hp as (H0 & H1 & H2). unfold consumed in *. lia.
Qed.

Lemma within_input_get : within total input_get (fun _ => True).
Proof.
  intros [[text n] evs] (H0 & H1 & H2).
  unfold consumed, remaining, unread in *. simpl in *.
  unfold input_get, input_stream_t.get. simpl.
  destruct text as [|ch rest]; simpl in *.
  - split; [assumption|lia].
  - split; [|exact I]. unfold in_step, consumed, remaining, unread. simpl.
    unfold size_t. rewrite Z.mod_small by lia.
    split; [lia|]. split; [lia|assumption].
Qed.

Lemma within_emit e : well_named e -> within total (emit e) (fun _ => True).
Proof.
  intros He p (H0 & H1 & H2). simpl. split; [|exact I].
  unfold in_step, consumed, remaining, unread in *. simpl.
  split; [assumption|]. split; [assumption|].
  apply Forall_app. split; [assumption|]. constructor; [assumption|constructor].
Qed.

Lemma within_convert {A : Type} (r : std_exception + A) :
  within total (convert r) (fun _ => True).
Proof.
  destruct r; simpl; [apply within_throw_std|apply within_ret; exact I].
Qed.

Create HintDb within.
Hint Resolve within_input_eof within_input_peek within_input_processed
  within_input_get @within_convert @within_throw_std @within_out_of_fuel
  : within.

(** Decomposes a goal [within total m post] along the binds and branches
    of [m]. *)
Ltac within_step :=
  match goal with
  | |- within _ (bind _ _) _ => eapply within_bind; [|intros ? ?]
  | |- within _ (if ?c then _ else _) _ => destruct c eqn:?
  | |- within _ (match ?c with _ => _ end) _ => destruct c eqn:?
  | |- within _ (ret _) _ => apply within_ret; exact I
  | |- within _ (emit _) _ => apply within_emit; exact I
  | |- within _ _ _ => solve [eauto with nocore within]
  | |- within _ _ _ =>
      solve [eapply within_weaken;
             [solve [eauto with nocore within]|intros; exact I]]
  end.

Ltac within_tac := repeat within_step.

Lemma within_last_char_offset :
  within total last_char_offset (fun offset => 0 <= offset <= total).
Proof.
  unfold last_char_offset.
  eapply within_bind; [apply within_input_processed|]. intros o Ho.
  cbv beta in Ho. apply within_ret.
  destruct (o =? 0) eqn:E; [lia|].
  apply Z.eqb_neq in E. unfold size_t. rewrite Z.mod_small; lia.
Qed.
Hint Resolve within_last_char_offset : within.

Lemma within_parser_error {A : Type} message (post : A -> Prop) :
  within total (parser_error message) post.
Proof.
  unfold parser_error.
  eapply within_bind; [apply within_last_char_offset|]. intros o Ho.
  apply within_throw. intros _. exact Ho.
Qed.
Hint Resolve @within_parser_error : within.

Lemma within_parse_chars expected :
  within total (parse_chars expected) (fun _ => True).
Proof. unfold parse_chars. within_tac. Qed.
Hint Resolve within_parse_chars : within.

Lemma within_skip_spaces fuel : within total (skip_spaces fuel) (fun _ => True).
Proof. induction fuel; simpl; within_tac. Qed.
Hint Resolve within_skip_spaces : within.

Lemma within_parse_comment_loop fuel comment :
  within total (parse_comment_loop fuel comment) (fun _ => True).
Proof. revert comment. induction fuel; intros; simpl; within_tac. Qed.
Hint Resolve within_parse_comment_loop : within.

Lemma within_parse_comment fuel :
  within total (parse_comment fuel) (fun _ => True).
Proof. unfold parse_comment. within_tac. Qed.
Hint Resolve within_parse_comment : within.

Lemma within_parse_new_line : within total parse_new_line (fun _ => True).
Proof. unfold parse_new_line. within_tac. Qed.
Hint Resolve within_parse_new_line : within.

Lemma within_skip_spaces_and_empty_lines fuel :
  within total (skip_spaces_and_empty_lines fuel) (fun _ => True).
Proof. induction fuel; simpl; within_tac. Qed.
Hint Resolve within_skip_spaces_and_empty_lines : within.

Lemma within_parse_hex_digit : within total parse_hex_digit (fun _ => True).
Proof. unfold parse_hex_digit. within_tac. Qed.
Hint Resolve within_parse_hex_digit : within.

Lemma within_next_hex_digit codepoint :
  within total (next_hex_digit codepoint) (fun _ => True).
Proof. unfold next_hex_digit. within_tac. Qed.
Hint Resolve within_next_hex_digit : within.

Lemma within_parse_4_digit_codepoint :
  within total parse_4_digit_codepoint (fun _ => True).
Proof. unfold parse_4_digit_codepoint. within_tac. Qed.

Lemma within_parse_8_digit_codepoint :
  within total parse_8_digit_codepoint (fun _ => True).
Proof. unfold parse_8_digit_codepoint. within_tac. Qed.
Hint Resolve within_parse_4_digit_codepoint within_parse_8_digit_codepoint
  : within.

Lemma within_process_codepoint codepoint offset output :
  0 <= offset <= total ->
  within total (process_codepoint codepoint offset output) (fun _ => True).
Proof.
  intros H. unfold process_codepoint.
  destruct ((0xD800 <=? codepoint) && (codepoint <=? 0xDFFF));
    [apply within_throw; intros _; exact H|].
  destruct (0x10FFFF <? codepoint); [apply within_throw; intros _; exact H|].
  apply within_ret. exact I.
Qed.

Lemma within_parse_escape_sequence offset result :
  0 <= offset <= total ->
  within total (parse_escape_sequence offset result) (fun _ => True).
Proof.
  intros H. unfold parse_escape_sequence.
  eapply within_bind; [apply within_input_get|]. intros ch _.
  repeat match goal with
         | |- within _ (if ?c then _ else _) _ => destruct c
         | |- within _ (ret _) _ => apply within_ret; exact I
         | |- within _ (bind _ _) _ =>
             eapply within_bind; [solve [eauto with nocore within]|intros ? _]
         | |- within _ (process_codepoint _ _ _) _ =>
             apply within_process_codepoint; exact H
         | |- within _ (throw _) _ => apply within_throw; intros _; exact H
         end.
Qed.

Lemma within_parse_basic_string_loop fuel result :
  within total (parse_basic_string_loop fuel result) (fun _ => True).
Proof.
  revert result. induction fuel as [|fuel IH]; intros result; simpl;
    [apply within_out_of_fuel|].
  eapply within_bind; [apply within_input_get|]. intros ch _.
  destruct (iscontrol ch); [apply within_parser_error|].
  destruct (ch =? DQUOTE)%char; [apply within_ret; exact I|].
  destruct (ch =? BACKSLASH)%char; [|apply IH].
  eapply within_bind; [apply within_last_char_offset|]. intros o Ho.
  eapply within_bind; [apply within_parse_escape_sequence; exact Ho|].
  intros r _. apply IH.
Qed.
Hint Resolve within_parse_basic_string_loop : within.

Lemma within_parse_basic_string fuel :
  within total (parse_basic_string fuel) (fun _ => True).
Proof. unfold parse_basic_string. within_tac. Qed.
Hint Resolve within_parse_basic_string : within.

Lemma within_skip_isspace_loop fuel :
  within total (skip_isspace_loop fuel) (fun _ => True).
Proof. induction fuel; simpl; within_tac. Qed.
Hint Resolve within_skip_isspace_loop : within.

Lemma within_parse_multiline_string_loop fuel result :
  within total (parse_multiline_string_loop fuel result) (fun _ => True).
Proof.
  revert result. induction fuel as [|fuel IH]; intros result; simpl;
    [apply within_out_of_fuel|].
  repeat match goal with
         | |- within _ (bind last_char_offset _) _ =>
             eapply within_bind; [apply within_last_char_offset|];
             let o := fresh "o" in let Ho := fresh "Ho" in
             intros o Ho;
             eapply within_bind;
               [apply within_parse_escape_sequence; exact Ho|intros ? _]
         | _ => within_step
         end.
Qed.
Hint Resolve within_parse_multiline_string_loop : within.

Lemma within_parse_multiline_string fuel :
  within total (parse_multiline_string fuel) (fun _ => True).
Proof. unfold parse_multiline_string. within_tac. Qed.
Hint Resolve within_parse_multiline_string : within.

Lemma within_parse_string fuel :
  within total (parse_string fuel) (fun _ => True).
Proof. unfold parse_string. within_tac. Qed.
Hint Resolve within_parse_string : within.

Lemma within_parse_multiline_literal_string_loop fuel string :
  within total (parse_multiline_literal_string_loop fuel string) (fun _ => True).
Proof. revert string. induction fuel; intros; simpl; within_tac. Qed.
Hint Resolve within_parse_multiline_literal_string_loop : within.

Lemma within_parse_literal_string_loop fuel string :
  within total (parse_literal_string_loop fuel string) (fun _ => True).
Proof. revert string. induction fuel; intros; simpl; within_tac. Qed.
Hint Resolve within_parse_literal_string_loop : within.

Lemma within_parse_literal_string fuel :
  within total (parse_literal_string fuel) (fun _ => True).
Proof. unfold parse_literal_string. within_tac. Qed.
Hint Resolve within_parse_literal_string : within.

Lemma push_back_not_empty s ch : push_back s ch <> "".
Proof. unfold push_back. destruct s; discriminate. Qed.

Lemma within_parse_key_loop fuel key :
  key <> "" -> within total (parse_key_loop fuel key) (fun key => key <> "").
Proof.
  revert key. induction fuel as [|fuel IH]; intros key Hkey; simpl;
    [apply within_out_of_fuel|].
  eapply within_bind; [apply within_input_peek|]. intros ch _.
  destruct (is_key_character ch); [|apply within_ret; exact Hkey].
  eapply within_bind; [apply within_input_get|]. intros c _.
  apply IH, push_back_not_empty.
Qed.

Lemma within_parse_key fuel :
  within total (parse_key fuel) (fun key => key <> "").
Proof.
  unfold parse_key.
  eapply within_bind; [apply within_input_peek|]. intros ch _.
  destruct (ch =? DQUOTE)%char.
  - eapply within_bind; [apply within_input_get|]. intros c _.
    eapply within_bind; [apply within_parse_basic_string|]. intros key _.
    destruct (key =? "")%string eqn:E; [apply within_parser_error|].
    apply within_ret. apply String.eqb_neq. exact E.
  - eapply within_bind; [apply within_input_get|]. intros c _.
    destruct (negb (is_key_character c)); [apply within_parser_error|].
    apply within_parse_key_loop, push_back_not_empty.
Qed.

Lemma within_parse_word_loop fuel result :
  within total (parse_word_loop fuel result) (fun _ => True).
Proof. revert result. induction fuel; intros; simpl; within_tac. Qed.
Hint Resolve within_parse_word_loop : within.

Lemma within_parse_bool_or_number_or_symbol fuel :
  within total (parse_bool_or_number_or_symbol fuel) (fun _ => True).
Proof.
  unfold parse_bool_or_number_or_symbol.
  repeat match goal with
         | |- within _ (throw (parser_error_t _ 0)) _ =>
             apply within_throw; lia
         | _ => within_step
         end.
Qed.
Hint Resolve within_parse_bool_or_number_or_symbol : within.

(** A pair of a key and a value, as [parse_kv_pair] and the loop of
    [parse_inline_table] read it. *)
Ltac within_key :=
  eapply within_bind; [apply within_parse_key|];
  let key := fresh "key" in
  let Hkey := fresh "Hkey" in
  intros key Hkey;
  eapply within_bind; [apply within_emit; exact Hkey|intros ? _].

Lemma within_parse_value_family fuel :
  within total (parse_value fuel) (fun _ => True) /\
  within total (parse_array fuel) (fun _ => True) /\
  (forall array_type size,
      within total (parse_array_loop fuel array_type size) (fun _ => True)) /\
  within total (parse_inline_table fuel) (fun _ => True) /\
  (forall size,
      within total (parse_inline_table_loop fuel size) (fun _ => True)).
Proof.
  induction fuel as [|fuel (IHv & IHa & IHal & IHt & IHtl)].
  - repeat split; intros; apply within_out_of_fuel.
  - split; [|split; [|split; [|split]]]; intros; simpl.
    + within_tac.
    + within_tac.
    + eapply within_bind; [apply within_input_peek|]. intros ch _.
      destruct (ch =? "]")%char; [within_tac|].
      eapply within_bind; [apply within_input_processed|].
      intros item_offset Hoffset.
      eapply within_bind; [apply IHv|]. intros current_item_type _.
      destruct ((0 <? size) && differs current_item_type array_type);
        [apply within_throw; intros _; exact Hoffset|].
      within_tac.
    + within_tac.
    + within_key. within_tac.
Qed.

Lemma within_parse_value fuel : within total (parse_value fuel) (fun _ => True).
Proof. apply within_parse_value_family. Qed.
Hint Resolve within_parse_value : within.

Lemma within_parse_table_header_loop fuel array_item path :
  Forall (fun name => name <> "") path ->
  within total (parse_table_header_loop fuel array_item path)
    (fun path => path <> [] /\ Forall (fun name => name <> "") path).
Proof.
  revert path. induction fuel as [|fuel IH]; intros path Hpath; simpl;
    [apply within_out_of_fuel|].
  eapply within_bind; [apply within_skip_spaces|]. intros _ _.
  eapply within_bind; [apply within_parse_key|]. intros key Hkey.
  assert (Hpath' : Forall (fun name => name <> "") (path ++ [key])).
  { apply Forall_app. split; [assumption|]. constructor; [assumption|constructor]. }
  eapply within_bind; [apply within_skip_spaces|]. intros _ _.
  eapply within_bind; [apply within_input_peek|]. intros ch _.
  destruct (ch =? "]")%char.
  - eapply within_bind; [apply within_input_get|]. intros _ _.
    eapply within_bind with (mid := fun _ => True); [within_tac|]. intros _ _.
    apply within_ret. split; [|assumption].
    destruct path; discriminate.
  - eapply within_bind; [apply within_parse_chars|]. intros _ _.
    apply IH. assumption.
Qed.

Lemma within_parse_table_header fuel :
  within total (parse_table_header fuel) (fun _ => True).
Proof.
  unfold parse_table_header.
  eapply within_bind; [apply within_input_get|]. intros _ _.
  eapply within_bind; [apply within_input_peek|]. intros ch _.
  eapply within_bind with (mid := fun _ => True); [within_tac|].
  intros array_item _.
  eapply within_bind;
    [apply within_parse_table_header_loop; constructor|].
  intros path Hpath.
  destruct array_item; apply within_emit; exact Hpath.
Qed.
Hint Resolve within_parse_table_header : within.

Lemma within_parse_kv_pair fuel :
  within total (parse_kv_pair fuel) (fun _ => True).
Proof. unfold parse_kv_pair. within_key. within_tac. Qed.
Hint Resolve within_parse_kv_pair : within.

Lemma within_parse_trailing_comment fuel :
  within total (parse_trailing_comment fuel) (fun _ => True).
Proof. unfold parse_trailing_comment. within_tac. Qed.
Hint Resolve within_parse_trailing_comment : within.

Lemma within_parse_expression fuel :
  within total (parse_expression fuel) (fun _ => True).
Proof. unfold parse_expression. within_tac. Qed.
Hint Resolve within_parse_expression : within.

Lemma within_parse_loop fuel : within total (parse_loop fuel) (fun _ => True).
Proof. induction fuel; simpl; within_tac. Qed.
Hint Resolve within_parse_loop : within.

Lemma within_parse fuel : within total (parse fuel) (fun _ => True).
Proof. unfold parse. within_tac. Qed.

End Positions.

Lemma in_step_parser_of text :
  in_step (Z.of_nat (List.length text)) (parser_of text).
Proof.
  unfold in_step, parser_of, consumed, remaining, unread. simpl.
  split; [lia|]. split; [lia|constructor].
Qed.

Lemma parse_loop_eof fuel p a p' :
  parse_loop fuel p = Done a p' -> unread p' = [].
Proof.
  revert p. induction fuel as [|fuel IH]; intros p H; simpl in H; [discriminate|].
  bind_in H at_end q E. inversion E; subst. destruct (input_stream_t.eof (input q)) eqn:Eeof.
  - inversion H; subst. unfold unread. unfold input_stream_t.eof in Eeof.
    destruct (input_stream_t.backend (input p')); [reflexivity|discriminate].
  - bind_in H u1 q1 E1. bind_in H u2 q2 E2. apply (IH _ H).
Qed.

(** X1: when [loltoml::parse] fails with a [parser_error_t], the offset
    the error carries is a position of the input: it lies between 0 and
    the number of bytes of the input (the input is shorter than [2^64]
    bytes, so that a [std::size_t] holds the cursor's count). *)
Theorem parser_error_offset_in_input fuel text message offset p' :
  Z.of_nat (List.length text) < 2 ^ 64 ->
  loltoml_parse fuel text = Throw (parser_error_t message offset) p' ->
  0 <= offset <= Z.of_nat (List.length text).
Proof.
  intros Hfits H.
  pose proof (within_parse _ Hfits fuel (parser_of text) (in_step_parser_of text))
    as Hw.
  unfold loltoml_parse in H. rewrite H in Hw. apply Hw.
Qed.

(** X2: when [loltoml::parse] returns, it has read the whole input: no
    byte is left unread and the cursor has counted every byte of the
    input. *)
Theorem parse_reads_whole_input fuel text p' :
  Z.of_nat (List.length text) < 2 ^ 64 ->
  loltoml_parse fuel text = Done tt p' ->
  unread p' = [] /\ consumed p' = Z.of_nat (List.length text).
Proof.
  intros Hfits H.
  pose proof (within_parse _ Hfits fuel (parser_of text) (in_step_parser_of text))
    as Hw.
  unfold loltoml_parse in H. rewrite H in Hw.
  destruct Hw as [(H0 & H1 & H2) _].
  assert (Hend : unread p' = []).
  { unfold parse in H. bind_in H u0 q0 E0. bind_in H u1 q1 E1.
    bind_in H u2 q2 E2. apply parse_loop_eof in E2.
    inversion H; subst. exact E2. }
  split; [exact Hend|].
  unfold remaining in H1. rewrite Hend in H1. simpl in H1. lia.
Qed.

(** X3: whether [loltoml::parse] returns or throws, every name it has
    delivered to the handler by then is checked: no [key] event carries
    the empty string, and the path of a [table] or [array_table] event has
    at least one segment and no empty segment. *)
Theorem delivered_names_are_not_empty fuel text p' :
  Z.of_nat (List.length text) < 2 ^ 64 ->
  (exists a, loltoml_parse fuel text = Done a p') \/
  (exists e, loltoml_parse fuel text = Throw e p') ->
  (forall name, In (Handler.key name) (handler p') -> name <> "") /\
  (forall path,
      In (Handler.table path) (handler p') \/
      In (Handler.array_table path) (handler p') ->
      path <> [] /\ ~ In "" path).
Proof.
  intros Hfits H.
  pose proof (within_parse _ Hfits fuel (parser_of text) (in_step_parser_of text))
    as Hw.
  assert (Hnamed : Forall well_named (handler p')).
  { unfold loltoml_parse in H. destruct H as [[a H]|[e H]]; rewrite H in Hw.
    - apply Hw.
    - apply Hw. }
  rewrite Forall_forall in Hnamed. split.
  - intros name Hin. apply (Hnamed _ Hin).
  - intros path [Hin|Hin]; destruct (Hnamed _ Hin) as [Hne Hall];
      (split; [exact Hne|]);
      rewrite Forall_forall in Hall; intros Hempty;
      apply (Hall _ Hempty); reflexivity.
Qed.

(** X4: [loltoml::parse] terminates on every input, by returning or by
    throwing: for an input of [n] bytes the loops of the parser make no
    more than [3 * n + 3] nested iterations, and unrolling them further
    changes nothing of the outcome. *)
Theorem parse_terminates text fuel :
  Z.of_nat (List.length text) < 2 ^ 64 ->
  (3 * List.length text + 3 <= fuel)%nat ->
  loltoml_parse fuel text <> OutOfFuel /\
  loltoml_parse fuel text = loltoml_parse (3 * List.length text + 3) text.
Proof.
  intros Hfits Hfuel. split.
  - apply parse_runs; assumption.
  - apply parse_fuel_independent; [assumption|lia|assumption].
Qed.

(** X5: [parse_new_line] accepts exactly the two line terminators: it
    returns if and only if the unread input starts with a line feed or
    with a carriage return and a line feed, and then it has consumed them
    and nothing else.  A carriage return alone is not a line terminator. *)
Theorem parse_new_line_accepts p p' :
  parse_new_line p = Done tt p' <->
  (exists rest,
      unread p = LF :: rest /\
      p' = parser_at rest (advance (consumed p) 1) (handler p)) \/
  (exists rest,
      unread p = CR :: LF :: rest /\
      p' = parser_at rest (advance (consumed p) 2) (handler p)).
Proof.
  destruct p as [[text n] evs]. unfold unread, consumed. simpl.
  split.
  - intros H. destruct text as [|c1 text]; [discriminate|].
    unfold parse_new_line in H.
    change (input_get {| input := input_stream_t.make (c1 :: text) n; handler := evs |})
      with (input_get (parser_at (c1 :: text) n evs)) in *.
    erewrite bind_eq in H by apply input_get_at.
    destruct (c1 =? CR)%char eqn:E1.
    + apply Ascii.eqb_eq in E1. subst c1.
      destruct text as [|c2 text]; [discriminate|].
      erewrite bind_eq in H by apply input_get_at.
      destruct (c2 =? LF)%char eqn:E2; [|discriminate].
      apply Ascii.eqb_eq in E2. subst c2. right. exists text.
      split; [reflexivity|]. inversion H. reflexivity.
    + unfold bind, ret in H.
      destruct (c1 =? LF)%char eqn:E2; [|discriminate].
      apply Ascii.eqb_eq in E2. subst c1. left. exists text.
      split; [reflexivity|]. inversion H. reflexivity.
  - intros [[rest [-> ->]]|[rest [-> ->]]]; reflexivity.
Qed.

Lemma parse_value_first_byte fuel p t p' :
  parse_value fuel p = Done t p' ->
  exists ch rest, unread p = ch :: rest.
Proof.
  intros H. destruct (unread p) as [|ch rest] eqn:Hp; [|eauto].
  exfalso.
  assert (Hget : forall A (k : ascii -> M A) a q, bind input_get k p <> Done a q).
  { intros A k a q. unfold bind, input_get, input_stream_t.get.
    unfold unread in Hp. rewrite Hp. discriminate. }
  destruct fuel as [|fuel]; [discriminate|]. simpl in H.
  bind_in H ch q E. inversion E; subst q. clear E.
  destruct (ch =? "{")%char.
  { bind_in H u q E. destruct fuel; [discriminate|]. simpl in E.
    apply Hget in E. exact E. }
  destruct (ch =? "[")%char.
  { bind_in H u q E. destruct fuel; [discriminate|]. simpl in E.
    apply Hget in E. exact E. }
  destruct (ch =? DQUOTE)%char.
  { bind_in H u q E. unfold parse_string in E. apply Hget in E. exact E. }
  destruct (ch =? SQUOTE)%char.
  { bind_in H u q E. unfold parse_literal_string in E. apply Hget in E. exact E. }
  unfold parse_bool_or_number_or_symbol in H. apply Hget in H. exact H.
Qed.

Lemma parse_bool_or_number_or_symbol_tag fuel p t p' :
  parse_bool_or_number_or_symbol fuel p = Done t p' ->
  t = toml_type_t.boolean \/ t = toml_type_t.integer \/
  t = toml_type_t.floating_point \/ t = toml_type_t.symbol.
Proof.
  unfold parse_bool_or_number_or_symbol. intros H.
  bind_in H ch q E.
  destruct (negb (is_word_character ch));
    [apply parser_error_Done in H; contradiction|].
  bind_in H result q0 E0.
  destruct (result =? "true")%string;
    [bind_in H u q1 E1; inversion H; auto|].
  destruct (result =? "false")%string;
    [bind_in H u q1 E1; inversion H; auto|].
  destruct (Regex.regex_match result integer_regex);
    [bind_in H v q1 E1; bind_in H u q2 E2; inversion H; auto|].
  destruct (Regex.regex_match result float_regex);
    [bind_in H v q1 E1; bind_in H u q2 E2; inversion H; auto|].
  destruct (Regex.regex_match result symbol_regex);
    [bind_in H u q1 E1; inversion H; auto|].
  discriminate.
Qed.

(** X6: the first unread byte decides what [parse_value] reads, and the
    tag it returns says so: [table] after an opening brace, [array] after
    an opening bracket, [string] after either quote, and [boolean],
    [integer], [floating_point] or [symbol] after a word character.  The
    tag [datetime] is never returned: the parser reads no date. *)
Theorem parse_value_tag_by_first_byte fuel p t p' :
  parse_value fuel p = Done t p' ->
  exists ch rest,
    unread p = ch :: rest /\
    match t with
    | toml_type_t.table => ch = "{"%char
    | toml_type_t.array => ch = "["%char
    | toml_type_t.string => ch = DQUOTE \/ ch = SQUOTE
    | toml_type_t.boolean | toml_type_t.integer
    | toml_type_t.floating_point | toml_type_t.symbol =>
        is_word_character ch = true
    | toml_type_t.datetime => False
    end.
Proof.
  intros H. destruct (parse_value_first_byte _ _ _ _ H) as (ch & rest & Hp).
  exists ch, rest. split; [exact Hp|].
  destruct fuel as [|fuel]; [discriminate|]. simpl in H.
  destruct p as [[text n] evs]. unfold unread in Hp. simpl in Hp. subst text.
  change {| input := input_stream_t.make (ch :: rest) n; handler := evs |}
    with (parser_at (ch :: rest) n evs) in H.
  erewrite bind_eq in H by apply input_peek_at.
  destruct (ch =? "{")%char eqn:E1.
  { bind_in H u q E. inversion H; subst. apply Ascii.eqb_eq. exact E1. }
  destruct (ch =? "[")%char eqn:E2.
  { bind_in H u q E. inversion H; subst. apply Ascii.eqb_eq. exact E2. }
  destruct (ch =? DQUOTE)%char eqn:E3.
  { bind_in H u q E. inversion H; subst. left. apply Ascii.eqb_eq. exact E3. }
  destruct (ch =? SQUOTE)%char eqn:E4.
  { bind_in H u q E. inversion H; subst. right. apply Ascii.eqb_eq. exact E4. }
  assert (Hword : is_word_character ch = true).
  { unfold parse_bool_or_number_or_symbol in H.
    erewrite bind_eq in H by apply input_get_at.
    destruct (is_word_character ch); [reflexivity|].
    apply parser_error_Done in H. contradiction. }
  destruct (parse_bool_or_number_or_symbol_tag _ _ _ _ H) as [-> | [-> | [-> | ->]]];
    exact Hword.
Qed.

(** ** Numbers among the bare tokens *)

Lemma matches_class p s :
  Regex.matches (Regex.char_class p) s ->
  exists ch, s = String ch "" /\ p ch = true.
Proof. inversion 1; subst. eauto. Qed.

Lemma matches_star_class p s :
  Regex.matches (Regex.star (Regex.char_class p)) s <->
  forallb p (list_ascii_of_string s) = true.
Proof.
  split.
  - intros H. remember (Regex.star (Regex.char_class p)) as r eqn:Hr.
    induction H; try discriminate.
    + reflexivity.
    + inversion Hr; subst a. apply matches_class in H.
      destruct H as (ch & -> & Hch).
      simpl. rewrite Hch. apply IHmatches2. reflexivity.
  - revert s. induction s as [|ch s IH]; simpl; intros H.
    + constructor.
    + apply andb_true_iff in H. destruct H as [Hch Hs].
      apply (Regex.m_star_cons _ (String ch "") s);
        [constructor; exact Hch|apply IH, Hs].
Qed.

Lemma matches_plus_class p s :
  Regex.matches (Regex.plus (Regex.char_class p)) s <->
  s <> "" /\ forallb p (list_ascii_of_string s) = true.
Proof.
  unfold Regex.plus. split.
  - intros H. inversion H; subst.
    match goal with
    | H1 : Regex.matches (Regex.char_class _) _,
      H2 : Regex.matches (Regex.star _) _ |- _ =>
        apply matches_class in H1; destruct H1 as (ch & -> & Hch);
        apply matches_star_class in H2
    end.
    simpl. rewrite Hch. split; [discriminate|assumption].
  - intros [Hne H]. destruct s as [|ch s]; [contradiction|].
    simpl in H. apply andb_true_iff in H. destruct H as [Hch Hs].
    apply (Regex.m_seq _ _ (String ch "") s);
      [constructor; exact Hch|apply matches_star_class, Hs].
Qed.

(** The integer pattern accepts the non-empty runs of decimal digits. *)
Lemma integer_regex_spec s :
  Regex.regex_match s integer_regex = true <->
  s <> "" /\ forallb (between "0" "9") (list_ascii_of_string s) = true.
Proof. rewrite regex_match_spec. apply matches_plus_class. Qed.

Lemma digit_plain ch :
  between "0" "9" ch = true ->
  isspace ch = false /\ (ch =? "-")%char = false /\ (ch =? "+")%char = false.
Proof.
  intros H. apply between_spec in H.
  change (uchar "0") with 48 in H. change (uchar "9") with 57 in H.
  assert (Hne : forall c, ~ 48 <= uchar c <= 57 -> (ch =? c)%char = false).
  { intros c Hc. destruct (ch =? c)%char eqn:E; [|reflexivity].
    apply Ascii.eqb_eq in E. subst c. contradiction. }
  unfold isspace. rewrite !Hne by (vm_compute; intros [H1 H2]; congruence).
  split; [|split; reflexivity]. simpl.
  destruct (between TAB CR ch) eqn:E; [|reflexivity].
  apply between_spec in E.
  change (uchar TAB) with 9 in E. change (uchar CR) with 13 in E. lia.
Qed.

Lemma decimal_prefix_digits s acc :
  forallb (between "0" "9") (list_ascii_of_string s) = true ->
  match acc with Some a => 0 <= a | None => s <> "" end ->
  exists n, decimal_prefix acc s = Some n /\ 0 <= n.
Proof.
  revert acc. induction s as [|ch s IH]; intros acc Hs Hacc;
    cbn [decimal_prefix].
  - destruct acc as [a|]; [eauto|contradiction].
  - cbn [list_ascii_of_string forallb] in Hs.
    apply andb_true_iff in Hs. destruct Hs as [Hch Hs].
    rewrite Hch. apply IH; [exact Hs|].
    apply between_spec in Hch.
    change (uchar "0") with 48 in *. change (uchar "9") with 57 in Hch.
    destruct acc as [a|]; lia.
Qed.

(** [std::stoll] of a run of digits is not negative. *)
Lemma stoll_digits s :
  s <> "" -> forallb (between "0" "9") (list_ascii_of_string s) = true ->
  exists n,
    0 <= n /\
    stoll s = if 2 ^ 63 - 1 <? n then inl out_of_range else inr n.
Proof.
  intros Hne Hs.
  destruct (decimal_prefix_digits s None Hs Hne) as (n & Hn & Hpos).
  exists n. split; [exact Hpos|].
  destruct s as [|ch s]; [contradiction|].
  pose proof Hs as Hch. simpl in Hch. apply andb_true_iff in Hch.
  destruct Hch as [Hch _]. destruct (digit_plain ch Hch) as (Hsp & Hminus & Hplus).
  unfold stoll. cbn [skip_isspace]. rewrite Hsp, Hminus, Hplus, Hn.
  replace (n <? - 2 ^ 63) with false by (symmetry; apply Z.ltb_ge; lia).
  reflexivity.
Qed.

Lemma convert_Done {A : Type} (r : std_exception + A) p a p' :
  convert r p = Done a p' -> r = inr a /\ p' = p.
Proof. destruct r; simpl; intros H; inversion H. split; reflexivity. Qed.

(** X7: an [integer] event never carries a negative number.  The integer
    pattern accepts runs of decimal digits only, so the value
    [parse_value] delivers with the tag [integer] lies between 0 and
    [2^63 - 1]; a token with a sign is not an integer for this parser. *)
Theorem integer_values_are_not_negative fuel p p' :
  parse_value fuel p = Done toml_type_t.integer p' ->
  exists value,
    handler p' = handler p ++ [Handler.integer value] /\
    0 <= value <= 2 ^ 63 - 1.
Proof.
  intros H. destruct fuel as [|fuel]; [discriminate|]. simpl in H.
  bind_in H ch q E. quiet_in E.
  destruct (ch =? "{")%char; [bind_in H u q1 E1; discriminate|].
  destruct (ch =? "[")%char; [bind_in H u q1 E1; discriminate|].
  destruct (ch =? DQUOTE)%char; [bind_in H u q1 E1; discriminate|].
  destruct (ch =? SQUOTE)%char; [bind_in H u q1 E1; discriminate|].
  unfold parse_bool_or_number_or_symbol in H.
  bind_in H first q1 E1. quiet_in E1.
  destruct (negb (is_word_character first));
    [apply parser_error_Done in H; contradiction|].
  bind_in H result q2 E2. quiet_in E2.
  destruct (result =? "true")%string;
    [bind_in H u q3 E3; discriminate|].
  destruct (result =? "false")%string;
    [bind_in H u q3 E3; discriminate|].
  destruct (Regex.regex_match result integer_regex) eqn:Hint.
  - apply integer_regex_spec in Hint. destruct Hint as [Hne Hdigits].
    destruct (stoll_digits result Hne Hdigits) as (n & Hpos & Hn).
    bind_in H value q3 E3. apply convert_Done in E3. destruct E3 as [E3 ->].
    bind_in H u q4 E4. emit_in E4. inversion H; subst.
    exists value. split; [handler_chain|].
    rewrite Hn in E3. destruct (2 ^ 63 - 1 <? n) eqn:Hmax; [discriminate|].
    inversion E3; subst. apply Z.ltb_ge in Hmax. lia.
  - destruct (Regex.regex_match result float_regex);
      [bind_in H v q3 E3; bind_in H u q4 E4; discriminate|].
    destruct (Regex.regex_match result symbol_regex);
      [bind_in H u q3 E3; discriminate|].
    discriminate.
Qed.

Lemma matches_seq_nil_l a b s :
  Regex.matches a "" -> Regex.matches b s -> Regex.matches (Regex.seq a b) s.
Proof. intros Ha Hb. apply (Regex.m_seq a b "" s Ha Hb). Qed.

Lemma append_nil_r s : (s ++ "")%string = s.
Proof. induction s; simpl; congruence. Qed.

Lemma matches_seq_nil_r a b s :
  Regex.matches a s -> Regex.matches b "" -> Regex.matches (Regex.seq a b) s.
Proof.
  intros Ha Hb. rewrite <- (append_nil_r s). apply Regex.m_seq; assumption.
Qed.

Lemma word_character_not_newline ch :
  is_word_character ch = true ->
  (ch =? LF)%char = false /\ (ch =? CR)%char = false.
Proof.
  intros H.
  split; (match goal with |- (ch =? ?c)%char = false =>
            destruct (ch =? c)%char eqn:E; [|reflexivity];
            apply Ascii.eqb_eq in E; subst ch; discriminate
          end).
Qed.

(** The float pattern, whose dot stands for any character, accepts one
    character that ends no line followed by digits. *)
Lemma float_regex_any_then_digits first digits :
  (first =? LF)%char = false -> (first =? CR)%char = false ->
  digits <> [] -> forallb (between "0" "9") digits = true ->
  Regex.regex_match (string_of_list_ascii (first :: digits)) float_regex = true.
Proof.
  intros HLF HCR Hne Hdigits. apply regex_match_spec. unfold float_regex.
  apply matches_seq_nil_l; [apply Regex.m_alt_r; constructor|].
  apply matches_seq_nil_r; [|apply Regex.m_alt_r; constructor].
  apply Regex.m_alt_l, Regex.m_alt_l.
  apply matches_seq_nil_l; [constructor|].
  apply (Regex.m_seq _ _ (String first "") (string_of_list_ascii digits)).
  - constructor. rewrite HLF, HCR. reflexivity.
  - apply matches_plus_class. split.
    + destruct digits; [contradiction|discriminate].
    + rewrite list_ascii_of_string_of_list_ascii. exact Hdigits.
Qed.

Lemma digits_are_word_characters digits :
  forallb (between "0" "9") digits = true ->
  forallb is_word_character digits = true.
Proof.
  induction digits as [|d digits IH]; simpl; [reflexivity|].
  intros H. apply andb_true_iff in H. destruct H as [Hd H].
  rewrite (IH H). unfold is_word_character. rewrite Hd.
  rewrite !orb_true_r. reflexivity.
Qed.

(** X8: a bare token of one word character that is not a digit followed
    by digits (a sign and digits as in -17, a dot and digits, but also a
    name such as x1) is accepted by the float pattern, whose dot stands
    for any character, and by no pattern before it: [parse_value] hands
    the token to [std::stod] and delivers [floating_point] with what the
    conversion returns, or lets the conversion's exception pass.  Such a
    token is never an [integer] and never a [symbol]. *)
Theorem one_character_then_digits_is_floating_point
    fuel first digits ch rest offset evs :
  is_word_character first = true ->
  between "0" "9" first = false ->
  digits <> [] ->
  forallb (between "0" "9") digits = true ->
  is_word_character ch = false ->
  (List.length digits < fuel)%nat ->
  parse_value (S fuel) (parser_at (first :: digits ++ ch :: rest) offset evs) =
  match stod (string_of_list_ascii (first :: digits)) with
  | inr value =>
      Done toml_type_t.floating_point
        (parser_at (ch :: rest) (advance offset (S (List.length digits)))
           (evs ++ [Handler.floating_point value]))
  | inl e =>
      Throw (std_error e)
        (parser_at (ch :: rest) (advance offset (S (List.length digits))) evs)
  end.
Proof.
  intros Hfirst Hnondigit Hne Hdigits Hch Hfuel.
  cbn [parse_value]. erewrite bind_eq by apply input_peek_at.
  assert (Hnot : forall c, is_word_character c = false -> (first =? c)%char = false).
  { intros c Hc. destruct (first =? c)%char eqn:E; [|reflexivity].
    apply Ascii.eqb_eq in E. congruence. }
  rewrite !Hnot by reflexivity.
  unfold parse_bool_or_number_or_symbol.
  erewrite bind_eq by apply input_get_at.
  rewrite Hfirst. cbn [negb].
  erewrite bind_eq
    by (apply parse_word_loop_at;
        [apply digits_are_word_characters; exact Hdigits|exact Hch|exact Hfuel]).
  rewrite push_back_all.
  change (push_back "" first ++ string_of_list_ascii digits)%string
    with (string_of_list_ascii (first :: digits)).
  set (token := string_of_list_ascii (first :: digits)).
  assert (Hsecond : exists d tail, digits = d :: tail /\ between "0" "9" d = true).
  { destruct digits as [|d tail]; [contradiction|]. exists d, tail.
    simpl in Hdigits. apply andb_true_iff in Hdigits.
    split; [reflexivity|apply Hdigits]. }
  destruct Hsecond as (d & tail & Hd & Hdigit).
  assert (Htrue : (token =? "true")%string = false).
  { apply String.eqb_neq. unfold token. rewrite Hd. intros Heq.
    inversion Heq; subst. discriminate. }
  assert (Hfalse : (token =? "false")%string = false).
  { apply String.eqb_neq. unfold token. rewrite Hd. intros Heq.
    inversion Heq; subst. discriminate. }
  assert (Hint : Regex.regex_match token integer_regex = false).
  { destruct (Regex.regex_match token integer_regex) eqn:E; [|reflexivity].
    apply integer_regex_spec in E. destruct E as [_ E]. unfold token in E.
    rewrite list_ascii_of_string_of_list_ascii in E. simpl in E.
    rewrite Hnondigit in E. discriminate. }
  assert (Hfloat : Regex.regex_match token float_regex = true).
  { destruct (word_character_not_newline first Hfirst) as [HLF HCR].
    apply float_regex_any_then_digits; assumption. }
  rewrite Htrue, Hfalse, Hint, Hfloat, advance_succ_r.
  unfold bind, convert. destruct (stod token) as [e|value]; reflexivity.
Qed.

(** ** Strings written by [escape_string] *)

Lemma last_char_offset_Done p : exists offset, last_char_offset p = Done offset p.
Proof. unfold last_char_offset, bind, input_processed, ret. eauto. Qed.

Lemma to_char_uchar ch : to_char (uchar ch) = ch.
Proof.
  unfold to_char. rewrite Z.mod_small by apply uchar_range.
  unfold uchar. rewrite N2Z.id. apply ascii_N_embedding.
Qed.

Lemma hex_digits_nth n d :
  0 <= n < 16 -> hex_value (nth (Z.to_nat n) hex_digits d) = Some n.
Proof.
  intros H. rewrite <- (Z2Nat.id n) at 2 by lia.
  assert (Hk : (Z.to_nat n < 16)%nat) by lia.
  revert Hk. generalize (Z.to_nat n). intros k Hk.
  do 16 (destruct k as [|k]; [reflexivity|]). lia.
Qed.

Lemma append_assoc s1 s2 s3 : ((s1 ++ s2) ++ s3 = s1 ++ s2 ++ s3)%string.
Proof. induction s1; simpl; congruence. Qed.

Lemma bytes_app s1 s2 : bytes (s1 ++ s2) = bytes s1 ++ bytes s2.
Proof. unfold bytes. induction s1; simpl; congruence. Qed.

Lemma length_bytes s : List.length (bytes s) = String.length s.
Proof. unfold bytes. induction s; simpl; congruence. Qed.

Lemma advance_add offset n m :
  advance (advance offset n) m = advance offset (n + m).
Proof.
  unfold advance. rewrite Nat.add_comm. symmetry. apply Nat.iter_add.
Qed.

Lemma escape_string_step_app result ch :
  escape_string_step result ch = (result ++ escape_string_step "" ch)%string.
Proof.
  unfold escape_string_step, push_back.
  repeat match goal with
         | |- context [if ?c then _ else _] => destruct c
         end;
    simpl; rewrite ?append_assoc; reflexivity.
Qed.

Lemma escape_string_fold l result :
  fold_left escape_string_step l result =
  (result ++ fold_left escape_string_step l "")%string.
Proof.
  revert result. induction l as [|ch l IH]; intros result; simpl.
  - symmetry. apply append_nil_r.
  - rewrite IH, (IH (escape_string_step "" ch)), escape_string_step_app.
    apply append_assoc.
Qed.

Lemma escape_string_cons ch text :
  escape_string (String ch text) =
  (escape_string_step "" ch ++ escape_string text)%string.
Proof. unfold escape_string. simpl. apply escape_string_fold. Qed.

(** One character of the text: the loop of [parse_basic_string] reads
    what [escape_string] wrote for it in one iteration and appends the
    character. *)
Lemma parse_basic_string_loop_escaped fuel result ch tail offset evs :
  parse_basic_string_loop (S fuel) result
    (parser_at (bytes (escape_string_step "" ch) ++ tail) offset evs) =
  parse_basic_string_loop fuel (push_back result ch)
    (parser_at tail
       (advance offset (String.length (escape_string_step "" ch))) evs).
Proof.
  assert (Hescape : forall c text,
             parse_basic_string_loop (S fuel) result
               (parser_at (BACKSLASH :: c :: text) offset evs) =
             (result <- parse_escape_sequence
                          (if size_t (offset + 1) =? 0 then 0
                           else size_t (size_t (offset + 1) - 1)) result ;;
              parse_basic_string_loop fuel result)
               (parser_at (c :: text) (size_t (offset + 1)) evs)).
  { intros c text. reflexivity. }
  unfold escape_string_step.
  destruct (ch =? BACKSLASH)%char eqn:E1;
    [apply Ascii.eqb_eq in E1; subst ch; apply Hescape|].
  destruct (ch =? DQUOTE)%char eqn:E2;
    [apply Ascii.eqb_eq in E2; subst ch; apply Hescape|].
  destruct (ch =? BS)%char eqn:E3;
    [apply Ascii.eqb_eq in E3; subst ch; apply Hescape|].
  destruct (ch =? TAB)%char eqn:E4;
    [apply Ascii.eqb_eq in E4; subst ch; apply Hescape|].
  destruct (ch =? CR)%char eqn:E5;
    [apply Ascii.eqb_eq in E5; subst ch; apply Hescape|].
  destruct (ch =? LF)%char eqn:E6;
    [apply Ascii.eqb_eq in E6; subst ch; apply Hescape|].
  destruct (uchar ch <? 32) eqn:E7.
  - apply Z.ltb_lt in E7. pose proof (uchar_range ch) as Hrange.
    cbn [push_back append bytes list_ascii_of_string app String.length].
    rewrite Hescape. unfold bind at 1. rewrite parse_escape_sequence_u.
    assert (Hhi : 0 <= uchar ch / 16 < 16)
      by (split; [apply Z.div_pos; lia|apply Z.div_lt_upper_bound; lia]).
    assert (Hlo : 0 <= uchar ch mod 16 < 16) by (apply Z.mod_pos_bound; lia).
    destruct (parse_4_digit_codepoint_at "0" "0"
                (nth (Z.to_nat (uchar ch / 16)) hex_digits "000"%char)
                (nth (Z.to_nat (uchar ch mod 16)) hex_digits "000"%char)
                0 0 (uchar ch / 16) (uchar ch mod 16) tail
                (size_t (size_t (offset + 1) + 1)) evs) as [Hparse _].
    { cbn [map]. rewrite !hex_digits_nth by assumption. reflexivity. }
    unfold bind at 1. rewrite Hparse.
    replace (codepoint_of [0; 0; uchar ch / 16; uchar ch mod 16]) with (uchar ch)
      by (unfold codepoint_of; cbn [fold_left];
          pose proof (Z.div_mod (uchar ch) 16); lia).
    rewrite process_codepoint_cases.
    replace ((55296 <=? uchar ch) && (uchar ch <=? 57343)) with false
      by (symmetry; apply andb_false_iff; left; apply Z.leb_gt; lia).
    replace (1114111 <? uchar ch) with false by (symmetry; apply Z.ltb_ge; lia).
    unfold utf8_bytes.
    replace (uchar ch <=? 127) with true by (symmetry; apply Z.leb_le; lia).
    rewrite to_char_uchar. reflexivity.
  - cbn [push_back append bytes list_ascii_of_string app String.length
           parse_basic_string_loop].
    erewrite bind_eq by apply input_get_at.
    unfold iscontrol. rewrite E7, E2, E1. reflexivity.
Qed.

Lemma string_length_app s1 s2 :
  String.length (s1 ++ s2) = (String.length s1 + String.length s2)%nat.
Proof. induction s1; simpl; congruence. Qed.

Lemma parse_basic_string_loop_escape_string text :
  forall fuel result rest offset evs,
    (String.length text < fuel)%nat ->
    parse_basic_string_loop fuel result
      (parser_at (bytes (escape_string text) ++ DQUOTE :: rest) offset evs) =
    Done (result ++ text)%string
      (parser_at rest
         (advance offset (S (String.length (escape_string text)))) evs).
Proof.
  induction text as [|ch text IH]; intros fuel result rest offset evs Hfuel;
    (destruct fuel as [|fuel]; [simpl in Hfuel; lia|]).
  - rewrite append_nil_r. reflexivity.
  - rewrite escape_string_cons, bytes_app, <- app_assoc.
    rewrite parse_basic_string_loop_escaped.
    rewrite IH by (simpl in Hfuel; lia).
    rewrite advance_add, string_length_app, Nat.add_succ_r.
    unfold push_back. rewrite append_assoc. reflexivity.
Qed.

Lemma escape_string_first text ch tail :
  bytes (escape_string text) = ch :: tail -> ch <> DQUOTE.
Proof.
  destruct text as [|c text]; [discriminate|].
  rewrite escape_string_cons, bytes_app. unfold escape_string_step.
  repeat match goal with
         | |- context [if ?c then _ else _] => destruct c eqn:?
         end;
    cbn [push_back append bytes list_ascii_of_string app];
    intros H; inversion H; subst; try discriminate.
  intros ->. discriminate.
Qed.

Lemma parse_value_escape_string fuel text rest offset evs :
  (String.length text < fuel)%nat ->
  (text = "" -> exists ch tail, rest = ch :: tail /\ ch <> DQUOTE) ->
  parse_value (S fuel)
    (parser_at (DQUOTE :: bytes (escape_string text) ++ DQUOTE :: rest)
       offset evs) =
  Done toml_type_t.string
    (parser_at rest
       (advance offset (2 + String.length (escape_string text)))
       (evs ++ [Handler.string text])).
Proof.
  intros Hfuel Hempty.
  cbn [parse_value]. erewrite bind_eq by apply input_peek_at.
  change (DQUOTE =? "{")%char with false. change (DQUOTE =? "[")%char with false.
  change (DQUOTE =? DQUOTE)%char with true. cbv iota.
  assert (Hstring :
            parse_string fuel
              (parser_at (DQUOTE :: bytes (escape_string text) ++ DQUOTE :: rest)
                 offset evs) =
            Done tt
              (parser_at rest
                 (advance offset (2 + String.length (escape_string text)))
                 (evs ++ [Handler.string text])));
    [|erewrite bind_eq by exact Hstring; reflexivity].
  unfold parse_string. erewrite bind_eq by apply input_get_at.
  destruct (bytes (escape_string text)) as [|c tail] eqn:Hbytes.
  - assert (Htext : text = "").
    { destruct text as [|c text]; [reflexivity|].
      rewrite escape_string_cons, bytes_app in Hbytes.
      apply app_eq_nil in Hbytes. destruct Hbytes as [Hbytes _].
      unfold escape_string_step in Hbytes.
      repeat match type of Hbytes with
             | context [if ?c then _ else _] => destruct c
             end; discriminate. }
    destruct (Hempty Htext) as (ch & rest' & -> & Hch). subst text.
    cbn [app]. erewrite bind_eq by apply input_peek_at.
    change (DQUOTE =? DQUOTE)%char with true. cbv iota.
    erewrite bind_eq by apply input_get_at.
    erewrite bind_eq by apply input_peek_at.
    apply Ascii.eqb_neq in Hch. rewrite Hch. reflexivity.
  - pose proof (escape_string_first _ _ _ Hbytes) as Hc.
    apply Ascii.eqb_neq in Hc.
    cbn [app]. erewrite bind_eq by apply input_peek_at. rewrite Hc.
    change (c :: tail ++ DQUOTE :: rest) with ((c :: tail) ++ DQUOTE :: rest).
    rewrite <- Hbytes. unfold parse_basic_string.
    erewrite bind_eq by (apply parse_basic_string_loop_escape_string; exact Hfuel).
    rewrite advance_succ_r. reflexivity.
Qed.

(** X9: reading back what [escape_string] wrote.  For every string
    [text], the bytes of [escape_string text] between two double quotes
    are a basic string that [parse_value] reads back as [text]: it
    delivers [string text] and stops behind the closing quote.  (After
    the empty string the next byte must not be a third double quote.) *)
Theorem escape_string_round_trip fuel text rest offset evs :
  (String.length text < fuel)%nat ->
  (text = "" -> exists ch tail, rest = ch :: tail /\ ch <> DQUOTE) ->
  parse_value (S fuel)
    (parser_at (DQUOTE :: bytes (escape_string text) ++ DQUOTE :: rest)
       offset evs) =
  Done toml_type_t.string
    (parser_at rest
       (advance offset (2 + String.length (escape_string text)))
       (evs ++ [Handler.string text])).
Proof. apply parse_value_escape_string. Qed.

(** ** Names and booleans among the bare tokens *)

Lemma eqb_class (class : ascii -> bool) c d :
  class c = true -> class d = false -> (c =? d)%char = false.
Proof.
  intros Hc Hd. destruct (c =? d)%char eqn:E; [|reflexivity].
  apply Ascii.eqb_eq in E. congruence.
Qed.

Lemma existsb_bytes_app (f : ascii -> bool) s1 s2 :
  existsb f (list_ascii_of_string (s1 ++ s2)) =
  existsb f (list_ascii_of_string s1) || existsb f (list_ascii_of_string s2).
Proof.
  induction s1 as [|c s1 IH]; simpl; [reflexivity|].
  rewrite IH. apply orb_assoc.
Qed.

Lemma matches_plus_digit_exists s :
  Regex.matches (Regex.plus Regex.digit) s ->
  existsb (between "0" "9") (list_ascii_of_string s) = true.
Proof.
  intros H. apply matches_plus_class in H. destruct H as [Hne H].
  destruct s as [|c s]; [contradiction|].
  simpl in *. apply andb_true_iff in H. destruct H as [-> _]. reflexivity.
Qed.

Ltac split_seq H :=
  inversion H; subst; clear H; rewrite ?existsb_bytes_app.

(** Every string the float pattern accepts holds a decimal digit. *)
Lemma float_regex_needs_digit s :
  Regex.matches float_regex s ->
  existsb (between "0" "9") (list_ascii_of_string s) = true.
Proof.
  unfold float_regex. intros H.
  split_seq H.
  match goal with H : Regex.matches (Regex.seq (Regex.alt _ _) _) _ |- _ =>
    split_seq H end.
  match goal with H : Regex.matches (Regex.alt (Regex.alt _ _) _) _ |- _ =>
    inversion H as [| | |a b t Hl|a b t Hr| |]; subst; clear H end.
  - match goal with H : Regex.matches (Regex.alt _ _) _ |- _ =>
      inversion H as [| | |a b t Hl'|a b t Hr'| |]; subst; clear H end.
    + split_seq Hl'.
      match goal with H : Regex.matches (Regex.seq Regex.any_char _) _ |- _ =>
        split_seq H end.
      match goal with H : Regex.matches (Regex.plus Regex.digit) _ |- _ =>
        rewrite (matches_plus_digit_exists _ H) end.
      rewrite !orb_true_r. reflexivity.
    + split_seq Hr'.
      match goal with H : Regex.matches (Regex.plus Regex.digit) _ |- _ =>
        rewrite (matches_plus_digit_exists _ H) end.
      rewrite !orb_true_r. reflexivity.
  - rewrite (matches_plus_digit_exists _ Hr).
    rewrite !orb_true_r. reflexivity.
Qed.

Lemma letter_word_character ch :
  letter ch = true ->
  is_word_character ch = true /\ between "0" "9" ch = false.
Proof.
  unfold letter, is_word_character. intros H. split.
  - destruct (between "a" "z" ch); [reflexivity|].
    destruct (between "A" "Z" ch); [reflexivity|]. simpl in H.
    rewrite H. rewrite !orb_true_r. reflexivity.
  - destruct (between "0" "9" ch) eqn:E; [|reflexivity].
    apply between_spec in E.
    change (uchar "0") with 48 in E. change (uchar "9") with 57 in E.
    apply orb_true_iff in H. destruct H as [H|H];
      [apply orb_true_iff in H; destruct H as [H|H]|].
    + apply between_spec in H. change (uchar "a") with 97 in H. lia.
    + apply between_spec in H. change (uchar "A") with 65 in H. lia.
    + apply Ascii.eqb_eq in H. subst ch. vm_compute in E. destruct E. congruence.
Qed.

Lemma letters_no_digit token :
  forallb letter token = true -> existsb (between "0" "9") token = false.
Proof.
  induction token as [|c token IH]; simpl; [reflexivity|].
  intros H. apply andb_true_iff in H. destruct H as [Hc H].
  destruct (letter_word_character c Hc) as [_ ->]. apply IH, H.
Qed.

Lemma letters_word_characters token :
  forallb letter token = true -> forallb is_word_character token = true.
Proof.
  induction token as [|c token IH]; simpl; [reflexivity|].
  intros H. apply andb_true_iff in H. destruct H as [Hc H].
  destruct (letter_word_character c Hc) as [-> _]. apply IH, H.
Qed.

Lemma symbol_regex_letters first token :
  letter first = true -> forallb letter token = true ->
  Regex.regex_match (string_of_list_ascii (first :: token)) symbol_regex = true.
Proof.
  intros Hfirst Htoken. apply regex_match_spec. unfold symbol_regex.
  apply (Regex.m_seq _ _ (String first "") (string_of_list_ascii token)).
  - constructor. exact Hfirst.
  - apply matches_star_class. rewrite list_ascii_of_string_of_list_ascii.
    clear Hfirst. induction token as [|c token IH]; simpl; [reflexivity|].
    simpl in Htoken. apply andb_true_iff in Htoken. destruct Htoken as [Hc H].
    rewrite (IH H), andb_true_r. unfold letter in Hc.
    destruct (between "a" "z" c); [reflexivity|].
    destruct (between "A" "Z" c); [reflexivity|]. simpl in Hc.
    rewrite Hc. rewrite !orb_true_r. reflexivity.
Qed.

Lemma parse_value_letters fuel first token ch rest offset evs :
  letter first = true ->
  forallb letter token = true ->
  is_word_character ch = false ->
  (List.length token < fuel)%nat ->
  parse_value (S fuel) (parser_at (first :: token ++ ch :: rest) offset evs) =
  let name := string_of_list_ascii (first :: token) in
  let after events :=
    parser_at (ch :: rest) (advance offset (S (List.length token)))
      (evs ++ events) in
  if (name =? "true")%string then
    Done toml_type_t.boolean (after [Handler.boolean true])
  else if (name =? "false")%string then
    Done toml_type_t.boolean (after [Handler.boolean false])
  else Done toml_type_t.symbol (after [Handler.symbol name]).
Proof.
  intros Hfirst Htoken Hch Hfuel.
  destruct (letter_word_character first Hfirst) as [Hword Hnondigit].
  cbn [parse_value]. erewrite bind_eq by apply input_peek_at.
  rewrite !(eqb_class is_word_character first _ Hword) by reflexivity.
  unfold parse_bool_or_number_or_symbol.
  erewrite bind_eq by apply input_get_at.
  rewrite Hword. cbn [negb].
  erewrite bind_eq
    by (apply parse_word_loop_at;
        [apply letters_word_characters; exact Htoken|exact Hch|exact Hfuel]).
  rewrite push_back_all.
  change (push_back "" first ++ string_of_list_ascii token)%string
    with (string_of_list_ascii (first :: token)).
  cbv zeta. set (name := string_of_list_ascii (first :: token)).
  rewrite advance_succ_r.
  destruct (name =? "true")%string; [reflexivity|].
  destruct (name =? "false")%string; [reflexivity|].
  assert (Hint : Regex.regex_match name integer_regex = false).
  { destruct (Regex.regex_match name integer_regex) eqn:E; [|reflexivity].
    apply integer_regex_spec in E. destruct E as [_ E]. unfold name in E.
    rewrite list_ascii_of_string_of_list_ascii in E. simpl in E.
    rewrite Hnondigit in E. discriminate. }
  assert (Hfloat : Regex.regex_match name float_regex = false).
  { destruct (Regex.regex_match name float_regex) eqn:E; [|reflexivity].
    apply regex_match_spec, float_regex_needs_digit in E. unfold name in E.
    rewrite list_ascii_of_string_of_list_ascii in E. simpl in E.
    rewrite Hnondigit, (letters_no_digit token Htoken) in E. discriminate. }
  rewrite Hint, Hfloat. unfold name.
  rewrite (symbol_regex_letters first token Hfirst Htoken). reflexivity.
Qed.

(** X11: a bare token made of letters and underscores only is a boolean
    or a name.  [parse_value] delivers [boolean true] for the token true,
    [boolean false] for the token false (in lower case only) and
    [symbol] with the token itself for every other such token: the
    numeric patterns need a digit. *)
Theorem letters_token_is_boolean_or_symbol fuel first token ch rest offset evs :
  letter first = true ->
  forallb letter token = true ->
  is_word_character ch = false ->
  (List.length token < fuel)%nat ->
  parse_value (S fuel) (parser_at (first :: token ++ ch :: rest) offset evs) =
  let name := string_of_list_ascii (first :: token) in
  let after events :=
    parser_at (ch :: rest) (advance offset (S (List.length token)))
      (evs ++ events) in
  if (name =? "true")%string then
    Done toml_type_t.boolean (after [Handler.boolean true])
  else if (name =? "false")%string then
    Done toml_type_t.boolean (after [Handler.boolean false])
  else Done toml_type_t.symbol (after [Handler.symbol name]).
Proof. apply parse_value_letters. Qed.

(** ** Documents written line by line *)

Lemma size_t_advance offset : size_t (offset + 1) = advance offset 1.
Proof. reflexivity. Qed.

Lemma input_eof_at ch text offset evs :
  input_eof (parser_at (ch :: text) offset evs) =
  Done false (parser_at (ch :: text) offset evs).
Proof. reflexivity. Qed.

Lemma input_eof_end offset evs :
  input_eof (parser_at [] offset evs) = Done true (parser_at [] offset evs).
Proof. reflexivity. Qed.

Lemma parse_chars_at expected ch rest offset evs :
  existsb (Ascii.eqb ch) expected = true ->
  parse_chars expected (parser_at (ch :: rest) offset evs) =
  Done ch (parser_at rest (size_t (offset + 1)) evs).
Proof.
  intros H. unfold parse_chars.
  erewrite bind_eq by apply input_get_at. rewrite H. reflexivity.
Qed.

Lemma skip_spaces_none fuel ch rest offset evs :
  ((ch =? " ") || (ch =? TAB))%char = false ->
  skip_spaces (S fuel) (parser_at (ch :: rest) offset evs) =
  Done tt (parser_at (ch :: rest) offset evs).
Proof.
  intros H. cbn [skip_spaces].
  erewrite bind_eq by apply input_eof_at. cbv iota.
  erewrite bind_eq by apply input_peek_at.
  rewrite H. reflexivity.
Qed.

Lemma skip_spaces_one fuel ch rest offset evs :
  ((ch =? " ") || (ch =? TAB))%char = false ->
  skip_spaces (S (S fuel)) (parser_at (" "%char :: ch :: rest) offset evs) =
  Done tt (parser_at (ch :: rest) (advance offset 1) evs).
Proof.
  intros H. cbn [skip_spaces].
  erewrite bind_eq by apply input_eof_at. cbv iota.
  erewrite bind_eq by apply input_peek_at.
  change ((" " =? " ") || (" " =? TAB))%char with true. cbv iota.
  erewrite bind_eq by apply input_get_at.
  erewrite bind_eq by apply input_eof_at. cbv iota.
  erewrite bind_eq by apply input_peek_at.
  rewrite H. reflexivity.
Qed.

Lemma parse_key_loop_at fuel key name ch rest offset evs :
  forallb is_key_character name = true ->
  is_key_character ch = false ->
  (List.length name < fuel)%nat ->
  parse_key_loop fuel key (parser_at (name ++ ch :: rest) offset evs) =
  Done (fold_left push_back name key)
    (parser_at (ch :: rest) (advance offset (List.length name)) evs).
Proof.
  revert fuel key offset.
  induction name as [|c name IH]; intros fuel key offset Hname Hch Hfuel.
  - destruct fuel as [|fuel]; [simpl in Hfuel; lia|].
    cbn [parse_key_loop app]. erewrite bind_eq by apply input_peek_at.
    rewrite Hch. reflexivity.
  - destruct fuel as [|fuel]; [simpl in Hfuel; lia|].
    simpl in Hname. apply andb_true_iff in Hname. destruct Hname as [Hc Hname].
    cbn [parse_key_loop app]. erewrite bind_eq by apply input_peek_at.
    rewrite Hc. erewrite bind_eq by apply input_get_at.
    rewrite IH by (assumption || (simpl in Hfuel; lia)).
    rewrite advance_succ_r. reflexivity.
Qed.

Lemma bare_key_spec name :
  bare_key name = true ->
  exists c tail,
    name = String c tail /\ is_key_character c = true /\
    forallb is_key_character (bytes tail) = true.
Proof.
  unfold bare_key. intros H. apply andb_true_iff in H. destruct H as [Hne H].
  destruct name as [|c tail]; [discriminate|].
  simpl in H. apply andb_true_iff in H. destruct H as [Hc H].
  exists c, tail. repeat split; assumption.
Qed.

(** A bare key is read up to the first byte that is no key character. *)
Lemma parse_key_bare_at fuel name ch rest offset evs :
  bare_key name = true ->
  is_key_character ch = false ->
  (String.length name <= fuel)%nat ->
  parse_key fuel (parser_at (bytes name ++ ch :: rest) offset evs) =
  Done name
    (parser_at (ch :: rest) (advance offset (String.length name)) evs).
Proof.
  intros Hname Hch Hfuel.
  destruct (bare_key_spec name Hname) as (c & tail & -> & Hc & Htail).
  unfold parse_key. cbn [bytes list_ascii_of_string app].
  erewrite bind_eq by apply input_peek_at.
  rewrite (eqb_class is_key_character c DQUOTE Hc eq_refl).
  erewrite bind_eq by apply input_get_at.
  rewrite Hc. cbn [negb].
  rewrite parse_key_loop_at
    by (assumption || (rewrite length_bytes; simpl in Hfuel; lia)).
  rewrite push_back_all, advance_succ_r, length_bytes.
  unfold bytes. rewrite string_of_list_ascii_of_string. reflexivity.
Qed.

Lemma parse_comment_loop_at fuel comment text ch rest offset evs :
  forallb (fun c => (c =? TAB)%char || negb (iscontrol c)) text = true ->
  (ch =? TAB)%char || negb (iscontrol ch) = false ->
  (List.length text < fuel)%nat ->
  parse_comment_loop fuel comment (parser_at (text ++ ch :: rest) offset evs) =
  Done (fold_left push_back text comment)
    (parser_at (ch :: rest) (advance offset (List.length text)) evs).
Proof.
  revert fuel comment offset.
  induction text as [|c text IH]; intros fuel comment offset Htext Hch Hfuel.
  - destruct fuel as [|fuel]; [simpl in Hfuel; lia|].
    cbn [parse_comment_loop app]. erewrite bind_eq by apply input_peek_at.
    rewrite Hch. reflexivity.
  - destruct fuel as [|fuel]; [simpl in Hfuel; lia|].
    simpl in Htext. apply andb_true_iff in Htext. destruct Htext as [Hc Htext].
    cbn [parse_comment_loop app]. erewrite bind_eq by apply input_peek_at.
    rewrite Hc. erewrite bind_eq by apply input_get_at.
    rewrite IH by (assumption || (simpl in Hfuel; lia)).
    rewrite advance_succ_r. reflexivity.
Qed.

Lemma parse_comment_at fuel text ch rest offset evs :
  forallb (fun c => (c =? TAB)%char || negb (iscontrol c)) (bytes text) = true ->
  (ch =? TAB)%char || negb (iscontrol ch) = false ->
  (String.length text < fuel)%nat ->
  parse_comment fuel (parser_at ("#"%char :: bytes text ++ ch :: rest) offset evs) =
  Done tt
    (parser_at (ch :: rest) (advance offset (S (String.length text)))
       (evs ++ [Handler.comment text])).
Proof.
  intros Htext Hch Hfuel. unfold parse_comment.
  erewrite bind_eq by apply input_get_at.
  erewrite bind_eq
    by (apply parse_comment_loop_at;
        [exact Htext|exact Hch|rewrite length_bytes; exact Hfuel]).
  rewrite push_back_all, advance_succ_r, length_bytes.
  unfold bytes. rewrite string_of_list_ascii_of_string. reflexivity.
Qed.

Lemma dotted_length name rest :
  (String.length name <= List.length (dotted (name :: rest)))%nat.
Proof.
  cbn [dotted]. destruct rest.
  - rewrite length_bytes. lia.
  - rewrite length_app, length_bytes. lia.
Qed.

Lemma parse_table_header_loop_at path :
  forall fuel array_item done tail offset evs,
    path <> [] ->
    forallb bare_key path = true ->
    (List.length (dotted path) < fuel)%nat ->
    parse_table_header_loop fuel array_item done
      (parser_at (dotted path ++ closing array_item ++ tail) offset evs) =
    Done (done ++ path)
      (parser_at tail
         (advance offset
            (List.length (dotted path) + List.length (closing array_item)))
         evs).
Proof.
  induction path as [|name path IH];
    intros fuel array_item done tail offset evs Hne Hpath Hfuel;
    [contradiction|].
  cbn [forallb] in Hpath. apply andb_true_iff in Hpath.
  destruct Hpath as [Hname Hpath].
  pose proof (dotted_length name path) as Hlen.
  destruct (bare_key_spec name Hname) as (c & tl & Hc & Hkc & Htl).
  assert (Hpos : (1 <= String.length name)%nat) by (rewrite Hc; simpl; lia).
  destruct fuel as [|fuel]; [lia|]. destruct fuel as [|fuel]; [lia|].
  assert (Hstep : forall sep more,
             is_key_character sep = false ->
             ((sep =? " ") || (sep =? TAB))%char = false ->
             parse_table_header_loop (S (S fuel)) array_item done
               (parser_at (bytes name ++ sep :: more) offset evs) =
             (ch <- input_peek ;;
              if (ch =? "]")%char then
                input_get ;;;
                (if array_item then parse_chars (bytes "]") ;;; ret tt
                 else ret tt) ;;;
                ret (done ++ [name])
              else
                parse_chars (bytes ".") ;;;
                parse_table_header_loop (S fuel) array_item (done ++ [name]))
               (parser_at (sep :: more)
                  (advance offset (String.length name)) evs)).
  { intros sep more Hsep Hspace. cbn [parse_table_header_loop].
    assert (Hfirst : ((c =? " ") || (c =? TAB))%char = false).
    { rewrite (eqb_class is_key_character c " " Hkc eq_refl).
      rewrite (eqb_class is_key_character c TAB Hkc eq_refl). reflexivity. }
    rewrite Hc at 1. cbn [bytes list_ascii_of_string app].
    erewrite bind_eq by (apply skip_spaces_none; exact Hfirst).
    change (c :: list_ascii_of_string tl ++ sep :: more)
      with (bytes (String c tl) ++ sep :: more).
    rewrite <- Hc.
    erewrite bind_eq by (apply parse_key_bare_at; [assumption|assumption|lia]).
    erewrite bind_eq by (apply skip_spaces_none; exact Hspace).
    reflexivity. }
  destruct path as [|next path].
  - cbn [dotted]. unfold closing.
    destruct array_item; cbn [bytes list_ascii_of_string app].
    + rewrite Hstep by reflexivity.
      erewrite bind_eq by apply input_peek_at.
      change ("]" =? "]")%char with true. cbv iota.
      erewrite bind_eq by apply input_get_at.
      rewrite length_bytes, <- advance_add. reflexivity.
    + rewrite Hstep by reflexivity.
      erewrite bind_eq by apply input_peek_at.
      change ("]" =? "]")%char with true. cbv iota.
      erewrite bind_eq by apply input_get_at.
      rewrite length_bytes, <- advance_add. reflexivity.
  - remember (next :: path) as more eqn:Hmore.
    assert (Hdot : dotted (name :: more) = bytes name ++ "."%char :: dotted more).
    { rewrite Hmore. reflexivity. }
    rewrite Hdot in *. rewrite <- app_assoc. cbn [app].
    rewrite Hstep by reflexivity.
    erewrite bind_eq by apply input_peek_at.
    change ("." =? "]")%char with false. cbv iota.
    erewrite bind_eq by (apply parse_chars_at; reflexivity).
    rewrite length_app, length_bytes in Hfuel. simpl in Hfuel.
    rewrite IH by (try (rewrite Hmore; discriminate); try assumption; lia).
    rewrite <- app_assoc. cbn [app].
    rewrite length_app, length_bytes. cbn [List.length].
    rewrite advance_succ_r, advance_add.
    do 2 f_equal. f_equal. lia.
Qed.

Lemma parse_table_header_at fuel array_item path tail offset evs :
  path <> [] ->
  forallb bare_key path = true ->
  (List.length (dotted path) < fuel)%nat ->
  parse_table_header fuel
    (parser_at (opening array_item ++ dotted path ++ closing array_item ++ tail)
       offset evs) =
  Done tt
    (parser_at tail
       (advance offset
          (List.length (opening array_item ++ dotted path ++ closing array_item)))
       (evs ++ [if array_item then Handler.array_table path
                else Handler.table path])).
Proof.
  intros Hne Hpath Hfuel. unfold parse_table_header.
  destruct path as [|name path]; [contradiction|].
  pose proof Hpath as Hname. cbn [forallb] in Hname.
  apply andb_true_iff in Hname. destruct Hname as [Hname _].
  destruct (bare_key_spec name Hname) as (c & tl & Hc & Hkc & Htl).
  assert (Hhead : exists more, dotted (name :: path) = c :: more).
  { cbn [dotted]. rewrite Hc.
    destruct path; cbn [bytes list_ascii_of_string app]; eauto. }
  destruct Hhead as [more Hhead].
  destruct array_item; cbn [opening bytes list_ascii_of_string app].
  - erewrite bind_eq by apply input_get_at.
    erewrite bind_eq by apply input_peek_at.
    change ("[" =? "[")%char with true. cbv iota.
    rewrite bind_assoc. erewrite bind_eq by apply input_get_at.
    erewrite bind_eq by (unfold ret; reflexivity).
    erewrite bind_eq by (apply parse_table_header_loop_at; assumption).
    cbn [List.length]. rewrite length_app, !advance_succ_r. reflexivity.
  - erewrite bind_eq by apply input_get_at.
    rewrite Hhead. cbn [app]. erewrite bind_eq by apply input_peek_at.
    rewrite (eqb_class is_key_character c "[" Hkc eq_refl).
    erewrite bind_eq by (unfold ret; reflexivity).
    change (c :: more ++ closing false ++ tail)
      with ((c :: more) ++ closing false ++ tail).
    rewrite <- Hhead.
    erewrite bind_eq by (apply parse_table_header_loop_at; assumption).
    rewrite Hhead. cbn [List.length]. rewrite length_app, !advance_succ_r.
    reflexivity.
Qed.

Lemma escape_string_length text :
  (String.length text <= String.length (escape_string text))%nat.
Proof.
  induction text as [|ch text IH]; [simpl; lia|].
  rewrite escape_string_cons, string_length_app.
  assert (1 <= String.length (escape_string_step "" ch))%nat.
  { unfold escape_string_step.
    repeat match goal with
           | |- context [if ?c then _ else _] => destruct c
           end; simpl; lia. }
  simpl. lia.
Qed.

Lemma parse_trailing_comment_none fuel ch rest offset evs :
  (ch =? "#")%char = false ->
  parse_trailing_comment fuel (parser_at (ch :: rest) offset evs) =
  Done tt (parser_at (ch :: rest) offset evs).
Proof.
  intros H. unfold parse_trailing_comment.
  erewrite bind_eq by apply input_eof_at. cbv iota.
  erewrite bind_eq by apply input_peek_at. rewrite H. reflexivity.
Qed.

Lemma parse_expression_comment_line fuel text rest offset evs :
  printable (comment_line text) = true ->
  (List.length (print_line (comment_line text)) < fuel)%nat ->
  parse_expression fuel
    (parser_at (print_line (comment_line text) ++ LF :: rest) offset evs) =
  Done tt
    (parser_at (LF :: rest)
       (advance offset (List.length (print_line (comment_line text))))
       (evs ++ line_events (comment_line text))).
Proof.
  cbn [printable print_line line_events List.length app]. intros Htext Hfuel.
  rewrite length_bytes in *.
  destruct fuel as [|fuel]; [lia|]. unfold parse_expression.
  erewrite bind_eq by (apply skip_spaces_none; reflexivity).
  erewrite bind_eq by apply input_eof_at. cbv iota.
  erewrite bind_eq by apply input_peek_at.
  change (("#" =? CR) || ("#" =? LF))%char with false.
  change ("#" =? "#")%char with true. cbv iota.
  apply parse_comment_at; [exact Htext|reflexivity|lia].
Qed.

Lemma parse_expression_table_line fuel array_item path rest offset evs :
  path <> [] ->
  forallb bare_key path = true ->
  (List.length (opening array_item ++ dotted path ++ closing array_item) < fuel)%nat ->
  parse_expression fuel
    (parser_at
       ((opening array_item ++ dotted path ++ closing array_item) ++ LF :: rest)
       offset evs) =
  Done tt
    (parser_at (LF :: rest)
       (advance offset
          (List.length (opening array_item ++ dotted path ++ closing array_item)))
       (evs ++ [if array_item then Handler.array_table path
                else Handler.table path])).
Proof.
  intros Hne Hpath Hfuel.
  assert (Hhead : exists more, opening array_item = "["%char :: more)
    by (destruct array_item; simpl; eauto).
  destruct Hhead as [more Hhead].
  assert (Hlen : (List.length (dotted path) < fuel)%nat)
    by (rewrite !length_app in Hfuel; lia).
  destruct fuel as [|fuel]; [lia|]. unfold parse_expression.
  rewrite <- !app_assoc. rewrite Hhead at 1. cbn [app].
  erewrite bind_eq by (apply skip_spaces_none; reflexivity).
  erewrite bind_eq by apply input_eof_at. cbv iota.
  erewrite bind_eq by apply input_peek_at.
  change (("[" =? CR) || ("[" =? LF))%char with false.
  change ("[" =? "#")%char with false.
  change ("[" =? "[")%char with true. cbv iota.
  change ("["%char :: more ++ dotted path ++ closing array_item ++ LF :: rest)
    with (("["%char :: more) ++ dotted path ++ closing array_item ++ LF :: rest).
  rewrite <- Hhead.
  erewrite bind_eq by (apply parse_table_header_at; assumption).
  erewrite bind_eq by (apply skip_spaces_none; reflexivity).
  apply parse_trailing_comment_none. reflexivity.
Qed.

Lemma parse_expression_pair_line fuel key value rest offset evs :
  printable (pair_line key value) = true ->
  (List.length (print_line (pair_line key value)) < fuel)%nat ->
  parse_expression fuel
    (parser_at (print_line (pair_line key value) ++ LF :: rest) offset evs) =
  Done tt
    (parser_at (LF :: rest)
       (advance offset (List.length (print_line (pair_line key value))))
       (evs ++ line_events (pair_line key value))).
Proof.
  cbn [printable print_line line_events]. intros Hkey Hfuel.
  destruct (bare_key_spec key Hkey) as (c & tl & Hc & Hkc & Htl).
  pose proof (escape_string_length value) as Hvalue.
  rewrite !length_app in *. cbn [List.length bytes list_ascii_of_string] in *.
  rewrite !length_app in *. cbn [List.length] in *.
  rewrite !length_bytes in *.
  fold (bytes key) in *. rewrite ?length_bytes in *.
  destruct fuel as [|fuel]; [lia|]. destruct fuel as [|fuel]; [lia|].
  unfold parse_expression.
  rewrite <- !app_assoc. cbn [app]. rewrite <- !app_assoc. cbn [app].
  rewrite Hc at 1. cbn [bytes list_ascii_of_string app].
  assert (Hfirst : forall d, is_key_character d = false -> (c =? d)%char = false)
    by (intros d Hd; apply (eqb_class is_key_character); assumption).
  erewrite bind_eq by (apply skip_spaces_none; rewrite !Hfirst; reflexivity).
  erewrite bind_eq by apply input_eof_at. cbv iota.
  erewrite bind_eq by apply input_peek_at.
  rewrite !Hfirst by reflexivity. cbv iota. cbn [orb].
  match goal with
  | |- context [parser_at (c :: list_ascii_of_string tl ++ ?more)] =>
      change (c :: list_ascii_of_string tl ++ more)
        with (bytes (String c tl) ++ more)
  end.
  rewrite <- Hc.
  assert (Hpair :
            parse_kv_pair (S (S fuel))
              (parser_at
                 (bytes key ++ " "%char :: "="%char :: " "%char :: DQUOTE ::
                    bytes (escape_string value) ++ DQUOTE :: LF :: rest)
                 offset evs) =
            Done tt
              (parser_at (LF :: rest)
                 (advance offset
                    (String.length key +
                     S (S (S (S (String.length (escape_string value) + 1))))))
                 (evs ++ [Handler.key key; Handler.string value]))).
  { unfold parse_kv_pair.
    erewrite bind_eq by (apply parse_key_bare_at; [assumption|reflexivity|lia]).
    erewrite bind_eq by reflexivity.
    erewrite bind_eq.
    2: { apply (skip_spaces_one fuel "="%char). reflexivity. }
    erewrite bind_eq by (apply parse_chars_at; reflexivity).
    erewrite bind_eq.
    2: { apply (skip_spaces_one fuel DQUOTE). reflexivity. }
    erewrite bind_eq.
    2: { apply parse_value_escape_string; [lia|].
         intros _. exists LF, rest. split; [reflexivity|discriminate]. }
    unfold ret. rewrite <- app_assoc. cbn [app].
    rewrite !advance_succ_r, !advance_add. do 2 f_equal. f_equal. lia. }
  erewrite bind_eq by exact Hpair.
  erewrite bind_eq by (apply skip_spaces_none; reflexivity).
  apply parse_trailing_comment_none. reflexivity.
Qed.

Lemma plain_name_spec name :
  plain_name name = true ->
  exists first tail,
    name = String first tail /\ letter first = true /\
    forallb letter (bytes tail) = true /\
    (name =? "true")%string = false /\ (name =? "false")%string = false.
Proof.
  unfold plain_name. intros H.
  apply andb_true_iff in H. destruct H as [H Hfalse].
  apply andb_true_iff in H. destruct H as [H Htrue].
  apply andb_true_iff in H. destruct H as [Hne Hletters].
  apply negb_true_iff in Htrue. apply negb_true_iff in Hfalse.
  destruct name as [|first tail]; [discriminate|].
  cbn [bytes list_ascii_of_string forallb] in Hletters.
  apply andb_true_iff in Hletters. destruct Hletters as [Hfirst Htail].
  exists first, tail. repeat split; assumption.
Qed.

Lemma parse_expression_symbol_line fuel key name rest offset evs :
  printable (symbol_line key name) = true ->
  (List.length (print_line (symbol_line key name)) < fuel)%nat ->
  parse_expression fuel
    (parser_at (print_line (symbol_line key name) ++ LF :: rest) offset evs) =
  Done tt
    (parser_at (LF :: rest)
       (advance offset (List.length (print_line (symbol_line key name))))
       (evs ++ line_events (symbol_line key name))).
Proof.
  cbn [printable print_line line_events]. intros Hline Hfuel.
  apply andb_true_iff in Hline. destruct Hline as [Hkey Hname].
  destruct (bare_key_spec key Hkey) as (c & tl & Hc & Hkc & Htl).
  destruct (plain_name_spec name Hname)
    as (first & tail & Hn & Hfirst & Htail & Htrue & Hfalse).
  rewrite !length_app in *. cbn [List.length bytes list_ascii_of_string] in *.
  fold (bytes key) in *. fold (bytes name) in *. rewrite ?length_bytes in *.
  destruct fuel as [|fuel]; [lia|]. destruct fuel as [|fuel]; [lia|].
  unfold parse_expression.
  rewrite <- !app_assoc. cbn [app].
  rewrite Hc at 1. cbn [bytes list_ascii_of_string app].
  assert (Hnot : forall d, is_key_character d = false -> (c =? d)%char = false)
    by (intros d Hd; apply (eqb_class is_key_character); assumption).
  erewrite bind_eq by (apply skip_spaces_none; rewrite !Hnot; reflexivity).
  erewrite bind_eq by apply input_eof_at. cbv iota.
  erewrite bind_eq by apply input_peek_at.
  rewrite !Hnot by reflexivity. cbv iota. cbn [orb].
  match goal with
  | |- context [parser_at (c :: list_ascii_of_string tl ++ ?more)] =>
      change (c :: list_ascii_of_string tl ++ more)
        with (bytes (String c tl) ++ more)
  end.
  rewrite <- Hc.
  assert (Hpair :
            parse_kv_pair (S (S fuel))
              (parser_at
                 (bytes key ++ " "%char :: "="%char :: " "%char ::
                    bytes name ++ LF :: rest)
                 offset evs) =
            Done tt
              (parser_at (LF :: rest)
                 (advance offset
                    (String.length key + S (S (S (String.length name)))))
                 (evs ++ [Handler.key key; Handler.symbol name]))).
  { unfold parse_kv_pair.
    erewrite bind_eq by (apply parse_key_bare_at; [assumption|reflexivity|lia]).
    erewrite bind_eq by reflexivity.
    erewrite bind_eq.
    2: { apply (skip_spaces_one fuel "="%char). reflexivity. }
    erewrite bind_eq by (apply parse_chars_at; reflexivity).
    destruct (letter_word_character first Hfirst) as [Hword _].
    assert (Hspace : ((first =? " ") || (first =? TAB))%char = false).
    { rewrite !(eqb_class is_word_character first _ Hword) by reflexivity.
      reflexivity. }
    rewrite Hn at 1. cbn [bytes list_ascii_of_string app].
    erewrite bind_eq.
    2: { apply (skip_spaces_one fuel first). exact Hspace. }
    pose proof (parse_value_letters (S fuel) first (bytes tail) LF rest
                  (advance (size_t (advance (advance offset (String.length key)) 1 + 1)) 1)
                  (evs ++ [Handler.key key]) Hfirst Htail eq_refl) as Hvalue.
    cbv zeta in Hvalue.
    assert (Hname' : string_of_list_ascii (first :: bytes tail) = name).
    { rewrite Hn. cbn [string_of_list_ascii]. unfold bytes.
      rewrite string_of_list_ascii_of_string. reflexivity. }
    rewrite Hname', Htrue, Hfalse in Hvalue.
    erewrite bind_eq.
    2: { apply Hvalue. rewrite length_bytes. rewrite Hn in Hfuel.
         simpl in Hfuel. lia. }
    unfold ret. rewrite <- app_assoc. cbn [app].
    rewrite length_bytes, ?advance_succ_r, ?size_t_advance, !advance_add.
    match goal with
    | |- Done _ (parser_at _ (advance _ ?a) _) =
         Done _ (parser_at _ (advance _ ?b) _) => replace b with a
    end; [reflexivity|].
    rewrite Hn. simpl. lia. }
  erewrite bind_eq by exact Hpair.
  erewrite bind_eq by (apply skip_spaces_none; reflexivity).
  rewrite parse_trailing_comment_none by reflexivity.
  match goal with
  | |- Done _ (parser_at _ (advance _ ?a) _) =
       Done _ (parser_at _ (advance _ ?b) _) => replace b with a by lia
  end.
  reflexivity.
Qed.

Lemma parse_expression_line fuel l rest offset evs :
  printable l = true ->
  (List.length (print_line l) < fuel)%nat ->
  parse_expression fuel (parser_at (print_line l ++ LF :: rest) offset evs) =
  Done tt
    (parser_at (LF :: rest) (advance offset (List.length (print_line l)))
       (evs ++ line_events l)).
Proof.
  destruct l as [text|path|path|key value|key name].
  - apply parse_expression_comment_line.
  - cbn [printable print_line line_events]. intros Hpath Hfuel.
    destruct path as [|name path]; [discriminate|].
    apply (parse_expression_table_line fuel false);
      [discriminate|assumption|assumption].
  - cbn [printable print_line line_events]. intros Hpath Hfuel.
    destruct path as [|name path]; [discriminate|].
    apply (parse_expression_table_line fuel true);
      [discriminate|assumption|assumption].
  - apply parse_expression_pair_line.
  - apply parse_expression_symbol_line.
Qed.

Lemma parse_lines lines :
  forall fuel offset evs,
    forallb printable lines = true ->
    (List.length (print_document lines) + 1 < fuel)%nat ->
    (parse_expression fuel ;;; parse_loop fuel)
      (parser_at (print_document lines) offset evs) =
    Done tt
      (parser_at [] (advance offset (List.length (print_document lines)))
         (evs ++ flat_map line_events lines)).
Proof.
  induction lines as [|l lines IH]; intros fuel offset evs Hlines Hfuel.
  - destruct fuel as [|fuel]; [lia|]. destruct fuel as [|fuel]; [simpl in Hfuel; lia|].
    cbn [print_document flat_map List.length advance Nat.iter].
    rewrite app_nil_r. reflexivity.
  - cbn [forallb] in Hlines. apply andb_true_iff in Hlines.
    destruct Hlines as [Hl Hlines].
    cbn [print_document flat_map] in *. fold (print_document lines) in *.
    rewrite <- app_assoc in *. cbn [app] in *.
    rewrite length_app in Hfuel. cbn [List.length] in Hfuel.
    destruct fuel as [|fuel]; [lia|].
    erewrite bind_eq by (apply parse_expression_line; [exact Hl|lia]).
    cbn [parse_loop].
    erewrite bind_eq by apply input_eof_at. cbv iota.
    erewrite bind_eq by apply parse_new_line_LF_at.
    rewrite IH by (assumption || lia).
    rewrite length_app. cbn [List.length].
    rewrite advance_succ_r, advance_add, <- app_assoc. reflexivity.
Qed.

Lemma parse_print_document fuel lines :
  forallb printable lines = true ->
  (List.length (print_document lines) + 1 < fuel)%nat ->
  loltoml_parse fuel (print_document lines) =
  Done tt
    (parser_at [] (advance 0 (List.length (print_document lines)))
       (Handler.start_document :: flat_map line_events lines ++
          [Handler.finish_document])).
Proof.
  intros Hlines Hfuel. unfold loltoml_parse, parse.
  pose proof (parse_lines lines fuel 0 [Handler.start_document] Hlines Hfuel)
    as Hpair.
  apply bind_Done in Hpair. destruct Hpair as (u & q & E1 & E2).
  erewrite bind_eq by reflexivity.
  change {| input := input (parser_of (print_document lines));
            handler := handler (parser_of (print_document lines)) ++
                         [Handler.start_document] |}
    with (parser_at (print_document lines) 0 [Handler.start_document]).
  erewrite bind_eq by exact E1.
  erewrite bind_eq by exact E2.
  reflexivity.
Qed.

(** X10: a document written line by line is read back as written.  For
    lines that are comments (without control characters other than the
    tab), table headers and array-of-tables headers (a dotted path of at
    least one bare key), pairs of a bare key and an arbitrary string
    value written by [escape_string] between double quotes, and pairs of
    a bare key and a name of letters and underscores, each line ended by
    a line feed, [loltoml::parse] returns, has read every byte, and has
    delivered [start_document], the events of the lines in order
    ([comment], [table], [array_table], or [key] and [string] or
    [symbol] with the original value) and [finish_document]. *)
Theorem print_document_round_trip fuel lines :
  forallb printable lines = true ->
  (List.length (print_document lines) + 1 < fuel)%nat ->
  loltoml_parse fuel (print_document lines) =
  Done tt
    (parser_at [] (advance 0 (List.length (print_document lines)))
       (Handler.start_document :: flat_map line_events lines ++
          [Handler.finish_document])).
Proof. apply parse_print_document. Qed.

(** ** Literal strings *)

Lemma parse_literal_string_loop_at fuel string text rest offset evs :
  forallb literal_character text = true ->
  (List.length text < fuel)%nat ->
  parse_literal_string_loop fuel string
    (parser_at (text ++ SQUOTE :: rest) offset evs) =
  Done (fold_left push_back text string)
    (parser_at rest (advance offset (S (List.length text))) evs).
Proof.
  revert fuel string offset.
  induction text as [|c text IH]; intros fuel string offset Htext Hfuel;
    (destruct fuel as [|fuel]; [simpl in Hfuel; lia|]).
  - reflexivity.
  - simpl in Htext. apply andb_true_iff in Htext. destruct Htext as [Hc Htext].
    unfold literal_character in Hc. apply andb_true_iff in Hc.
    destruct Hc as [Hquote Hcontrol].
    apply negb_true_iff in Hquote. apply negb_true_iff in Hcontrol.
    cbn [parse_literal_string_loop app].
    erewrite bind_eq by apply input_get_at.
    rewrite Hcontrol, Hquote.
    rewrite IH by (assumption || (simpl in Hfuel; lia)).
    rewrite advance_succ_r. reflexivity.
Qed.

(** X12: a literal string is taken as it is written.  Between two single
    quotes, every text without a single quote and without control
    characters other than the tab is delivered by [parse_value] as the
    [string] event with exactly that text: no escape sequence is
    processed, a backslash stays a backslash.  (After the empty string the
    next byte must not be a third single quote.) *)
Theorem literal_string_is_verbatim fuel text rest offset evs :
  forallb literal_character (bytes text) = true ->
  (String.length text < fuel)%nat ->
  (text = "" -> exists ch tail, rest = ch :: tail /\ ch <> SQUOTE) ->
  parse_value (S fuel)
    (parser_at (SQUOTE :: bytes text ++ SQUOTE :: rest) offset evs) =
  Done toml_type_t.string
    (parser_at rest (advance offset (2 + String.length text))
       (evs ++ [Handler.string text])).
Proof.
  intros Htext Hfuel Hempty.
  cbn [parse_value]. erewrite bind_eq by apply input_peek_at.
  change (SQUOTE =? "{")%char with false. change (SQUOTE =? "[")%char with false.
  change (SQUOTE =? DQUOTE)%char with false.
  change (SQUOTE =? SQUOTE)%char with true. cbv iota.
  assert (Hstring :
            parse_literal_string fuel
              (parser_at (SQUOTE :: bytes text ++ SQUOTE :: rest) offset evs) =
            Done tt
              (parser_at rest (advance offset (2 + String.length text))
                 (evs ++ [Handler.string text])));
    [|erewrite bind_eq by exact Hstring; reflexivity].
  unfold parse_literal_string. erewrite bind_eq by apply input_get_at.
  destruct text as [|c text].
  - destruct (Hempty eq_refl) as (ch & tail & -> & Hch).
    cbn [bytes list_ascii_of_string app].
    erewrite bind_eq by apply input_peek_at.
    change (SQUOTE =? SQUOTE)%char with true. cbv iota.
    erewrite bind_eq by apply input_get_at.
    erewrite bind_eq by apply input_peek_at.
    apply Ascii.eqb_neq in Hch. rewrite Hch. reflexivity.
  - pose proof Htext as Hc. cbn [bytes list_ascii_of_string forallb] in Hc.
    apply andb_true_iff in Hc. destruct Hc as [Hc _].
    unfold literal_character in Hc. apply andb_true_iff in Hc.
    destruct Hc as [Hquote _]. apply negb_true_iff in Hquote.
    cbn [bytes list_ascii_of_string app].
    erewrite bind_eq by apply input_peek_at. rewrite Hquote.
    change (c :: list_ascii_of_string text ++ SQUOTE :: rest)
      with (bytes (String c text) ++ SQUOTE :: rest).
    erewrite bind_eq
      by (apply parse_literal_string_loop_at;
          [exact Htext|rewrite length_bytes; exact Hfuel]).
    rewrite push_back_all, advance_succ_r, length_bytes.
    unfold bytes. cbn [append]. rewrite string_of_list_ascii_of_string.
    reflexivity.
Qed.

Lemma parse_multiline_literal_string_loop_at fuel string text rest offset evs :
  forallb multiline_literal_character text = true ->
  (List.length text < fuel)%nat ->
  parse_multiline_literal_string_loop fuel string
    (parser_at (text ++ SQUOTE :: SQUOTE :: SQUOTE :: rest) offset evs) =
  Done tt
    (parser_at rest (advance offset (List.length text + 3))
       (evs ++ [Handler.string (fold_left push_back text string)])).
Proof.
  revert fuel string offset.
  induction text as [|c text IH]; intros fuel string offset Htext Hfuel;
    (destruct fuel as [|fuel]; [simpl in Hfuel; lia|]).
  - reflexivity.
  - simpl in Htext. apply andb_true_iff in Htext. destruct Htext as [Hc Htext].
    unfold multiline_literal_character in Hc. apply andb_true_iff in Hc.
    destruct Hc as [Hquote Hclass]. apply negb_true_iff in Hquote.
    cbn [parse_multiline_literal_string_loop app].
    erewrite bind_eq by apply input_peek_at.
    destruct (c =? LF)%char eqn:HLF.
    + apply Ascii.eqb_eq in HLF. subst c.
      change (LF =? CR)%char with false. cbn [orb].
      erewrite bind_eq by apply parse_new_line_LF_at.
      rewrite IH by (assumption || (simpl in Hfuel; lia)).
      rewrite advance_succ_r. reflexivity.
    + assert (HCR : (c =? CR)%char = false).
      { destruct (c =? CR)%char eqn:E; [|reflexivity].
        apply Ascii.eqb_eq in E. subst c. discriminate. }
      rewrite HCR. cbn [orb].
      erewrite bind_eq by apply input_get_at. rewrite Hquote.
      assert (Hcontrol : iscontrol c && negb (c =? TAB)%char = false).
      { rewrite orb_false_r in Hclass.
        destruct (c =? TAB)%char; [apply andb_false_r|].
        simpl in Hclass. apply negb_true_iff in Hclass. rewrite Hclass.
        reflexivity. }
      rewrite Hcontrol.
      rewrite IH by (assumption || (simpl in Hfuel; lia)).
      rewrite advance_succ_r. reflexivity.
Qed.

(** X13: a multiline literal string is taken as it is written, without
    the line terminator that follows its opening quotes.  Between two
    runs of three single quotes, after a first line feed (or carriage
    return and line feed), every text without a single quote and without
    control characters other than the tab and the line feed is delivered
    by [parse_value] as the [string] event with exactly that text, line
    feeds and backslashes included. *)
Theorem multiline_literal_string_is_verbatim
    fuel newline text rest offset evs :
  newline = [LF] \/ newline = [CR; LF] ->
  forallb multiline_literal_character (bytes text) = true ->
  (String.length text < fuel)%nat ->
  parse_value (S fuel)
    (parser_at
       ([SQUOTE; SQUOTE; SQUOTE] ++ newline ++ bytes text ++
          [SQUOTE; SQUOTE; SQUOTE] ++ rest)
       offset evs) =
  Done toml_type_t.string
    (parser_at rest
       (advance offset (3 + List.length newline + String.length text + 3))
       (evs ++ [Handler.string text])).
Proof.
  intros Hnewline Htext Hfuel.
  cbn [parse_value app]. erewrite bind_eq by apply input_peek_at.
  change (SQUOTE =? "{")%char with false. change (SQUOTE =? "[")%char with false.
  change (SQUOTE =? DQUOTE)%char with false.
  change (SQUOTE =? SQUOTE)%char with true. cbv iota.
  assert (Hstring :
            parse_literal_string fuel
              (parser_at
                 (SQUOTE :: SQUOTE :: SQUOTE :: newline ++ bytes text ++
                    SQUOTE :: SQUOTE :: SQUOTE :: rest)
                 offset evs) =
            Done tt
              (parser_at rest
                 (advance offset
                    (3 + List.length newline + String.length text + 3))
                 (evs ++ [Handler.string text])));
    [|erewrite bind_eq by exact Hstring; reflexivity].
  unfold parse_literal_string.
  erewrite bind_eq by apply input_get_at.
  erewrite bind_eq by apply input_peek_at.
  change (SQUOTE =? SQUOTE)%char with true. cbv iota.
  erewrite bind_eq by apply input_get_at.
  erewrite bind_eq by apply input_peek_at.
  change (SQUOTE =? SQUOTE)%char with true. cbv iota.
  erewrite bind_eq by apply input_get_at.
  assert (Hloop : forall o,
             parse_multiline_literal_string_loop fuel ""
               (parser_at (bytes text ++ SQUOTE :: SQUOTE :: SQUOTE :: rest) o evs) =
             Done tt
               (parser_at rest (advance o (String.length text + 3))
                  (evs ++ [Handler.string text]))).
  { intros o.
    rewrite parse_multiline_literal_string_loop_at
      by (try assumption; rewrite length_bytes; exact Hfuel).
    rewrite push_back_all, length_bytes. unfold bytes. cbn [append].
    rewrite string_of_list_ascii_of_string. reflexivity. }
  destruct Hnewline as [-> | ->]; cbn [app List.length].
  - erewrite bind_eq by apply input_peek_at.
    change ((LF =? CR) || (LF =? LF))%char with true. cbv iota.
    erewrite bind_eq by apply parse_new_line_LF_at.
    rewrite Hloop, !advance_succ_r.
    match goal with
    | |- Done _ (parser_at _ (advance _ ?n) _) =
         Done _ (parser_at _ (advance _ ?m) _) =>
        replace m with n by lia
    end.
    reflexivity.
  - erewrite bind_eq by apply input_peek_at.
    change ((CR =? CR) || (CR =? LF))%char with true. cbv iota.
    erewrite bind_eq by apply parse_new_line_CR_LF_at.
    rewrite Hloop, !advance_succ_r.
    match goal with
    | |- Done _ (parser_at _ (advance _ ?n) _) =
         Done _ (parser_at _ (advance _ ?m) _) =>
        replace m with n by lia
    end.
    reflexivity.
Qed.

(** ** The characters of an error message *)

Lemma all_characters ch : In ch (map ascii_of_nat (seq 0 256)).
Proof.
  rewrite <- (ascii_nat_embedding ch). apply in_map.
  apply in_seq. pose proof (nat_ascii_bounded ch). lia.
Qed.

(** X14: [escape_char], with which [parse_chars] quotes the expected
    characters in its error message, writes printable characters only,
    whatever the character, and writes different characters differently. *)
Theorem escape_char_is_printable_and_injective :
  (forall ch, forallb isprint (bytes (escape_char ch)) = true) /\
  (forall a b, escape_char a = escape_char b -> a = b).
Proof.
  set (all := map ascii_of_nat (seq 0 256)).
  assert (Hprint : forallb (fun ch => forallb isprint (bytes (escape_char ch))) all
                   = true) by (vm_compute; reflexivity).
  assert (Hinj : forallb
                   (fun a =>
                      forallb
                        (fun b =>
                           implb (escape_char a =? escape_char b)%string
                             (a =? b)%char)
                        all)
                   all = true) by (vm_compute; reflexivity).
  rewrite forallb_forall in Hprint, Hinj. split.
  - intros ch. apply Hprint, all_characters.
  - intros a b Heq. specialize (Hinj a (all_characters a)).
    rewrite forallb_forall in Hinj. specialize (Hinj b (all_characters b)).
    apply String.eqb_eq in Heq. rewrite Heq in Hinj. simpl in Hinj.
    apply Ascii.eqb_eq. exact Hinj.
Qed.

(** ** A map printed by the examples *)

Lemma print_map_fold map :
  forall stream first,
    fst (fold_left (print_map_step true) map (stream, first)) =
    (stream ++ entries_text first map)%string.
Proof.
  induction map as [|i map IH]; intros stream first; cbn [fold_left entries_text].
  - cbn [fst]. symmetry. apply append_nil_r.
  - unfold print_map_step at 2. rewrite IH. unfold entry_text.
    destruct first; cbn [negb]; rewrite ?append_assoc; reflexivity.
Qed.

Lemma print_map_text map :
  print_map true map = ("{ " ++ entries_text true map ++ " }")%string.
Proof. unfold print_map. rewrite print_map_fold, append_assoc. reflexivity. Qed.

Lemma advance_small offset n :
  0 <= offset -> offset + Z.of_nat n < 2 ^ 64 ->
  advance offset n = offset + Z.of_nat n.
Proof.
  unfold advance. induction n as [|n IH]; intros H0 H; simpl Nat.iter; [lia|].
  rewrite IH by lia. unfold size_t. rewrite Z.mod_small; lia.
Qed.

(** A printed boolean or string, followed by a comma or a blank. *)
Lemma parse_value_printed fuel value next more offset evs :
  match value with
  | TOMLValue_boolean _ | TOMLValue_string _ => True
  | _ => False
  end ->
  next = ","%char \/ next = " "%char ->
  (String.length (print_TOMLValue true value) < fuel)%nat ->
  exists t,
    parse_value (S fuel)
      (parser_at (bytes (print_TOMLValue true value) ++ next :: more) offset evs) =
    Done t
      (parser_at (next :: more)
         (advance offset (String.length (print_TOMLValue true value)))
         (evs ++ value_events value)).
Proof.
  intros Hvalue Hnext Hfuel.
  assert (Hword : is_word_character next = false)
    by (destruct Hnext as [-> | ->]; reflexivity).
  destruct value as [|b|s| |]; try contradiction; cbn [print_TOMLValue value_events] in *.
  - destruct b.
    + exists toml_type_t.boolean.
      apply (parse_value_letters fuel "t"%char (bytes "rue") next more offset evs);
        [reflexivity|reflexivity|exact Hword|simpl in *; lia].
    + exists toml_type_t.boolean.
      apply (parse_value_letters fuel "f"%char (bytes "alse") next more offset evs);
        [reflexivity|reflexivity|exact Hword|simpl in *; lia].
  - exists toml_type_t.string.
    cbn [bytes list_ascii_of_string String.length app] in *.
    change (list_ascii_of_string (escape_string s ++ String DQUOTE ""))
      with (bytes (escape_string s ++ String DQUOTE "")).
    rewrite bytes_app, <- app_assoc.
    change (bytes (String DQUOTE "") ++ next :: more)
      with (DQUOTE :: next :: more).
    rewrite string_length_app in *. cbn [String.length] in *.
    pose proof (escape_string_length s).
    rewrite parse_value_escape_string.
    + replace (2 + String.length (escape_string s))%nat
        with (S (String.length (escape_string s) + 1)) by lia.
      reflexivity.
    + lia.
    + intros _. exists next, more. split; [reflexivity|].
      destruct Hnext as [-> | ->]; discriminate.
Qed.

Lemma emit_at e text offset evs :
  emit e (parser_at text offset evs) = Done tt (parser_at text offset (evs ++ [e])).
Proof. reflexivity. Qed.

Lemma print_TOMLValue_first value :
  match value with
  | TOMLValue_boolean _ | TOMLValue_string _ => True
  | _ => False
  end ->
  exists c more,
    bytes (print_TOMLValue true value) = c :: more /\
    ((c =? " ") || (c =? TAB))%char = false.
Proof.
  destruct value as [|b|s| |]; try contradiction; intros _.
  - destruct b; simpl; eauto.
  - simpl. eauto.
Qed.

Lemma read_back_spec i :
  read_back i = true ->
  bare_key (fst i) = true /\
  match snd i with
  | TOMLValue_boolean _ | TOMLValue_string _ => True
  | _ => False
  end.
Proof.
  unfold read_back. intros H. apply andb_true_iff in H. destruct H as [Hk Hv].
  split; [exact Hk|]. destruct (snd i); try discriminate; exact I.
Qed.

Lemma entry_text_first i :
  read_back i = true ->
  exists c more,
    bytes (entry_text i) = c :: more /\
    ((c =? " ") || (c =? TAB))%char = false /\ (c =? "}")%char = false.
Proof.
  intros H. destruct (read_back_spec i H) as [Hk _].
  destruct (bare_key_spec _ Hk) as (c & tl & Hc & Hkc & _).
  unfold entry_text. rewrite Hc. exists c. eexists.
  split; [reflexivity|].
  rewrite !(eqb_class is_key_character c _ Hkc) by reflexivity.
  split; reflexivity.
Qed.

(** A key, the equals sign and a value, as [parse_kv_pair] and the loop
    of [parse_inline_table] read them, on a printed entry. *)
Lemma parse_entry_at (k : M unit) fuel i next more offset evs :
  read_back i = true ->
  next = ","%char \/ next = " "%char ->
  (String.length (entry_text i) + 1 < fuel)%nat ->
  (key <- parse_key fuel ;;
   emit (Handler.key key) ;;;
   skip_spaces fuel ;;;
   parse_chars (bytes "=") ;;;
   skip_spaces fuel ;;;
   parse_value fuel ;;;
   k)
    (parser_at (bytes (entry_text i) ++ next :: more) offset evs) =
  k (parser_at (next :: more)
       (advance offset (String.length (entry_text i)))
       (evs ++ entry_events i)).
Proof.
  intros Hi Hnext Hfuel.
  destruct (read_back_spec i Hi) as [Hk Hv].
  destruct (print_TOMLValue_first _ Hv) as (c & tl & Hc & Hspace).
  unfold entry_text in *. rewrite !string_length_app in *.
  cbn [String.length] in Hfuel |- *.
  rewrite !bytes_app, <- !app_assoc.
  change (bytes " = ") with (" "%char :: "="%char :: [" "%char]).
  cbn [app].
  destruct fuel as [|fuel]; [lia|]. destruct fuel as [|fuel]; [lia|].
  erewrite bind_eq by (apply parse_key_bare_at; [exact Hk|reflexivity|lia]).
  erewrite bind_eq by apply emit_at.
  erewrite bind_eq by (apply skip_spaces_one; reflexivity).
  erewrite bind_eq by (apply parse_chars_at; reflexivity).
  rewrite Hc at 1. cbn [app].
  erewrite bind_eq by (apply skip_spaces_one; exact Hspace).
  change (c :: tl ++ next :: more) with ((c :: tl) ++ next :: more).
  rewrite <- Hc.
  destruct (parse_value_printed (S fuel) (snd i) next more
              (advance (size_t (advance (advance offset (String.length (fst i))) 1 + 1)) 1)
              ((evs ++ [Handler.key (fst i)])) Hv Hnext ltac:(lia)) as [t Ht].
  erewrite bind_eq by exact Ht.
  unfold entry_events. rewrite <- app_assoc. cbn [app].
  rewrite !advance_succ_r, !advance_add.
  match goal with
  | |- k (parser_at _ (advance _ ?n) _) = k (parser_at _ (advance _ ?m) _) =>
      replace m with n by lia
  end.
  reflexivity.
Qed.

Lemma parse_inline_table_loop_at map :
  forall fuel i n tail offset evs,
    read_back i = true ->
    forallb read_back map = true ->
    Z.of_nat n + 1 + Z.of_nat (List.length map) < 2 ^ 64 ->
    (String.length (entry_text i) + String.length (entries_text false map) + 2
     < fuel)%nat ->
    parse_inline_table_loop fuel (Z.of_nat n)
      (parser_at
         (bytes (entry_text i) ++ bytes (entries_text false map) ++
            bytes " }" ++ tail)
         offset evs) =
    Done tt
      (parser_at tail
         (advance offset
            (String.length (entry_text i) +
             String.length (entries_text false map) + 2))
         (evs ++ flat_map entry_events (i :: map) ++
            [Handler.finish_inline_table (Z.of_nat (n + 1 + List.length map))])).
Proof.
  induction map as [|j map IH]; intros fuel i n tail offset evs Hi Hmap Hsize Hfuel;
    (destruct fuel as [|fuel]; [lia|]); cbn [parse_inline_table_loop].
  - cbn [entries_text bytes list_ascii_of_string app String.length List.length
           flat_map] in *.
    rewrite parse_entry_at by (auto; lia).
    destruct fuel as [|fuel]; [lia|]. destruct fuel as [|fuel]; [lia|].
    erewrite bind_eq by (apply skip_spaces_one; reflexivity).
    erewrite bind_eq by apply input_get_at.
    change ("}" =? "}")%char with true. cbv iota.
    rewrite emit_at.
    change (size_t (Z.of_nat n + 1)) with ((Z.of_nat n + 1) mod 2 ^ 64).
    rewrite (Z.mod_small (Z.of_nat n + 1)) by lia.
    rewrite ?advance_succ_r, ?size_t_advance, !advance_add, app_nil_r,
      <- app_assoc.
    replace (Z.of_nat n + 1) with (Z.of_nat (n + 1 + 0)) by lia.
    match goal with
    | |- Done _ (parser_at _ (advance _ ?a) _) =
         Done _ (parser_at _ (advance _ ?b) _) => replace b with a by lia
    end.
    reflexivity.
  - cbn [forallb] in Hmap. apply andb_true_iff in Hmap. destruct Hmap as [Hj Hmap].
    destruct (entry_text_first j Hj) as (c & more & Hc & Hspace & _).
    cbn [entries_text List.length flat_map] in *.
    rewrite !string_length_app in *. cbn [String.length] in Hfuel |- *.
    rewrite !bytes_app, <- !app_assoc.
    change (bytes ", ") with (","%char :: [" "%char]). cbn [app].
    rewrite parse_entry_at by (auto; lia).
    destruct fuel as [|fuel]; [lia|]. destruct fuel as [|fuel]; [lia|].
    erewrite bind_eq by (apply skip_spaces_none; reflexivity).
    erewrite bind_eq by apply input_get_at.
    change ("," =? "}")%char with false. change ("," =? ",")%char with true.
    cbv iota.
    rewrite Hc at 1. cbn [app].
    erewrite bind_eq by (apply skip_spaces_one; exact Hspace).
    change (c :: more ++ bytes (entries_text false map) ++ bytes " }" ++ tail)
      with ((c :: more) ++ bytes (entries_text false map) ++ bytes " }" ++ tail).
    rewrite <- Hc.
    change (size_t (Z.of_nat n + 1)) with ((Z.of_nat n + 1) mod 2 ^ 64).
    rewrite (Z.mod_small (Z.of_nat n + 1)) by lia.
    replace (Z.of_nat n + 1) with (Z.of_nat (S n)) by lia.
    rewrite IH by (auto; lia).
    rewrite !advance_succ_r, !advance_add, <- !app_assoc.
    replace (S n + 1 + List.length map)%nat
      with (n + 1 + S (List.length map))%nat by lia.
    match goal with
    | |- Done _ (parser_at _ (advance _ ?a) _) =
         Done _ (parser_at _ (advance _ ?b) _) => replace b with a by lia
    end.
    reflexivity.
Qed.

Lemma skip_spaces_two fuel ch rest offset evs :
  ((ch =? " ") || (ch =? TAB))%char = false ->
  skip_spaces (S (S (S fuel)))
    (parser_at (" "%char :: " "%char :: ch :: rest) offset evs) =
  Done tt (parser_at (ch :: rest) (advance offset 2) evs).
Proof.
  intros H. cbn [skip_spaces].
  erewrite bind_eq by apply input_eof_at. cbv iota.
  erewrite bind_eq by apply input_peek_at.
  change ((" " =? " ") || (" " =? TAB))%char with true. cbv iota.
  erewrite bind_eq by apply input_get_at.
  erewrite bind_eq by apply input_eof_at. cbv iota.
  erewrite bind_eq by apply input_peek_at.
  change ((" " =? " ") || (" " =? TAB))%char with true. cbv iota.
  erewrite bind_eq by apply input_get_at.
  erewrite bind_eq by apply input_eof_at. cbv iota.
  erewrite bind_eq by apply input_peek_at.
  rewrite H. reflexivity.
Qed.

Lemma parse_value_print_map fuel map rest offset evs :
  forallb read_back map = true ->
  Z.of_nat (List.length map) < 2 ^ 64 ->
  (String.length (print_map true map) + 1 < fuel)%nat ->
  parse_value (S fuel)
    (parser_at (bytes (print_map true map) ++ rest) offset evs) =
  Done toml_type_t.table
    (parser_at rest (advance offset (String.length (print_map true map)))
       (evs ++ Handler.start_inline_table :: flat_map entry_events map ++
          [Handler.finish_inline_table (Z.of_nat (List.length map))])).
Proof.
  intros Hmap Hsize Hfuel. rewrite print_map_text in *.
  cbn [append String.length] in Hfuel |- *. rewrite string_length_app in *.
  cbn [String.length] in Hfuel |- *.
  cbn [bytes list_ascii_of_string app]. fold (bytes (entries_text true map ++ " }")).
  rewrite bytes_app, <- app_assoc.
  cbn [parse_value]. erewrite bind_eq by apply input_peek_at.
  change ("{" =? "{")%char with true. cbv iota.
  assert (Htable :
            parse_inline_table fuel
              (parser_at
                 ("{"%char :: " "%char ::
                    bytes (entries_text true map) ++ bytes " }" ++ rest)
                 offset evs) =
            Done tt
              (parser_at rest
                 (advance offset (S (S (String.length (entries_text true map) + 2))))
                 (evs ++ Handler.start_inline_table :: flat_map entry_events map ++
                    [Handler.finish_inline_table (Z.of_nat (List.length map))])));
    [|erewrite bind_eq by exact Htable; reflexivity].
  destruct fuel as [|fuel]; [lia|]. cbn [parse_inline_table].
  erewrite bind_eq by apply input_get_at.
  erewrite bind_eq by apply emit_at.
  destruct map as [|i map].
  - cbn [entries_text bytes list_ascii_of_string app String.length flat_map
           List.length] in *.
    destruct fuel as [|fuel]; [lia|]. destruct fuel as [|fuel]; [lia|].
    destruct fuel as [|fuel]; [lia|].
    erewrite bind_eq by (apply skip_spaces_two; reflexivity).
    erewrite bind_eq by apply input_peek_at.
    change ("}" =? "}")%char with true. cbv iota.
    erewrite bind_eq by apply input_get_at.
    rewrite emit_at, !advance_succ_r, <- app_assoc. reflexivity.
  - cbn [forallb] in Hmap. apply andb_true_iff in Hmap. destruct Hmap as [Hi Hmap].
    destruct (entry_text_first i Hi) as (c & more & Hc & Hspace & Hbrace).
    cbn [entries_text append List.length] in *.
    rewrite string_length_app in *. rewrite bytes_app, <- app_assoc.
    destruct fuel as [|fuel]; [lia|]. destruct fuel as [|fuel]; [lia|].
    rewrite Hc at 1. cbn [app].
    erewrite bind_eq by (apply skip_spaces_one; exact Hspace).
    erewrite bind_eq by apply input_peek_at. rewrite Hbrace.
    change (c :: more ++ bytes (entries_text false map) ++ bytes " }" ++ rest)
      with ((c :: more) ++ bytes (entries_text false map) ++ bytes " }" ++ rest).
    rewrite <- Hc.
    rewrite (parse_inline_table_loop_at map (S (S fuel)) i 0)
      by (auto; lia).
    rewrite !advance_succ_r, !advance_add, <- !app_assoc.
    cbn [app Nat.add].
    match goal with
    | |- Done _ (parser_at _ (advance _ ?a) _) =
         Done _ (parser_at _ (advance _ ?b) _) => replace b with a by lia
    end.
    reflexivity.
Qed.

(** X15: a map printed by the examples is an inline table that reads back
    as printed.  For a map whose keys are bare and whose values are
    booleans and strings, the text that [operator<<] writes for it (with
    the flag [boolalpha] of the stream set, as [main] does) is read by
    [parse_value] as an inline table: the parser stops behind the closing
    brace and has delivered [start_inline_table], for every entry in order
    its key and its value, and [finish_inline_table] with the number of
    entries. *)
Theorem print_map_round_trip fuel map rest offset evs :
  forallb read_back map = true ->
  Z.of_nat (List.length map) < 2 ^ 64 ->
  (String.length (print_map true map) + 1 < fuel)%nat ->
  parse_value (S fuel)
    (parser_at (bytes (print_map true map) ++ rest) offset evs) =
  Done toml_type_t.table
    (parser_at rest (advance offset (String.length (print_map true map)))
       (evs ++ Handler.start_inline_table :: flat_map entry_events map ++
          [Handler.finish_inline_table (Z.of_nat (List.length map))])).
Proof. apply parse_value_print_map. Qed.

(** ** Reading a configuration *)

Lemma map_find_assign {V : Type} key value (map : list (string * V)) q :
  map_find q (map_assign key value map) =
  if (q =? key)%string then Some value else map_find q map.
Proof.
  induction map as [|[k v] map IH]; cbn [map_assign map_find].
  - rewrite String.eqb_sym. reflexivity.
  - destruct (k =? key)%string eqn:Ek; cbn [map_find].
    + apply String.eqb_eq in Ek. subst k.
      rewrite (String.eqb_sym q key). destruct (key =? q)%string; reflexivity.
    + rewrite IH. destruct (k =? q)%string eqn:Eq; [|reflexivity].
      apply String.eqb_eq in Eq. subst q. rewrite Ek. reflexivity.
Qed.

Lemma map_find_app {V : Type} (map more : list (string * V)) q :
  map_find q (map ++ more) =
  match map_find q map with
  | Some v => Some v
  | None => map_find q more
  end.
Proof.
  induction map as [|[k v] map IH]; cbn [app map_find]; [reflexivity|].
  destruct (k =? q)%string; [reflexivity|apply IH].
Qed.

Lemma map_find_emplace {V : Type} key value (map : list (string * V)) q :
  map_find q (map_emplace key value map) =
  if (q =? key)%string then
    Some match map_find key map with Some old => old | None => value end
  else map_find q map.
Proof.
  unfold map_emplace. destruct (q =? key)%string eqn:E.
  - apply String.eqb_eq in E. subst q.
    destruct (map_find key map) as [old|] eqn:Hfind; [exact Hfind|].
    rewrite map_find_app, Hfind. cbn [map_find]. rewrite String.eqb_refl.
    reflexivity.
  - destruct (map_find key map) as [old|] eqn:Hfind; [reflexivity|].
    rewrite map_find_app. destruct (map_find q map); [reflexivity|].
    cbn [map_find]. rewrite String.eqb_sym, E. reflexivity.
Qed.

Lemma TOMLHandler_calls_app h events more :
  TOMLHandler_calls h (events ++ more) =
  match TOMLHandler_calls h events with
  | inl thrown => inl thrown
  | inr h' => TOMLHandler_calls h' more
  end.
Proof.
  revert h. induction events as [|e events IH]; intros h; cbn [app TOMLHandler_calls];
    [reflexivity|].
  destruct (TOMLHandler_call h e); [reflexivity|apply IH].
Qed.

(** What [parseConfig] does with a document written line by line: the
    calls for the events of the lines, on a fresh handler. *)
Lemma parseConfig_print_document fuel lines :
  forallb printable lines = true ->
  (List.length (print_document lines) + 1 < fuel)%nat ->
  parseConfig fuel (print_document lines) =
  match TOMLHandler_calls {| configs_ := []; curr_key_ := "" |}
          (flat_map line_events lines) with
  | inl thrown => parseConfig_handler_throws thrown
  | inr h => parseConfig_returns (configs_ h)
  end.
Proof.
  intros Hlines Hfuel. unfold parseConfig.
  rewrite (parse_print_document fuel lines Hlines Hfuel).
  cbn [handler parser_at TOMLHandler_calls TOMLHandler_call].
  rewrite TOMLHandler_calls_app.
  destruct (TOMLHandler_calls _ (flat_map line_events lines)); reflexivity.
Qed.

Lemma print_document_app lines more :
  print_document (lines ++ more) = print_document lines ++ print_document more.
Proof. unfold print_document. apply flat_map_app. Qed.

(** X16: a key given a name as its value is defined only if it is new.
    When [parseConfig] returns [configs] for a document written line by
    line, then for the document with one more line [key = name] it throws
    the [std::runtime_error] of an undefined identifier when [name] is
    not in [configs]; otherwise it returns a map that differs from
    [configs] at most at [key], which keeps the value it had in [configs]
    if it had one and gets the value of [name] if it had none. *)
Theorem symbol_line_defines_only_new_keys fuel lines key name configs :
  forallb printable (lines ++ [symbol_line key name]) = true ->
  (List.length (print_document (lines ++ [symbol_line key name])) + 1
   < fuel)%nat ->
  parseConfig fuel (print_document lines) = parseConfig_returns configs ->
  match map_find name configs with
  | None =>
      exists what,
        parseConfig fuel (print_document (lines ++ [symbol_line key name])) =
        parseConfig_handler_throws (runtime_error what)
  | Some value =>
      exists configs',
        parseConfig fuel (print_document (lines ++ [symbol_line key name])) =
        parseConfig_returns configs' /\
        forall q,
          map_find q configs' =
          if (q =? key)%string then
            Some match map_find key configs with
                 | Some old => old
                 | None => value
                 end
          else map_find q configs
  end.
Proof.
  intros Hall Hfuel Hbefore.
  assert (Hlines : forallb printable lines = true).
  { rewrite forallb_app in Hall. apply andb_true_iff in Hall. apply Hall. }
  rewrite parseConfig_print_document in Hbefore
    by (try assumption; rewrite print_document_app, length_app in Hfuel; lia).
  rewrite parseConfig_print_document by assumption.
  rewrite flat_map_app, TOMLHandler_calls_app.
  destruct (TOMLHandler_calls _ (flat_map line_events lines)) as [thrown|h];
    [discriminate|].
  inversion Hbefore; subst configs. clear Hbefore.
  cbn [flat_map line_events app TOMLHandler_calls TOMLHandler_call
         configs_ curr_key_].
  destruct (map_find name (configs_ h)) as [value|].
  - eexists. split; [reflexivity|].
    intros q. cbn [configs_]. apply map_find_emplace.
  - eexists. reflexivity.
Qed.

(** X17: the configuration read is the last value written for each key.
    For a document of lines [key = "value"], with bare keys and
    arbitrary string values written by [escape_string], [parseConfig]
    returns a map in which every key of the document is bound to the
    string of its last line, and no other key is bound. *)
Theorem parseConfig_round_trip fuel (entries : list (string * string)) :
  let lines := map (fun i => pair_line (fst i) (snd i)) entries in
  forallb (fun i => bare_key (fst i)) entries = true ->
  (List.length (print_document lines) + 1 < fuel)%nat ->
  exists configs,
    parseConfig fuel (print_document lines) = parseConfig_returns configs /\
    forall key,
      map_find key configs =
      option_map TOMLValue_string (map_find key (rev entries)).
Proof.
  intros lines Hkeys Hfuel.
  assert (Hlines : forallb printable lines = true).
  { unfold lines. clear Hfuel. induction entries as [|i entries IH]; [reflexivity|].
    cbn [forallb map] in *. apply andb_true_iff in Hkeys.
    destruct Hkeys as [Hi Hkeys]. cbn [printable]. rewrite Hi. apply IH, Hkeys. }
  rewrite parseConfig_print_document by assumption.
  assert (Hcalls : forall h,
             exists h',
               TOMLHandler_calls h (flat_map line_events lines) = inr h' /\
               forall key,
                 map_find key (configs_ h') =
                 match map_find key (rev entries) with
                 | Some value => Some (TOMLValue_string value)
                 | None => map_find key (configs_ h)
                 end).
  { unfold lines. clear. induction entries as [|[k v] entries IH]; intros h.
    - exists h. split; [reflexivity|]. intros key. reflexivity.
    - cbn [map flat_map line_events fst snd app TOMLHandler_calls
             TOMLHandler_call configs_ curr_key_].
      destruct (IH {| configs_ := map_assign k (TOMLValue_string v) (configs_ h);
                      curr_key_ := k |}) as (h' & Hh' & Hfind).
      exists h'. split; [exact Hh'|]. intros key.
      rewrite Hfind. cbn [rev configs_]. rewrite map_find_app, map_find_assign.
      destruct (map_find key (rev entries)); [reflexivity|].
      cbn [map_find]. rewrite (String.eqb_sym key k).
      destruct (k =? key)%string; reflexivity. }
  destruct (Hcalls {| configs_ := []; curr_key_ := "" |}) as (h' & -> & Hfind).
  exists (configs_ h'). split; [reflexivity|].
  intros key. rewrite Hfind. cbn [configs_ map_find].
  destruct (map_find key (rev entries)); reflexivity.
Qed.

(** ** Integers among the bare tokens *)

Lemma decimal_prefix_value s acc :
  forallb (between "0" "9") (list_ascii_of_string s) = true ->
  match acc with Some _ => True | None => s <> "" end ->
  decimal_prefix acc s =
  Some (fold_left (fun acc digit => 10 * acc + (uchar digit - uchar "0"))
          (list_ascii_of_string s)
          match acc with Some a => a | None => 0 end).
Proof.
  revert acc. induction s as [|ch s IH]; intros acc Hs Hacc;
    cbn [decimal_prefix list_ascii_of_string fold_left].
  - destruct acc as [a|]; [reflexivity|contradiction].
  - cbn [list_ascii_of_string forallb] in Hs.
    apply andb_true_iff in Hs. destruct Hs as [Hch Hs].
    rewrite Hch. rewrite IH by (try assumption; exact I). reflexivity.
Qed.

Lemma stoll_digits_value digits :
  digits <> [] -> forallb (between "0" "9") digits = true ->
  stoll (string_of_list_ascii digits) =
  if 2 ^ 63 - 1 <? decimal_value digits then inl out_of_range
  else inr (decimal_value digits).
Proof.
  intros Hne Hdigits. set (s := string_of_list_ascii digits).
  assert (Hs : forallb (between "0" "9") (list_ascii_of_string s) = true)
    by (unfold s; rewrite list_ascii_of_string_of_list_ascii; exact Hdigits).
  assert (Hs' : s <> "") by (unfold s; destruct digits; [contradiction|discriminate]).
  destruct (stoll_digits s Hs' Hs) as (n & Hpos & Hn).
  assert (Hvalue : decimal_prefix None s = Some (decimal_value digits)).
  { rewrite decimal_prefix_value by assumption. unfold s.
    rewrite list_ascii_of_string_of_list_ascii. reflexivity. }
  destruct (decimal_prefix_digits s None Hs Hs') as (m & Hm & Hmpos).
  assert (m = decimal_value digits) by congruence. subst m.
  destruct s as [|ch s']; [contradiction|].
  pose proof Hs as Hch. cbn [list_ascii_of_string forallb] in Hch.
  apply andb_true_iff in Hch. destruct Hch as [Hch _].
  destruct (digit_plain ch Hch) as (Hsp & Hminus & Hplus).
  unfold stoll. cbn [skip_isspace]. rewrite Hsp, Hminus, Hplus, Hvalue.
  replace (decimal_value digits <? - 2 ^ 63) with false
    by (symmetry; apply Z.ltb_ge; lia).
  reflexivity.
Qed.

(** X18: a bare token of decimal digits is an integer, read in base ten.
    [parse_value] delivers [integer] with the number the digits stand
    for, leading zeros included, when that number is at most [2^63 - 1];
    for a larger number the [std::out_of_range] of [std::stoll] leaves
    the parser, which is no [parser_error_t]. *)
Theorem digits_token_is_integer fuel first digits ch rest offset evs :
  between "0" "9" first = true ->
  forallb (between "0" "9") digits = true ->
  is_word_character ch = false ->
  (List.length digits < fuel)%nat ->
  parse_value (S fuel) (parser_at (first :: digits ++ ch :: rest) offset evs) =
  let value := decimal_value (first :: digits) in
  let after events :=
    parser_at (ch :: rest) (advance offset (S (List.length digits)))
      (evs ++ events) in
  if value <=? 2 ^ 63 - 1 then
    Done toml_type_t.integer (after [Handler.integer value])
  else Throw (std_error out_of_range) (after []).
Proof.
  intros Hfirst Hdigits Hch Hfuel.
  assert (Hall : forallb (between "0" "9") (first :: digits) = true)
    by (cbn [forallb]; rewrite Hfirst; exact Hdigits).
  pose proof (digits_are_word_characters _ Hall) as Hword.
  cbn [forallb] in Hword. apply andb_true_iff in Hword.
  destruct Hword as [Hword Hwords].
  cbn [parse_value]. erewrite bind_eq by apply input_peek_at.
  rewrite !(eqb_class is_word_character first _ Hword) by reflexivity.
  unfold parse_bool_or_number_or_symbol.
  erewrite bind_eq by apply input_get_at.
  rewrite Hword. cbn [negb].
  erewrite bind_eq by (apply parse_word_loop_at; assumption).
  rewrite push_back_all.
  change (push_back "" first ++ string_of_list_ascii digits)%string
    with (string_of_list_ascii (first :: digits)).
  cbv zeta. set (token := string_of_list_ascii (first :: digits)).
  assert (Htrue : (token =? "true")%string = false).
  { apply String.eqb_neq. unfold token. intros Heq. inversion Heq; subst.
    discriminate. }
  assert (Hfalse : (token =? "false")%string = false).
  { apply String.eqb_neq. unfold token. intros Heq. inversion Heq; subst.
    discriminate. }
  assert (Hint : Regex.regex_match token integer_regex = true).
  { apply integer_regex_spec. unfold token.
    rewrite list_ascii_of_string_of_list_ascii. split; [discriminate|exact Hall]. }
  rewrite Htrue, Hfalse, Hint. unfold token.
  rewrite stoll_digits_value by (try discriminate; exact Hall).
  rewrite advance_succ_r, app_nil_r.
  destruct (decimal_value (first :: digits) <=? 2 ^ 63 - 1) eqn:E.
  - apply Z.leb_le in E.
    replace (2 ^ 63 - 1 <? decimal_value (first :: digits)) with false
      by (symmetry; apply Z.ltb_ge; exact E).
    reflexivity.
  - apply Z.leb_gt in E.
    replace (2 ^ 63 - 1 <? decimal_value (first :: digits)) with true
      by (symmetry; apply Z.ltb_lt; exact E).
    reflexivity.
Qed.

(** ** Basic strings: quoted keys and raw control characters *)

Lemma parse_basic_string_loop_prefix text :
  forall fuel result tail offset evs,
    parse_basic_string_loop (String.length text + fuel) result
      (parser_at (bytes (escape_string text) ++ tail) offset evs) =
    parse_basic_string_loop fuel (result ++ text)%string
      (parser_at tail
         (advance offset (String.length (escape_string text))) evs).
Proof.
  induction text as [|ch text IH]; intros fuel result tail offset evs.
  - rewrite append_nil_r. reflexivity.
  - rewrite escape_string_cons, bytes_app, <- app_assoc.
    cbn [String.length Nat.add].
    rewrite parse_basic_string_loop_escaped, IH.
    rewrite advance_add, string_length_app.
    unfold push_back. rewrite append_assoc. reflexivity.
Qed.

Lemma last_char_offset_at text offset evs :
  0 < offset < 2 ^ 64 ->
  last_char_offset (parser_at text offset evs) =
  Done (offset - 1) (parser_at text offset evs).
Proof.
  intros H. unfold last_char_offset, bind, input_processed, ret, parser_at. simpl.
  destruct (offset =? 0) eqn:E; [apply Z.eqb_eq in E; lia|].
  unfold size_t. rewrite Z.mod_small by lia. reflexivity.
Qed.

(** X19: a quoted key is read back as written, and may not be empty.
    For every string [key], the bytes of [escape_string key] between two
    double quotes are read by [parse_key] as [key], whatever its
    characters; only for the empty string it fails, with the error of an
    empty key at the offset of the closing quote. *)
Theorem quoted_key_round_trip fuel key rest offset evs :
  (String.length key < fuel)%nat ->
  0 <= offset ->
  offset + 2 < 2 ^ 64 ->
  parse_key fuel
    (parser_at (DQUOTE :: bytes (escape_string key) ++ DQUOTE :: rest)
       offset evs) =
  let p' :=
    parser_at rest
      (advance offset (2 + String.length (escape_string key))) evs in
  if (key =? "")%string then
    Throw (parser_error_t "Expected a non-empty key" (offset + 1)) p'
  else Done key p'.
Proof.
  intros Hfuel Hpos Hfits. unfold parse_key.
  erewrite bind_eq by apply input_peek_at.
  change (DQUOTE =? DQUOTE)%char with true. cbv iota.
  erewrite bind_eq by apply input_get_at.
  unfold parse_basic_string.
  erewrite bind_eq by (apply parse_basic_string_loop_escape_string; exact Hfuel).
  cbn [append]. cbv zeta. rewrite advance_succ_r.
  destruct (key =? "")%string eqn:E; [|reflexivity].
  apply String.eqb_eq in E. subst key.
  cbn [escape_string list_ascii_of_string fold_left String.length Nat.add].
  unfold parser_error.
  rewrite (advance_small offset 2) by (cbn; lia).
  erewrite bind_eq by (apply last_char_offset_at; cbn; lia).
  unfold throw. do 2 f_equal. cbn. lia.
Qed.

(** X20: a control character may not stand in a basic string as it is.
    After the opening quote and any text written by [escape_string], a
    byte below 32, the tab and the line terminators among them, makes
    [parse_basic_string] fail with the error of an unescaped control
    character at the offset of that byte. *)
Theorem basic_string_rejects_control_characters
    fuel text ch rest offset evs :
  iscontrol ch = true ->
  (String.length text < fuel)%nat ->
  0 <= offset ->
  offset + Z.of_nat (String.length (escape_string text)) + 1 < 2 ^ 64 ->
  parse_basic_string fuel
    (parser_at (bytes (escape_string text) ++ ch :: rest) offset evs) =
  Throw
    (parser_error_t "Control characters must be escaped"
       (offset + Z.of_nat (String.length (escape_string text))))
    (parser_at rest
       (advance offset (S (String.length (escape_string text)))) evs).
Proof.
  intros Hch Hfuel Hpos Hfits. unfold parse_basic_string.
  replace fuel with (String.length text + S (fuel - String.length text - 1))%nat
    by lia.
  rewrite parse_basic_string_loop_prefix.
  cbn [parse_basic_string_loop append].
  erewrite bind_eq by apply input_get_at. rewrite Hch.
  unfold parser_error. rewrite size_t_advance, advance_add, Nat.add_1_r.
  rewrite (advance_small offset (S _)) by lia.
  erewrite bind_eq by (apply last_char_offset_at; lia).
  unfold throw. do 2 f_equal. lia.
Qed.

(** ** Multiline basic strings written by [escape_string] *)

Lemma not_control_not_newline ch :
  (uchar ch <? 32) = false -> ((ch =? CR) || (ch =? LF))%char = false.
Proof.
  intros H. apply Z.ltb_ge in H.
  destruct (ch =? CR)%char eqn:E1;
    [apply Ascii.eqb_eq in E1; subst ch; vm_compute in H; contradiction|].
  destruct (ch =? LF)%char eqn:E2;
    [apply Ascii.eqb_eq in E2; subst ch; vm_compute in H; contradiction|].
  reflexivity.
Qed.

Lemma parse_multiline_string_loop_escaped fuel result ch tail offset evs :
  parse_multiline_string_loop (S fuel) result
    (parser_at (bytes (escape_string_step "" ch) ++ tail) offset evs) =
  parse_multiline_string_loop fuel (push_back result ch)
    (parser_at tail
       (advance offset (String.length (escape_string_step "" ch))) evs).
Proof.
  assert (Hescape : forall c text,
             ((c =? CR) || (c =? LF))%char = false ->
             parse_multiline_string_loop (S fuel) result
               (parser_at (BACKSLASH :: c :: text) offset evs) =
             (result <- parse_escape_sequence
                          (if size_t (offset + 1) =? 0 then 0
                           else size_t (size_t (offset + 1) - 1)) result ;;
              parse_multiline_string_loop fuel result)
               (parser_at (c :: text) (size_t (offset + 1)) evs)).
  { intros c text Hc. cbn [parse_multiline_string_loop].
    erewrite bind_eq by apply input_peek_at.
    change ((BACKSLASH =? CR) || (BACKSLASH =? LF))%char with false. cbv iota.
    erewrite bind_eq by apply input_get_at.
    change (iscontrol BACKSLASH) with false.
    change (BACKSLASH =? DQUOTE)%char with false.
    change (BACKSLASH =? BACKSLASH)%char with true. cbv iota.
    erewrite bind_eq by apply input_peek_at. rewrite Hc. reflexivity. }
  unfold escape_string_step.
  destruct (ch =? BACKSLASH)%char eqn:E1;
    [apply Ascii.eqb_eq in E1; subst ch; apply Hescape; reflexivity|].
  destruct (ch =? DQUOTE)%char eqn:E2;
    [apply Ascii.eqb_eq in E2; subst ch; apply Hescape; reflexivity|].
  destruct (ch =? BS)%char eqn:E3;
    [apply Ascii.eqb_eq in E3; subst ch; apply Hescape; reflexivity|].
  destruct (ch =? TAB)%char eqn:E4;
    [apply Ascii.eqb_eq in E4; subst ch; apply Hescape; reflexivity|].
  destruct (ch =? CR)%char eqn:E5;
    [apply Ascii.eqb_eq in E5; subst ch; apply Hescape; reflexivity|].
  destruct (ch =? LF)%char eqn:E6;
    [apply Ascii.eqb_eq in E6; subst ch; apply Hescape; reflexivity|].
  destruct (uchar ch <? 32) eqn:E7.
  - apply Z.ltb_lt in E7. pose proof (uchar_range ch) as Hrange.
    cbn [push_back append bytes list_ascii_of_string app String.length].
    rewrite Hescape by reflexivity.
    unfold bind at 1. rewrite parse_escape_sequence_u.
    assert (Hhi : 0 <= uchar ch / 16 < 16)
      by (split; [apply Z.div_pos; lia|apply Z.div_lt_upper_bound; lia]).
    assert (Hlo : 0 <= uchar ch mod 16 < 16) by (apply Z.mod_pos_bound; lia).
    destruct (parse_4_digit_codepoint_at "0" "0"
                (nth (Z.to_nat (uchar ch / 16)) hex_digits "000"%char)
                (nth (Z.to_nat (uchar ch mod 16)) hex_digits "000"%char)
                0 0 (uchar ch / 16) (uchar ch mod 16) tail
                (size_t (size_t (offset + 1) + 1)) evs) as [Hparse _].
    { cbn [map]. rewrite !hex_digits_nth by assumption. reflexivity. }
    unfold bind at 1. rewrite Hparse.
    replace (codepoint_of [0; 0; uchar ch / 16; uchar ch mod 16]) with (uchar ch)
      by (unfold codepoint_of; cbn [fold_left];
          pose proof (Z.div_mod (uchar ch) 16); lia).
    rewrite process_codepoint_cases.
    replace ((55296 <=? uchar ch) && (uchar ch <=? 57343)) with false
      by (symmetry; apply andb_false_iff; left; apply Z.leb_gt; lia).
    replace (1114111 <? uchar ch) with false by (symmetry; apply Z.ltb_ge; lia).
    unfold utf8_bytes.
    replace (uchar ch <=? 127) with true by (symmetry; apply Z.leb_le; lia).
    rewrite to_char_uchar. reflexivity.
  - cbn [push_back append bytes list_ascii_of_string app String.length
           parse_multiline_string_loop].
    erewrite bind_eq by apply input_peek_at.
    rewrite (not_control_not_newline ch E7).
    erewrite bind_eq by apply input_get_at.
    unfold iscontrol. rewrite E7, E2, E1. reflexivity.
Qed.

Lemma parse_multiline_string_loop_escape_string text :
  forall fuel result rest offset evs,
    (String.length text < fuel)%nat ->
    parse_multiline_string_loop fuel result
      (parser_at
         (bytes (escape_string text) ++ DQUOTE :: DQUOTE :: DQUOTE :: rest)
         offset evs) =
    Done (result ++ text)%string
      (parser_at rest
         (advance offset (String.length (escape_string text) + 3)) evs).
Proof.
  induction text as [|ch text IH]; intros fuel result rest offset evs Hfuel;
    (destruct fuel as [|fuel]; [simpl in Hfuel; lia|]).
  - rewrite append_nil_r. reflexivity.
  - rewrite escape_string_cons, bytes_app, <- app_assoc.
    rewrite parse_multiline_string_loop_escaped.
    rewrite IH by (simpl in Hfuel; lia).
    rewrite advance_add, string_length_app, Nat.add_assoc.
    unfold push_back. rewrite append_assoc. reflexivity.
Qed.

Lemma escape_string_first_not_newline text tail ch more :
  bytes (escape_string text) ++ DQUOTE :: tail = ch :: more ->
  ((ch =? CR) || (ch =? LF))%char = false.
Proof.
  destruct text as [|c text].
  - intros H. inversion H; subst. reflexivity.
  - rewrite escape_string_cons, bytes_app, <- app_assoc.
    unfold escape_string_step.
    repeat match goal with
           | |- context [if ?c then _ else _] => destruct c eqn:?
           end;
      cbn [push_back append bytes list_ascii_of_string app];
      intros H; inversion H; subst; try reflexivity.
    apply not_control_not_newline. assumption.
Qed.

(** X21: reading back what [escape_string] wrote, between triple quotes.
    For every string [text], the bytes of [escape_string text] between
    two runs of three double quotes are a multiline basic string that
    [parse_value] reads back as [text], the empty string included. *)
Theorem escape_string_multiline_round_trip fuel text rest offset evs :
  (String.length text < fuel)%nat ->
  parse_value (S fuel)
    (parser_at
       ([DQUOTE; DQUOTE; DQUOTE] ++ bytes (escape_string text) ++
          [DQUOTE; DQUOTE; DQUOTE] ++ rest)
       offset evs) =
  Done toml_type_t.string
    (parser_at rest
       (advance offset (3 + String.length (escape_string text) + 3))
       (evs ++ [Handler.string text])).
Proof.
  intros Hfuel.
  cbn [parse_value app]. erewrite bind_eq by apply input_peek_at.
  change (DQUOTE =? "{")%char with false. change (DQUOTE =? "[")%char with false.
  change (DQUOTE =? DQUOTE)%char with true. cbv iota.
  assert (Hstring :
            parse_string fuel
              (parser_at
                 (DQUOTE :: DQUOTE :: DQUOTE :: bytes (escape_string text) ++
                    DQUOTE :: DQUOTE :: DQUOTE :: rest)
                 offset evs) =
            Done tt
              (parser_at rest
                 (advance offset (3 + String.length (escape_string text) + 3))
                 (evs ++ [Handler.string text])));
    [|erewrite bind_eq by exact Hstring; reflexivity].
  unfold parse_string.
  erewrite bind_eq by apply input_get_at.
  erewrite bind_eq by apply input_peek_at.
  change (DQUOTE =? DQUOTE)%char with true. cbv iota.
  erewrite bind_eq by apply input_get_at.
  erewrite bind_eq by apply input_peek_at.
  change (DQUOTE =? DQUOTE)%char with true. cbv iota.
  erewrite bind_eq by apply input_get_at.
  unfold parse_multiline_string.
  destruct (bytes (escape_string text) ++ DQUOTE :: DQUOTE :: DQUOTE :: rest)
    as [|c more] eqn:Htext; [destruct (bytes (escape_string text)); discriminate|].
  rewrite bind_assoc. erewrite bind_eq by apply input_peek_at.
  rewrite (escape_string_first_not_newline _ _ _ _ Htext).
  rewrite bind_assoc. erewrite bind_eq by (unfold ret; reflexivity).
  rewrite <- Htext.
  erewrite bind_eq by (apply parse_multiline_string_loop_escape_string; exact Hfuel).
  rewrite !advance_succ_r. cbn [append]. reflexivity.
Qed.

End Parser.

(** ** The theorems at concrete inputs *)

Lemma last_char_offset_no_underflow_witness :
  last_char_offset unit (parser_at unit (bytes "= 1") 1 []) =
  Done unit Z 0 (parser_at unit (bytes "= 1") 1 []) /\
  last_char_offset unit (parser_at unit [] 0 []) =
  Done unit Z 0 (parser_at unit [] 0 []).
Proof.
  split.
  - apply (last_char_offset_no_underflow unit (parser_at unit (bytes "= 1") 1 []) "").
    vm_compute. split; [discriminate|reflexivity].
  - apply (last_char_offset_no_underflow unit (parser_at unit [] 0 []) "").
    vm_compute. split; [discriminate|reflexivity].
Defined.

Lemma parse_event_sequence_witness :
  exists body,
    [Handler.start_document; Handler.key "x"; Handler.start_array;
     Handler.integer 1; Handler.integer 2; Handler.finish_array 2;
     Handler.finish_document] =
    Handler.start_document :: body ++ [@Handler.finish_document unit] /\
    document_body unit body /\
    nesting unit [] body = Some [] /\
    Forall (fun e => is_document_event unit e = false) body.
Proof.
  apply (parse_event_sequence unit sample_stod sample_sentinel sample_message
           20 (bytes "x = [1, 2]")
           (parser_at unit [] 10
              [Handler.start_document; Handler.key "x"; Handler.start_array;
               Handler.integer 1; Handler.integer 2; Handler.finish_array 2;
               Handler.finish_document])).
  - vm_compute. reflexivity.
  - vm_compute. reflexivity.
Defined.

Lemma array_elements_same_type_witness :
  parse_array_loop unit sample_stod sample_sentinel sample_message 6
    (Some toml_type_t.integer) 1
    (parser_at unit (DQUOTE :: bytes "a" ++ DQUOTE :: bytes "]") 4
       [Handler.start_array; Handler.integer 1]) =
  Throw unit unit
    (parser_error_t "All array elements must be of the same type" 4)
    (parser_at unit (bytes "]") 7
       [Handler.start_array; Handler.integer 1; Handler.string "a"]).
Proof.
  refine (proj2
            (proj1 (array_elements_same_type unit sample_stod sample_sentinel
                      sample_message 5)
               (parser_at unit (DQUOTE :: bytes "a" ++ DQUOTE :: bytes "]") 4
                  [Handler.start_array; Handler.integer 1]) _)
            toml_type_t.integer 1 toml_type_t.string
            (parser_at unit (bytes "]") 7
               [Handler.start_array; Handler.integer 1; Handler.string "a"])
            _ _ _).
  - vm_compute. reflexivity.
  - vm_compute. reflexivity.
  - vm_compute. reflexivity.
  - discriminate.
Defined.

Lemma nested_arrays_are_homogeneous_witness :
  parse_array_loop unit sample_stod sample_sentinel sample_message 9
    (Some toml_type_t.array) 1
    (parser_at unit
       (bytes "[" ++ DQUOTE :: bytes "a" ++ DQUOTE :: bytes "]]") 9
       [Handler.start_array; Handler.start_array; Handler.integer 1;
        Handler.integer 2; Handler.finish_array 2]) =
  Done unit unit tt
    (parser_at unit [] 15
       [Handler.start_array; Handler.start_array; Handler.integer 1;
        Handler.integer 2; Handler.finish_array 2; Handler.start_array;
        Handler.string "a"; Handler.finish_array 1; Handler.finish_array 2]).
Proof.
  refine (eq_trans
            (proj1 (nested_arrays_are_homogeneous unit sample_stod sample_sentinel
                      sample_message 8)
               (parser_at unit
                  (bytes "[" ++ DQUOTE :: bytes "a" ++ DQUOTE :: bytes "]]") 9
                  [Handler.start_array; Handler.start_array; Handler.integer 1;
                   Handler.integer 2; Handler.finish_array 2])
               (parser_at unit (bytes "]") 14
                  [Handler.start_array; Handler.start_array; Handler.integer 1;
                   Handler.integer 2; Handler.finish_array 2; Handler.start_array;
                   Handler.string "a"; Handler.finish_array 1])
               toml_type_t.array 1 _)
            _).
  - vm_compute. reflexivity.
  - vm_compute. reflexivity.
Defined.

Lemma unicode_escape_code_points_witness :
  parse_basic_string_loop unit sample_message 1 ""
    (parser_at unit (BACKSLASH :: bytes "uD800" ++ [DQUOTE]) 5 []) =
  Throw unit string (parser_error_t "Surrogate pairs are not allowed" 5)
    (parser_at unit [DQUOTE] 11 []) /\
  parse_multiline_string_loop unit sample_sentinel sample_message 1 ""
    (parser_at unit (BACKSLASH :: bytes "uD800" ++ [DQUOTE]) 5 []) =
  Throw unit string (parser_error_t "Surrogate pairs are not allowed" 5)
    (parser_at unit [DQUOTE] 11 []).
Proof.
  refine (unicode_escape_code_points unit sample_sentinel sample_message
            0 "" [DQUOTE] 5 [] "u"%char (bytes "D800") [13; 8; 0; 0] _ _ _).
  - vm_compute. split; [discriminate|reflexivity].
  - left. split; reflexivity.
  - reflexivity.
Defined.

Lemma multiline_string_line_splicing_witness :
  parse_multiline_string_loop unit sample_sentinel sample_message 5 "a"
    (parser_at unit
       ([BACKSLASH; LF] ++ bytes "   b" ++ [DQUOTE; DQUOTE; DQUOTE]) 4 []) =
  parse_multiline_string_loop unit sample_sentinel sample_message 4 "a"
    (parser_at unit (bytes "b" ++ [DQUOTE; DQUOTE; DQUOTE]) 9 []).
Proof.
  refine (proj1 (multiline_string_line_splicing unit sample_sentinel
                   sample_message 4)
            "a" [LF] (bytes "   ") "b"%char [DQUOTE; DQUOTE; DQUOTE] 4 [] _ _ _ _).
  - left. reflexivity.
  - reflexivity.
  - reflexivity.
  - vm_compute. reflexivity.
Defined.

Lemma invalid_value_offset_is_zero_witness :
  parse_value unit sample_stod sample_sentinel sample_message 6
    (parser_at unit (bytes "1.2.3" ++ [LF]) 4 []) =
  Throw unit toml_type_t.t (parser_error_t "Invalid value" 0)
    (parser_at unit [LF] 9 []).
Proof.
  refine (proj1 (invalid_value_offset_is_zero unit sample_stod sample_sentinel
                   sample_message 5)
            "1"%char (bytes ".2.3") LF [] 4 [] _ _ _ _ _ _ _ _ _);
    vm_compute; reflexivity.
Defined.

(** The multiline basic string of a, a backslash, two line feeds and b is
    ab: the second line feed is a raw newline inside the string, consumed
    with the white space of the line splice, and no line feed reaches the
    output. *)
Lemma spliced_newline_is_dropped :
  parse_string unit sample_sentinel sample_message 20
    (parser_at unit
       ([DQUOTE; DQUOTE; DQUOTE] ++ bytes "a" ++ [BACKSLASH; LF; LF] ++ bytes "b" ++
          [DQUOTE; DQUOTE; DQUOTE])
       0 []) =
  Done unit unit tt (parser_at unit [] 11 [Handler.string "ab"]) /\
  String.index 0 (String LF "") "ab" = None.
Proof. split; vm_compute; reflexivity. Qed.

Lemma parser_error_offset_in_input_witness :
  0 <= 8 <= Z.of_nat (List.length (bytes "x = [1, ")).
Proof.
  apply (parser_error_offset_in_input unit sample_stod sample_sentinel
           sample_message 30 (bytes "x = [1, ") "Unexpected end of input" 8
           (parser_at unit [] 8
              [Handler.start_document; Handler.key "x"; Handler.start_array;
               Handler.integer 1])).
  - vm_compute. reflexivity.
  - vm_compute. reflexivity.
Defined.

Lemma parse_reads_whole_input_witness :
  unread unit
    (parser_at unit [] 11
       [Handler.start_document; Handler.table ["a"; "b"]; Handler.key "k";
        Handler.integer 1; Handler.finish_document]) = [] /\
  consumed unit
    (parser_at unit [] 11
       [Handler.start_document; Handler.table ["a"; "b"]; Handler.key "k";
        Handler.integer 1; Handler.finish_document]) =
  Z.of_nat (List.length (bytes "[a.b]" ++ [LF] ++ bytes "k = 1")).
Proof.
  apply (parse_reads_whole_input unit sample_stod sample_sentinel
           sample_message 30 (bytes "[a.b]" ++ [LF] ++ bytes "k = 1")).
  - vm_compute. reflexivity.
  - vm_compute. reflexivity.
Defined.

Lemma delivered_names_are_not_empty_witness :
  (forall name,
      In (Handler.key name)
        [Handler.start_document; Handler.table ["a"; "b"]; Handler.key "k";
         @Handler.integer unit 1; Handler.finish_document] ->
      name <> "") /\
  (forall path,
      In (Handler.table path)
        [Handler.start_document; Handler.table ["a"; "b"]; Handler.key "k";
         @Handler.integer unit 1; Handler.finish_document] \/
      In (Handler.array_table path)
        [Handler.start_document; Handler.table ["a"; "b"]; Handler.key "k";
         @Handler.integer unit 1; Handler.finish_document] ->
      path <> [] /\ ~ In "" path).
Proof.
  apply (delivered_names_are_not_empty unit sample_stod sample_sentinel
           sample_message 30 (bytes "[a.b]" ++ [LF] ++ bytes "k = 1")
           (parser_at unit [] 11
              [Handler.start_document; Handler.table ["a"; "b"];
               Handler.key "k"; Handler.integer 1; Handler.finish_document])).
  - vm_compute. reflexivity.
  - left. exists tt. vm_compute. reflexivity.
Defined.

Lemma parse_terminates_witness :
  loltoml_parse unit sample_stod sample_sentinel sample_message 20
    (bytes "a = 1") <> OutOfFuel unit unit /\
  loltoml_parse unit sample_stod sample_sentinel sample_message 20
    (bytes "a = 1") =
  loltoml_parse unit sample_stod sample_sentinel sample_message 18
    (bytes "a = 1").
Proof.
  apply (parse_terminates unit sample_stod sample_sentinel sample_message
           (bytes "a = 1") 20).
  - vm_compute. reflexivity.
  - vm_compute. lia.
Defined.

Lemma parse_value_tag_by_first_byte_witness :
  exists ch rest,
    unread unit (parser_at unit (bytes "42,") 3 []) = ch :: rest /\
    is_word_character ch = true.
Proof.
  apply (parse_value_tag_by_first_byte unit sample_stod sample_sentinel
           sample_message 5 (parser_at unit (bytes "42,") 3 [])
           toml_type_t.integer
           (parser_at unit (bytes ",") 5 [Handler.integer 42])).
  vm_compute. reflexivity.
Defined.

Lemma integer_values_are_not_negative_witness :
  exists value,
    [@Handler.integer unit 42] = [] ++ [Handler.integer value] /\
    0 <= value <= 2 ^ 63 - 1.
Proof.
  apply (integer_values_are_not_negative unit sample_stod sample_sentinel
           sample_message 5 (parser_at unit (bytes "42,") 3 [])
           (parser_at unit (bytes ",") 5 [Handler.integer 42])).
  vm_compute. reflexivity.
Defined.

Lemma one_character_then_digits_is_floating_point_witness :
  parse_value unit sample_stod sample_sentinel sample_message 4
    (parser_at unit (bytes "-17 ") 3 []) =
  Done unit toml_type_t.t toml_type_t.floating_point
    (parser_at unit (bytes " ") 6 [Handler.floating_point tt]).
Proof.
  apply (one_character_then_digits_is_floating_point unit sample_stod
           sample_sentinel sample_message 3 "-"%char (bytes "17") " "%char []
           3 []).
  - reflexivity.
  - reflexivity.
  - discriminate.
  - reflexivity.
  - reflexivity.
  - simpl. lia.
Defined.

Lemma escape_string_round_trip_witness :
  parse_value unit sample_stod sample_sentinel sample_message 7
    (parser_at unit
       (DQUOTE :: bytes (escape_string (String "007" (String DQUOTE "a\b"))) ++
          [DQUOTE])
       0 []) =
  Done unit toml_type_t.t toml_type_t.string
    (parser_at unit [] 14
       [Handler.string (String "007" (String DQUOTE "a\b"))]).
Proof.
  apply (escape_string_round_trip unit sample_stod sample_sentinel
           sample_message 6 (String "007" (String DQUOTE "a\b")) [] 0 []).
  - simpl. lia.
  - intros H. discriminate H.
Defined.

Lemma print_document_round_trip_witness :
  loltoml_parse unit sample_stod sample_sentinel sample_message 40
    (print_document
       [comment_line " hi"; table_line ["a"; "b"]; array_table_line ["c"];
        pair_line "k" (String LF "q")]) =
  Done unit unit tt
    (parser_at unit [] 27
       [Handler.start_document; Handler.comment " hi";
        Handler.table ["a"; "b"]; Handler.array_table ["c"]; Handler.key "k";
        Handler.string (String LF "q"); Handler.finish_document]).
Proof.
  apply (print_document_round_trip unit sample_stod sample_sentinel
           sample_message 40
           [comment_line " hi"; table_line ["a"; "b"]; array_table_line ["c"];
            pair_line "k" (String LF "q")]).
  - reflexivity.
  - vm_compute. lia.
Defined.

Lemma letters_token_is_boolean_or_symbol_witness :
  parse_value unit sample_stod sample_sentinel sample_message 5
    (parser_at unit (bytes "True,") 0 []) =
  Done unit toml_type_t.t toml_type_t.symbol
    (parser_at unit (bytes ",") 4 [Handler.symbol "True"]).
Proof.
  apply (letters_token_is_boolean_or_symbol unit sample_stod sample_sentinel
           sample_message 4 "T"%char (bytes "rue") ","%char [] 0 []).
  - reflexivity.
  - reflexivity.
  - reflexivity.
  - simpl. lia.
Defined.

Lemma literal_string_is_verbatim_witness :
  parse_value unit sample_stod sample_sentinel sample_message 5
    (parser_at unit (SQUOTE :: bytes "a\b" ++ [SQUOTE]) 0 []) =
  Done unit toml_type_t.t toml_type_t.string
    (parser_at unit [] 5 [Handler.string "a\b"]).
Proof.
  apply (literal_string_is_verbatim unit sample_stod sample_sentinel
           sample_message 4 "a\b" [] 0 []).
  - reflexivity.
  - simpl. lia.
  - intros H. discriminate H.
Defined.

Lemma multiline_literal_string_is_verbatim_witness :
  parse_value unit sample_stod sample_sentinel sample_message 6
    (parser_at unit
       ([SQUOTE; SQUOTE; SQUOTE] ++ [LF] ++
          bytes (String "a" (String LF "\b")) ++ [SQUOTE; SQUOTE; SQUOTE] ++ [])
       0 []) =
  Done unit toml_type_t.t toml_type_t.string
    (parser_at unit [] 11 [Handler.string (String "a" (String LF "\b"))]).
Proof.
  apply (multiline_literal_string_is_verbatim unit sample_stod sample_sentinel
           sample_message 5 [LF] (String "a" (String LF "\b")) [] 0 []).
  - left. reflexivity.
  - reflexivity.
  - simpl. lia.
Defined.

Lemma print_map_round_trip_witness :
  parse_value unit sample_stod sample_sentinel sample_message 24
    (parser_at unit
       (bytes
          (print_map unit (fun _ => "") (fun _ => "") true
             [("a", TOMLValue_boolean unit true);
              ("b", TOMLValue_string unit "x")]) ++ [])
       0 []) =
  Done unit toml_type_t.t toml_type_t.table
    (parser_at unit [] 21
       [Handler.start_inline_table; Handler.key "a"; Handler.boolean true;
        Handler.key "b"; Handler.string "x"; Handler.finish_inline_table 2]).
Proof.
  apply (print_map_round_trip unit sample_stod sample_sentinel sample_message
           (fun _ => "") (fun _ => "") 23
           [("a", TOMLValue_boolean unit true);
            ("b", TOMLValue_string unit "x")]
           [] 0 []).
  - reflexivity.
  - vm_compute. reflexivity.
  - vm_compute. lia.
Defined.

Lemma symbol_line_defines_only_new_keys_witness :
  exists configs',
    parseConfig unit sample_stod sample_sentinel sample_message 40
      (print_document
         ([pair_line "a" "x"; pair_line "b" "y"] ++ [symbol_line "b" "a"])) =
    parseConfig_returns unit configs' /\
    forall q,
      map_find q configs' =
      if (q =? "b")%string then Some (TOMLValue_string unit "y")
      else
        map_find q
          [("a", TOMLValue_string unit "x"); ("b", TOMLValue_string unit "y")].
Proof.
  apply (symbol_line_defines_only_new_keys unit sample_stod sample_sentinel
           sample_message 40 [pair_line "a" "x"; pair_line "b" "y"] "b" "a"
           [("a", TOMLValue_string unit "x"); ("b", TOMLValue_string unit "y")]).
  - reflexivity.
  - vm_compute. lia.
  - vm_compute. reflexivity.
Defined.

Lemma parseConfig_round_trip_witness :
  exists configs,
    parseConfig unit sample_stod sample_sentinel sample_message 40
      (print_document
         (map (fun i => pair_line (fst i) (snd i))
            [("a", "x"); ("b", "y"); ("a", "z")])) =
    parseConfig_returns unit configs /\
    forall key,
      map_find key configs =
      option_map (TOMLValue_string unit)
        (map_find key (rev [("a", "x"); ("b", "y"); ("a", "z")])).
Proof.
  apply (parseConfig_round_trip unit sample_stod sample_sentinel sample_message
           40 [("a", "x"); ("b", "y"); ("a", "z")]).
  - reflexivity.
  - vm_compute. lia.
Defined.

Lemma digits_token_is_integer_witness :
  parse_value unit sample_stod sample_sentinel sample_message 4
    (parser_at unit (bytes "007,") 0 []) =
  Done unit toml_type_t.t toml_type_t.integer
    (parser_at unit (bytes ",") 3 [Handler.integer 7]).
Proof.
  apply (digits_token_is_integer unit sample_stod sample_sentinel
           sample_message 3 "0"%char (bytes "07") ","%char [] 0 []).
  - reflexivity.
  - reflexivity.
  - reflexivity.
  - simpl. lia.
Defined.

Lemma quoted_key_round_trip_witness :
  parse_key unit sample_sentinel sample_message 5
    (parser_at unit (DQUOTE :: bytes (escape_string "a b") ++ [DQUOTE]) 0 []) =
  Done unit string "a b" (parser_at unit [] 5 []).
Proof.
  apply (quoted_key_round_trip unit sample_sentinel sample_message 5 "a b"
           [] 0 []).
  - simpl. lia.
  - lia.
  - vm_compute. reflexivity.
Defined.

Lemma basic_string_rejects_control_characters_witness :
  parse_basic_string unit sample_message 3
    (parser_at unit (bytes (escape_string "a") ++ [TAB]) 1 []) =
  Throw unit string
    (parser_error_t "Control characters must be escaped" 2)
    (parser_at unit [] 3 []).
Proof.
  apply (basic_string_rejects_control_characters unit sample_message 3 "a"
           TAB [] 1 []).
  - reflexivity.
  - simpl. lia.
  - lia.
  - vm_compute. reflexivity.
Defined.

Lemma escape_string_multiline_round_trip_witness :
  parse_value unit sample_stod sample_sentinel sample_message 7
    (parser_at unit
       ([DQUOTE; DQUOTE; DQUOTE] ++
          bytes (escape_string (String LF (String DQUOTE "a"))) ++
          [DQUOTE; DQUOTE; DQUOTE] ++ [])
       0 []) =
  Done unit toml_type_t.t toml_type_t.string
    (parser_at unit [] 11 [Handler.string (String LF (String DQUOTE "a"))]).
Proof.
  apply (escape_string_multiline_round_trip unit sample_stod sample_sentinel
           sample_message 6 (String LF (String DQUOTE "a")) [] 0 []).
  simpl. lia.
Defined.
